(** * gittimes: ranking, diversification and content assembly

    A shallow embedding of the scoring function, the diversity allocator
    and the section orchestrator of [src/github.js], of the article
    parser and the generation and post-processing pipeline of [src/xai.js]
    (with the [x-sentiment] helpers it calls), and of the edition history
    and the content validation of [src/publish.js], together with the
    properties the specification states about them and further properties
    of the code.

    Conventions of the embedding.
    - JavaScript numbers that hold counts, indices and millisecond
      timestamps are integers ([Z]); the score is a real number ([R]):
      the arithmetic of [scoreRepo] is modelled exactly, the rounding of
      IEEE doubles is not modelled.
    - [new Date(s).getTime()] is taken as already evaluated: a timestamp
      field holds the millisecond value of its ISO string.
    - Strings are sequences of code units; the embedding covers code units
      below 256 (all markers and separators of the program are ASCII).
    - A JavaScript object keyed by section ids is a [gmap], a [Set] of
      names is a [gset]. The language counter of the allocator is a plain
      object keyed by language names: its own properties are a [gmap],
      and a key it does not own is read through [Object.prototype].
    - [null] and [undefined] are [None]; [x || d] on a string takes [d]
      for [null] and for the empty string alike.
    - Network collaborators (repository search, readme/release fetch, chat
      backend) are oracles; a rejected promise is an error value.
    - [await Promise.all(tasks)] gathers every result before any of them is
      used; the tasks are run in list order. Concurrency limiters ([p-limit])
      do not change results and are left out. *)

From Stdlib Require Import ZArith List String Ascii Reals Lra Lia Bool Sorted.
From Stdlib Require Import DecimalString.
From stdpp Require Import gmap strings list.
Import ListNotations.

#[local] Set Warnings "-clear-no-such-hyp".

Local Open Scope string_scope.
Local Open Scope list_scope.
Local Open Scope Z_scope.

(** ** JavaScript helpers *)

Module Js.

(** [x || d] for a nullable string: [null], [undefined] and [""] are falsy. *)
Definition str_or (x : option string) (d : string) : string :=
  match x with
  | Some s => if String.eqb s "" then d else s
  | None => d
  end.

(** [s || null] for a string: the empty string is falsy. *)
Definition truthy (s : string) : option string :=
  if String.eqb s "" then None else Some s.

(** Relative index resolution of [Array.prototype.slice] and
    [String.prototype.slice]. *)
Definition clampIndex (len i : Z) : Z :=
  if i <? 0 then Z.max (len + i) 0 else Z.min i len.

(** [arr.slice(s, e)]. *)
Definition slice {A} (l : list A) (s e : Z) : list A :=
  let len := Z.of_nat (length l) in
  let k := clampIndex len s in
  let f := clampIndex len e in
  firstn (Z.to_nat (f - k)) (skipn (Z.to_nat k) l).

(** [arr.slice(s)]. *)
Definition slice_from {A} (l : list A) (s : Z) : list A :=
  slice l s (Z.of_nat (length l)).

(** [Math.ceil(a / b)] for integers [a] and [b > 0]. *)
Definition ceil_div (a b : Z) : Z := - ((- a) / b).

(** *** Plain objects that hold counters

    An object created by [{}] inherits from [Object.prototype]: reading a
    key it does not own finds the member of the prototype of that name. *)

(** The property names of [Object.prototype]. *)
Definition objectPrototypeNames : list string :=
  [ "constructor"; "__defineGetter__"; "__defineSetter__"; "hasOwnProperty";
    "__lookupGetter__"; "__lookupSetter__"; "isPrototypeOf"; "propertyIsEnumerable";
    "toString"; "valueOf"; "__proto__"; "toLocaleString" ].

(** What [obj[key]] evaluates to, for an object whose own properties hold
    numbers. *)
Inductive Property :=
| OwnNumber (n : Z)
| Inherited        (* a function of the prototype, or the prototype itself for [__proto__] *)
| Undefined.

Definition getProperty (obj : gmap string Z) (key : string) : Property :=
  match obj !! key with
  | Some n => OwnNumber n
  | None => if bool_decide (key ∈ objectPrototypeNames) then Inherited else Undefined
  end.

(** [p || 0] as a number: [undefined] gives 0, a number is kept ([0 || 0]
    is 0), an inherited member is truthy and is not a number ([None]). *)
Definition numberOr0 (p : Property) : option Z :=
  match p with
  | OwnNumber n => Some n
  | Inherited => None
  | Undefined => Some 0
  end.

(** *** Strings *)

Definition nl : string := String "010"%char "".

Definition code (a : ascii) : nat := nat_of_ascii a.

(** White space and line terminators: the class [\s] of regular
    expressions and what [trim] strips. *)
Definition isSpace (a : ascii) : bool :=
  let c := code a in
  ((9 <=? c) && (c <=? 13) || (c =? 32) || (c =? 160))%nat.

(** The class [.] (without the [s] flag): anything but a line terminator. *)
Definition isDot (a : ascii) : bool :=
  let c := code a in negb ((c =? 10) || (c =? 13))%nat.

(** The class [[\s\S]]. *)
Definition isAny (a : ascii) : bool := true.

(** The class [\d]. *)
Definition isDigit (a : ascii) : bool :=
  let c := code a in ((48 <=? c) && (c <=? 57))%nat.

(** The class [\w]. *)
Definition isWord (a : ascii) : bool :=
  let c := code a in
  ((48 <=? c) && (c <=? 57) || (65 <=? c) && (c <=? 90)
   || (97 <=? c) && (c <=? 122) || (c =? 95))%nat.

Fixpoint trimStart (s : string) : string :=
  match s with
  | String a s' => if isSpace a then trimStart s' else s
  | EmptyString => EmptyString
  end.

Fixpoint trimEnd (s : string) : string :=
  match s with
  | String a s' =>
      match trimEnd s' with
      | EmptyString => if isSpace a then EmptyString else String a EmptyString
      | t => String a t
      end
  | EmptyString => EmptyString
  end.

(** [s.trim()]. *)
Definition trim (s : string) : string := trimEnd (trimStart s).

(** [s.slice(b, e)]. *)
Definition str_slice (s : string) (b e : Z) : string :=
  let len := Z.of_nat (String.length s) in
  let k := clampIndex len b in
  let f := clampIndex len e in
  String.substring (Z.to_nat k) (Z.to_nat (f - k)) s.

(** [s.startsWith(p)]. *)
Definition startsWith (s p : string) : bool := String.prefix p s.

(** [s.toLowerCase()] on code units below 256. *)
Definition lowerChar (a : ascii) : ascii :=
  let c := code a in
  if ((65 <=? c) && (c <=? 90) || (192 <=? c) && (c <=? 222) && negb (c =? 215))%nat
  then ascii_of_nat (c + 32) else a.

Fixpoint toLowerCase (s : string) : string :=
  match s with
  | String a s' => String (lowerChar a) (toLowerCase s')
  | EmptyString => EmptyString
  end.

(** [s.split(sep)] for a non-empty literal separator: the pieces between
    the occurrences of [sep], scanning left to right. *)
Fixpoint splitAux (sep : string) (skip : nat) (cur : string) (s : string) : list string :=
  match s with
  | EmptyString => [cur]
  | String a s' =>
      match skip with
      | S n => splitAux sep n cur s'
      | O =>
          if String.prefix sep s
          then cur :: splitAux sep (Nat.pred (String.length sep)) EmptyString s'
          else splitAux sep O (cur +:+ String a EmptyString) s'
      end
  end.

Definition split (s sep : string) : list string := splitAux sep O EmptyString s.

(** Template interpolation of a number: [`${n}`]. *)
Definition showNat (n : nat) : string := NilZero.string_of_uint (Nat.to_uint n).

(** [parseInt(s, 10)]: leading white space, an optional sign, then the
    longest run of digits; [None] stands for [NaN]. *)
Fixpoint digitsValue (acc : option Z) (s : string) : option Z :=
  match s with
  | String a s' =>
      if isDigit a
      then digitsValue (Some (10 * default 0 acc + Z.of_nat (code a - 48))) s'
      else acc
  | EmptyString => acc
  end.

Definition parseInt (s : string) : option Z :=
  match trimStart s with
  | String "-"%char s' => Z.opp <$> digitsValue None s'
  | String "+"%char s' => digitsValue None s'
  | t => digitsValue None t
  end.

(** *** Regular expressions

    A backtracking matcher for the fragment the program uses: literals,
    repetition of a character class (greedy or lazy, [*] or [+]),
    sequence, ordered alternative, one capture group, and the assertions
    [^], [$] (no [m] flag) and [\b]. The cursor is the previous code unit
    (none at index 0) and the rest of the input. *)

Inductive Re :=
| Lit (l : string)
| Rep (greedy : bool) (atLeastOne : bool) (c : ascii -> bool)
| Seq (a b : Re)
| Alt (a b : Re)
| Group (a : Re)
| Bol
| Eol
| WordB.

Section Exec.
Context {X : Type}.

Fixpoint lit (l : string) (prev : option ascii) (s : string) : option (option ascii * string) :=
  match l with
  | EmptyString => Some (prev, s)
  | String a l' =>
      match s with
      | String b s' => if Ascii.eqb a b then lit l' (Some b) s' else None
      | EmptyString => None
      end
  end.

Fixpoint rep_greedy (c : ascii -> bool) (prev : option ascii) (s : string)
    (k : option ascii -> string -> option X) : option X :=
  match s with
  | String a s' =>
      if c a then
        match rep_greedy c (Some a) s' k with
        | Some x => Some x
        | None => k prev s
        end
      else k prev s
  | EmptyString => k prev s
  end.

Fixpoint rep_lazy (c : ascii -> bool) (prev : option ascii) (s : string)
    (k : option ascii -> string -> option X) : option X :=
  match k prev s with
  | Some x => Some x
  | None =>
      match s with
      | String a s' => if c a then rep_lazy c (Some a) s' k else None
      | EmptyString => None
      end
  end.

Definition isWordAt (prev : option ascii) : bool :=
  match prev with Some a => isWord a | None => false end.

Definition isWordHead (s : string) : bool :=
  match s with String a _ => isWord a | EmptyString => false end.

Fixpoint run (r : Re) (prev : option ascii) (s : string) (cap : option string)
    (k : option ascii -> string -> option string -> option X) : option X :=
  match r with
  | Lit l =>
      match lit l prev s with
      | Some (p', s') => k p' s' cap
      | None => None
      end
  | Rep greedy atLeastOne c =>
      let rest p s0 :=
        (if greedy then rep_greedy else rep_lazy) c p s0 (fun p' s' => k p' s' cap) in
      if atLeastOne then
        match s with
        | String a s' => if c a then rest (Some a) s' else None
        | EmptyString => None
        end
      else rest prev s
  | Seq a b => run a prev s cap (fun p' s' cap' => run b p' s' cap' k)
  | Alt a b =>
      match run a prev s cap k with
      | Some x => Some x
      | None => run b prev s cap k
      end
  | Group a =>
      run a prev s cap
        (fun p' s' _ =>
           k p' s' (Some (String.substring 0 (String.length s - String.length s') s)))
  | Bol => match prev with None => k prev s cap | Some _ => None end
  | Eol => match s with EmptyString => k prev s cap | String _ _ => None end
  | WordB => if xorb (isWordAt prev) (isWordHead s) then k prev s cap else None
  end.
End Exec.

(** One match: its index, the matched text [m[0]] and the group [m[1]]. *)
Record Match := {
  m_index : nat;
  m_text : string;
  m_group : option string
}.

(** [re.exec] anchored at the cursor: the length of the match and its group. *)
Definition exec (re : Re) (prev : option ascii) (s : string) : option (nat * option string) :=
  run re prev s None
    (fun _ s' cap => Some ((String.length s - String.length s')%nat, cap)).

(** [[...text.matchAll(re)]] with the [g] flag: successive leftmost
    matches; the search resumes at the end of the previous match, one code
    unit further after an empty match. [skip] counts the code units of the
    current match still to pass. *)
Fixpoint matchAllFrom (re : Re) (prev : option ascii) (s : string) (idx skip : nat)
    {struct s} : list Match :=
  match skip with
  | S n =>
      match s with
      | String a s' => matchAllFrom re (Some a) s' (S idx) n
      | EmptyString => []
      end
  | O =>
      match exec re prev s with
      | Some (len, cap) =>
          {| m_index := idx; m_text := String.substring 0 len s; m_group := cap |} ::
          match s with
          | String a s' => matchAllFrom re (Some a) s' (S idx) (Nat.pred len)
          | EmptyString => []
          end
      | None =>
          match s with
          | String a s' => matchAllFrom re (Some a) s' (S idx) O
          | EmptyString => []
          end
      end
  end.

Definition matchAll (text : string) (re : Re) : list Match :=
  matchAllFrom re None text O O.

(** [text.replace(re, "")] without the [g] flag: the first match is cut out. *)
Definition removeFirst (text : string) (re : Re) : string :=
  match matchAll text re with
  | m :: _ =>
      String.substring 0 (m_index m) text +:+
      String.substring (m_index m + String.length (m_text m))
                       (String.length text) text
  | [] => text
  end.

End Js.

(** ** Results of fallible calls *)

Inductive Result (A : Type) :=
| Ok (a : A)
| Err (message : string).
Arguments Ok {A} a.
Arguments Err {A} message.

(** ** Display-ready data shared by [github.js] and [xai.js] *)

Module Display.

(** The fields [enrichRepo] adds to the projection of [toQuickHit]. *)
Record Enrichment := {
  forks : Z;
  openIssues : option Z;
  createdAt : Z;
  pushedAt : Z;
  readmeExcerpt : string;
  releaseNotes : string;
  releaseName : option string
}.

(** The object built by [enrichRepo] ([enrichment] present) or by
    [toQuickHit] ([enrichment] absent). *)
Record EnrichedRepo := {
  name : string;
  shortName : string;
  description : string;
  url : string;
  stars : Z;
  language : string;
  topics : list string;
  enrichment : option Enrichment
}.

(** [{ ...repo, summary }]; [summary] is absent until quick-hits are annotated. *)
Record QuickHit := {
  qh_repo : EnrichedRepo;
  summary : option string
}.

(** What the fetch stage hands to the generation stage for one section. *)
Record SectionData := {
  sd_lead : option EnrichedRepo;
  sd_secondary : list EnrichedRepo;
  sd_quickHits : list QuickHit
}.

End Display.

(** ** Section configuration (src/sections.js) *)

Module Sections.

Record Budget := {
  secondary : Z;
  quickHits : Z
}.

Record SectionQuery := {
  topics : list string;
  languages : list string
}.

Record SectionConfig := {
  id : string;
  label : string;
  budget : Budget;
  query : option SectionQuery;
  isXPulse : bool
}.

Definition topicSection (i l : string) (ts ls : list string) : SectionConfig :=
  {| id := i; label := l; budget := {| secondary := 3; quickHits := 5 |};
     query := Some {| topics := ts; languages := ls |}; isXPulse := false |}.

Definition SECTIONS : gmap string SectionConfig :=
  list_to_map [
    ("frontPage", {| id := "frontPage"; label := "Front Page";
                     budget := {| secondary := 7; quickHits := 10 |};
                     query := None; isXPulse := false |});
    ("ai", topicSection "ai" "AI"
             ["ai"; "machine-learning"; "deep-learning"; "llm"; "gpt";
              "neural-network"; "nlp"; "computer-vision"; "generative-ai"; "transformers"]
             ["Jupyter Notebook"]);
    ("robotics", topicSection "robotics" "Robotics"
             ["robotics"; "robot"; "ros"; "autonomous"; "drone";
              "embedded"; "iot"; "arduino"; "sensor"] []);
    ("cyber", topicSection "cyber" "Cyber"
             ["security"; "cybersecurity"; "hacking"; "pentest";
              "vulnerability"; "exploit"; "ctf"; "malware"; "encryption"] []);
    ("systems", topicSection "systems" "Systems" [] ["Rust"; "Go"; "C"; "C++"; "Zig"]);
    ("diy", topicSection "diy" "DIY"
             ["diy"; "maker"; "hardware"; "3d-printing";
              "home-automation"; "self-hosted"; "homelab"; "raspberry-pi"] []);
    ("xPulse", {| id := "xPulse"; label := "X Pulse";
                  budget := {| secondary := 0; quickHits := 0 |};
                  query := None; isXPulse := true |}) ].

Definition SECTION_ORDER : list string :=
  ["frontPage"; "ai"; "robotics"; "cyber"; "systems"; "diy"; "xPulse"].

End Sections.

(** ** Scoring, allocation and section orchestration (src/github.js) *)

Module Github.

Import Sections.

Record Release := {
  tag_name : option string;
  release_name : option string;
  body : option string;
  published_at : option Z;
  release_created_at : option Z
}.

Record Repo := {
  full_name : string;
  name : string;
  description : option string;
  html_url : string;
  stargazers_count : Z;
  forks_count : Z;
  open_issues_count : option Z;
  language : option string;
  topics : list string;
  created_at : Z;
  pushed_at : Z;
  _latestRelease : option Release;
  _isOSSInsight : bool
}.

(** [{ ...repo, _score }] *)
Record ScoredRepo := {
  repo_of :> Repo;
  _score : R
}.

(** *** [scoreRepo] *)

Record ScoreOptions := {
  recentRepoNames : option (gset string);
  now : option Z
}.

(** [Math.log1p], for arguments above [-1] (star counts are not negative). *)
Definition log1p (x : R) : R := ln (1 + x).

(** [rel.published_at || rel.created_at] *)
Definition relDate (rel : Release) : option Z :=
  match published_at rel with
  | Some d => Some d
  | None => release_created_at rel
  end.

(** [dateNow] is the value [Date.now()] would return. *)
Definition scoreRepo (dateNow : Z) (repo : Repo) (options : ScoreOptions) : R :=
  let now :=
    match now options with
    | Some n => if n =? 0 then dateNow else n
    | None => dateNow
    end in
  let recentRepoNames : gset string := default ∅ (recentRepoNames options) in
  (* Star velocity: log-dampen, cap at 1.0 *)
  let ageMs := now - created_at repo in
  let ageDays := Rmax (IZR ageMs / 86400000) 1 in
  let rawVelocity := (IZR (stargazers_count repo) / ageDays)%R in
  let velocityScore := Rmin (log1p rawVelocity / 5) 1 in
  (* Recency: linear decay over 7 days (0-1) *)
  let pushedMs := now - pushed_at repo in
  let recencyScore := Rmax 0 (1 - IZR pushedMs / (7 * 86400000)) in
  (* Release bonus: linear decay over 30 days (1.0 -> 0) *)
  let releaseScore :=
    match _latestRelease repo with
    | Some rel =>
        match relDate rel with
        | Some relDateMs =>
            let relAgeMs := now - relDateMs in
            let relAgeDays := (IZR relAgeMs / 86400000)%R in
            Rmax 0 (1 - relAgeDays / 30)
        | None => 0.5%R
        end
    | None => 0%R
    end in
  (* Engagement ratio: (forks + issues) / stars, capped at 1 *)
  let stars := stargazers_count repo in
  let forks := forks_count repo in
  let issues := default 0 (open_issues_count repo) in
  let engagementScore :=
    if 0 <? stars then Rmin ((IZR forks + IZR issues * 0.3) / IZR stars) 1 else 0%R in
  (* OSSInsight repos have fabricated timestamps: zero out velocity & recency *)
  let effectiveVelocity := if _isOSSInsight repo then 0%R else velocityScore in
  let effectiveRecency := if _isOSSInsight repo then 0%R else recencyScore in
  let score :=
    (effectiveVelocity * 0.35 + effectiveRecency * 0.25
     + releaseScore * 0.15 + engagementScore * 0.10)%R in
  (* History penalty: -0.5 if repo appeared in recent editions *)
  if decide (full_name repo ∈ recentRepoNames) then (score - 0.5)%R else score.

(** *** [categorizeDiverseForSection] *)

Record Categorized := {
  lead : option ScoredRepo;
  cat_secondary : list ScoredRepo;
  cat_quickHits : list ScoredRepo
}.

(** [repo.language || "Unknown"] *)
Definition langOf (r : ScoredRepo) : string := Js.str_or (language r) "Unknown".

(** The state of the walk; [langCount] holds the own properties of the
    counter object. *)
Record Walk := {
  promoted : list ScoredRepo;
  overflow : list ScoredRepo;
  langCount : gmap string Z
}.

Definition walk_init : Walk :=
  {| promoted := []; overflow := []; langCount := ∅ |}.

(** Body of the loop [for (const repo of scoredRepos)]. [langCount] is a
    plain object: for a language that bears the name of a member of
    [Object.prototype], [langCount[lang] || 0] is that member, the
    comparison [count < maxPerLang] is one with [NaN] and the candidate
    goes to [overflow]. *)
Definition walk_step (totalPromoted maxPerLang : Z) (st : Walk) (repo : ScoredRepo) : Walk :=
  let lang := langOf repo in
  if Z.of_nat (length (promoted st)) <? totalPromoted then
    match Js.numberOr0 (Js.getProperty (langCount st) lang) with
    | Some count =>
        if count <? maxPerLang then
          {| promoted := promoted st ++ [repo];
             overflow := overflow st;
             langCount := <[lang := count + 1]> (langCount st) |}
        else
          {| promoted := promoted st;
             overflow := overflow st ++ [repo];
             langCount := langCount st |}
    | None =>
        {| promoted := promoted st;
           overflow := overflow st ++ [repo];
           langCount := langCount st |}
    end
  else
    {| promoted := promoted st;
       overflow := overflow st ++ [repo];
       langCount := langCount st |}.

Definition walk (totalPromoted maxPerLang : Z) (scoredRepos : list ScoredRepo) : Walk :=
  fold_left (walk_step totalPromoted maxPerLang) scoredRepos walk_init.

(** The backfill loop:
    [for (const repo of overflow) { if (promoted.length >= totalPromoted) break; promoted.push(repo); }] *)
Fixpoint backfill (totalPromoted : Z) (promoted overflow : list ScoredRepo) : list ScoredRepo :=
  match overflow with
  | [] => promoted
  | repo :: rest =>
      if totalPromoted <=? Z.of_nat (length promoted) then promoted
      else backfill totalPromoted (promoted ++ [repo]) rest
  end.

(** [new Set(top15.map((r) => r.language || "Unknown")).size] *)
Definition distinctLangs (scoredRepos : list ScoredRepo) : Z :=
  let top15 := Js.slice scoredRepos 0 15 in
  Z.of_nat (size (list_to_set (map langOf top15) : gset string)).

Definition maxPerLang (budget : Budget) (scoredRepos : list ScoredRepo) : Z :=
  Z.max 2 (Js.ceil_div (1 + secondary budget) (distinctLangs scoredRepos)).

Definition categorizeDiverseForSection (scoredRepos : list ScoredRepo) (budget : Budget)
    : Categorized :=
  match scoredRepos with
  | [] => {| lead := None; cat_secondary := []; cat_quickHits := [] |}
  | _ :: _ =>
      let totalPromoted := 1 + secondary budget in
      let cap := maxPerLang budget scoredRepos in
      let st := walk totalPromoted cap scoredRepos in
      let '(promoted, overflow) :=
        if Z.of_nat (length (promoted st)) <? totalPromoted then
          let promoted := backfill totalPromoted (promoted st) (overflow st) in
          let promotedSet : gset string :=
            list_to_set (map (fun r : ScoredRepo => full_name r) promoted) in
          (promoted,
           filter (fun r : ScoredRepo => full_name r ∉ promotedSet) scoredRepos)
        else (promoted st, overflow st) in
      {| lead := head promoted;
         cat_secondary := Js.slice_from promoted 1;
         cat_quickHits := Js.slice overflow 0 (quickHits budget) |}
  end.

Definition categorizeDiverse (scoredRepos : list ScoredRepo) : Categorized :=
  categorizeDiverseForSection scoredRepos {| secondary := 6; quickHits := 10 |}.

(** *** The repository source *)

Inductive Query :=
| QueryNew                      (* created in the last 7 days, more than 50 stars *)
| QueryEstablished              (* more than 1000 stars, pushed in the last 3 days *)
| QueryTopic (t : string)
| QueryLanguage (l : string).

Record OSSRow := {
  repo_name : string;
  row_stars : option Z;
  row_forks : option Z;
  primary_language : option string;
  row_description : option string
}.

Inductive ClockSite :=
| AtTrends
| AtTrending
| AtSection (sectionId : string).

(** What the network answers during one run; [None] is a rejected request
    (after its retries). *)
Record Source := {
  search : Query -> option (list Repo);
  trends : option (list OSSRow);
  releasesLatest : string -> option Release;
  readme : string -> option string;      (* the decoded [content], when present *)
  dateNow : ClockSite -> Z
}.

(** [(row.repo_name || "").split("/").pop()] *)
Definition lastSegment (s : string) : string :=
  List.last (Js.split s "/") "".

Definition fetchOSSInsightTrending (src : Source) : list Repo :=
  match trends src with
  | Some rows =>
      map (fun row =>
             {| full_name := repo_name row;
                name := lastSegment (repo_name row);
                html_url := "https://github.com/" +:+ repo_name row;
                stargazers_count := default 0 (row_stars row);
                forks_count := default 0 (row_forks row);
                open_issues_count := None;
                language := Some (Js.str_or (primary_language row) "Unknown");
                description := Some (Js.str_or (row_description row) "");
                topics := [];
                created_at := dateNow src AtTrends;
                pushed_at := dateNow src AtTrends;
                _latestRelease := None;
                _isOSSInsight := true |}) rows
  | None => []
  end.

(** [if (!seen.has(repo.full_name)) { seen.add(repo.full_name); repos.push(repo); }] *)
Definition dedupStep (st : gset string * list Repo) (repo : Repo) : gset string * list Repo :=
  let '(seen, repos) := st in
  if decide (full_name repo ∈ seen) then st
  else ({[ full_name repo ]} ∪ seen, repos ++ [repo]).

(** [arr.sort((a, b) => b._score - a._score)]: stable, highest score first. *)
Fixpoint insertDesc (x : ScoredRepo) (l : list ScoredRepo) : list ScoredRepo :=
  match l with
  | [] => [x]
  | y :: l' => if Rlt_dec (_score x) (_score y) then y :: insertDesc x l' else x :: l
  end.

Definition sortByScoreDesc (l : list ScoredRepo) : list ScoredRepo :=
  foldr insertDesc [] l.

Definition withScore (dateNow : Z) (options : ScoreOptions) (repo : Repo) : ScoredRepo :=
  {| repo_of := repo; _score := scoreRepo dateNow repo options |}.

(** [{ ...repo, _latestRelease: release }] *)
Definition withRelease (repo : Repo) (release : option Release) : Repo :=
  {| full_name := full_name repo; name := name repo; description := description repo;
     html_url := html_url repo; stargazers_count := stargazers_count repo;
     forks_count := forks_count repo; open_issues_count := open_issues_count repo;
     language := language repo; topics := topics repo; created_at := created_at repo;
     pushed_at := pushed_at repo; _latestRelease := release;
     _isOSSInsight := _isOSSInsight repo |}.

Definition fetchTrending (src : Source) (recentRepoNames : gset string) : Result Categorized :=
  match search src QueryNew, search src QueryEstablished with
  | Some resultA, Some resultB =>
      let ossInsightRepos := fetchOSSInsightTrending src in
      (* Deduplicate by full_name *)
      let st := fold_left dedupStep (resultA ++ resultB) (∅, []) in
      (* Add OSSInsight repos not already in the list *)
      let '(_, repos) := fold_left dedupStep ossInsightRepos st in
      (* Score ALL repos (without release info first) *)
      let now := dateNow src AtTrending in
      let scoreOpts := {| recentRepoNames := Some recentRepoNames; now := Some now |} in
      let preScored := sortByScoreDesc (map (withScore now scoreOpts) repos) in
      (* Fetch latest release for top 15 candidates *)
      let top15 := Js.slice preScored 0 15 in
      let withReleases :=
        map (fun repo : ScoredRepo =>
               withRelease repo (releasesLatest src (full_name repo))) top15 in
      (* Re-score top 15 with release bonus factored in *)
      let reScored := sortByScoreDesc (map (withScore now scoreOpts) withReleases) in
      Ok (categorizeDiverse reScored)
  | _, _ => Err "GitHub API"
  end.

Definition enrichRepo (src : Source) (repo : Repo) : Display.EnrichedRepo :=
  let readmeData := readme src (full_name repo) in
  let releaseData :=
    match _latestRelease repo with
    | Some rel => Some rel
    | None => releasesLatest src (full_name repo)
    end in
  let readmeExcerpt :=
    match readmeData with
    | Some decoded => Js.str_slice decoded 0 2000
    | None => ""
    end in
  let releaseNotes :=
    match releaseData with
    | Some rel =>
        match Js.truthy (default "" (body rel)) with
        | Some b => Js.str_slice b 0 1500
        | None => ""
        end
    | None => ""
    end in
  {| Display.name := full_name repo;
     Display.shortName := name repo;
     Display.description := Js.str_or (description repo) "";
     Display.url := html_url repo;
     Display.stars := stargazers_count repo;
     Display.language := Js.str_or (language repo) "Unknown";
     Display.topics := topics repo;
     Display.enrichment := Some
       {| Display.forks := forks_count repo;
          Display.openIssues := open_issues_count repo;
          Display.createdAt := created_at repo;
          Display.pushedAt := pushed_at repo;
          Display.readmeExcerpt := readmeExcerpt;
          Display.releaseNotes := releaseNotes;
          Display.releaseName :=
            match releaseData with
            | Some rel =>
                match Js.truthy (default "" (tag_name rel)) with
                | Some t => Some t
                | None => release_name rel
                end
            | None => None
            end |} |}.

Definition toQuickHit (repo : Repo) : Display.QuickHit :=
  {| Display.qh_repo :=
       {| Display.name := full_name repo;
          Display.shortName := name repo;
          Display.description := Js.str_or (description repo) "";
          Display.url := html_url repo;
          Display.stars := stargazers_count repo;
          Display.language := Js.str_or (language repo) "Unknown";
          Display.topics := topics repo;
          Display.enrichment := None |};
     Display.summary := None |}.

(** [fetchSectionRepos]: one query per topic (first three) and per
    language; a failed query contributes no items. *)
Definition fetchSectionRepos (src : Source) (q : SectionQuery) : list Repo :=
  let queries :=
    map QueryTopic (Js.slice (Sections.topics q) 0 3)
    ++ map QueryLanguage (languages q) in
  let results := map (fun qu => default [] (search src qu)) queries in
  snd (fold_left (fun st result => fold_left dedupStep result st) results (∅, [])).

(** [[lead, ...secondary].filter(Boolean)] *)
Definition claimedOf (c : Categorized) : list ScoredRepo :=
  option_list (lead c) ++ cat_secondary c.

(** [fetchAndEnrichSection]; [globalSeen] is the shared set, returned
    as the call leaves it. *)
Definition fetchAndEnrichSection (src : Source) (sectionConfig : SectionConfig)
    (globalSeen recentRepoNames : gset string)
    : Result Display.SectionData * gset string :=
  match query sectionConfig with
  | None => (Err "TypeError", globalSeen)
  | Some q =>
      let repos := fetchSectionRepos src q in
      (* Filter out repos already claimed by other sections *)
      let filtered := filter (fun r : Repo => full_name r ∉ globalSeen) repos in
      match filtered with
      | [] => (Ok {| Display.sd_lead := None; Display.sd_secondary := [];
                     Display.sd_quickHits := [] |}, globalSeen)
      | _ :: _ =>
          let now := dateNow src (AtSection (id sectionConfig)) in
          let scoreOpts := {| recentRepoNames := Some recentRepoNames; now := Some now |} in
          let scored := sortByScoreDesc (map (withScore now scoreOpts) filtered) in
          let c := categorizeDiverseForSection scored (budget sectionConfig) in
          (* Only mark lead + secondary as claimed *)
          let globalSeen' :=
            fold_left (fun seen (repo : ScoredRepo) => {[ full_name repo ]} ∪ seen)
                      (claimedOf c) globalSeen in
          match lead c with
          | None =>
              (Ok {| Display.sd_lead := None; Display.sd_secondary := [];
                     Display.sd_quickHits :=
                       map (fun r : ScoredRepo => toQuickHit r) (cat_quickHits c) |},
               globalSeen')
          | Some l =>
              (Ok {| Display.sd_lead := Some (enrichRepo src l);
                     Display.sd_secondary :=
                       map (fun r : ScoredRepo => enrichRepo src r) (cat_secondary c);
                     Display.sd_quickHits :=
                       map (fun r : ScoredRepo => toQuickHit r) (cat_quickHits c) |},
               globalSeen')
          end
      end
  end.

Definition fetchAndEnrich (src : Source) (recentRepoNames : gset string)
    : Result Display.SectionData :=
  match fetchTrending src recentRepoNames with
  | Err e => Err e
  | Ok c =>
      match lead c with
      | None => Err "No repos found"
      | Some l =>
          Ok {| Display.sd_lead := Some (enrichRepo src l);
                Display.sd_secondary :=
                  map (fun r : ScoredRepo => enrichRepo src r) (cat_secondary c);
                Display.sd_quickHits :=
                  map (fun r : ScoredRepo => toQuickHit r) (cat_quickHits c) |}
      end
  end.

(** The loop [for (const id of SECTION_ORDER)] of [fetchAllSections]. *)
Fixpoint fetchTopicSections (src : Source) (recentRepoNames : gset string)
    (ids : list string) (sections : gmap string Display.SectionData)
    (globalSeen : gset string)
    : Result (gmap string Display.SectionData) * gset string :=
  match ids with
  | [] => (Ok sections, globalSeen)
  | sid :: rest =>
      if String.eqb sid "frontPage"
      then fetchTopicSections src recentRepoNames rest sections globalSeen
      else
        match SECTIONS !! sid with
        | None => fetchTopicSections src recentRepoNames rest sections globalSeen
        | Some config =>
            match query config with
            | None => fetchTopicSections src recentRepoNames rest sections globalSeen
            | Some _ =>
                match fetchAndEnrichSection src config globalSeen recentRepoNames with
                | (Ok data, globalSeen') =>
                    fetchTopicSections src recentRepoNames rest
                      (<[sid := data]> sections) globalSeen'
                | (Err e, globalSeen') => (Err e, globalSeen')
                end
            end
        end
  end.

(** The names the front page seeds [globalSeen] with. *)
Definition headlinerNames (d : Display.SectionData) : gset string :=
  list_to_set (map Display.name (option_list (Display.sd_lead d) ++ Display.sd_secondary d)).

Definition fetchAllSections (src : Source) (recentRepoNames : gset string)
    : Result (gmap string Display.SectionData) :=
  match fetchAndEnrich src recentRepoNames with
  | Err e => Err e
  | Ok frontPageData =>
      let globalSeen := headlinerNames frontPageData in
      let sections : gmap string Display.SectionData := {[ "frontPage" := frontPageData ]} in
      fst (fetchTopicSections src recentRepoNames SECTION_ORDER sections globalSeen)
  end.

End Github.

(** ** Article parsing and generation (src/xai.js, x-sentiment) *)

Module Xai.

Import Display.

Definition BIG_MODEL : string := "grok-4-1-fast-reasoning".
Definition SMALL_MODEL : string := "grok-4-1-fast-reasoning".

(** *** The chat backend

    [chat(client, model, prompt, maxTokens, options)] is the collaborator:
    it answers a text or raises (after its own retries). A backend may
    answer from the calls made so far and the call at hand. The prompt
    builders of [prompts.js] are kept as constructors. *)

Inductive Prompt :=
| leadArticlePrompt (repo : EnrichedRepo)
| secondaryArticlePrompt (repo : EnrichedRepo)
| quickHitPrompt (repos : list QuickHit)
| xSentimentPrompt (repoName : string)
| xPulsePrompt.

Record ChatCall := {
  model : string;
  prompt : Prompt;
  maxTokens : Z;
  tools : bool
}.

Definition Backend : Type := list ChatCall -> ChatCall -> Result string.

(** Computations that talk to the backend: they read the backend, extend
    the log of calls, and return a value or raise. *)
Definition M (A : Type) : Type := Backend -> list ChatCall -> Result A * list ChatCall.

Definition ret {A} (a : A) : M A := fun _ log => (Ok a, log).

Definition bind {A B} (m : M A) (k : A -> M B) : M B :=
  fun backend log =>
    match m backend log with
    | (Ok a, log') => k a backend log'
    | (Err e, log') => (Err e, log')
    end.

(** [try { m } catch (err) { handler(err) }] *)
Definition try_catch {A} (m : M A) (handler : string -> M A) : M A :=
  fun backend log =>
    match m backend log with
    | (Ok a, log') => (Ok a, log')
    | (Err e, log') => handler e backend log'
    end.

Notation "x <- m ;; k" := (bind m (fun x => k))
  (at level 100, m at next level, right associativity).

Definition chat (model : string) (prompt : Prompt) (maxTokens : Z) (tools : bool) : M string :=
  fun backend log =>
    let call := {| model := model; prompt := prompt; maxTokens := maxTokens; tools := tools |} in
    (backend log call, log ++ [call]).

(** [await Promise.all(xs.map(f))] for tasks that are gathered before
    any of their results is used: run in list order. *)
Fixpoint mapM {A B} (f : A -> M B) (xs : list A) : M (list B) :=
  match xs with
  | [] => ret []
  | x :: rest => y <- f x ;; ys <- mapM f rest ;; ret (y :: ys)
  end.

(** *** [parseArticle] *)

Definition lastMatch (text : string) (pattern : Js.Re) : option Js.Match :=
  last (Js.matchAll text pattern).

(** [/(?:^|\n)\bHEADLINE:\s*(.+)/] *)
Definition headlineRe : Js.Re :=
  Js.Seq (Js.Alt Js.Bol (Js.Lit Js.nl))
    (Js.Seq Js.WordB
       (Js.Seq (Js.Lit "HEADLINE:")
          (Js.Seq (Js.Rep true false Js.isSpace)
             (Js.Group (Js.Rep true true Js.isDot))))).

(** [/SUBHEADLINE:\s*(.+)/] *)
Definition subheadlineRe : Js.Re :=
  Js.Seq (Js.Lit "SUBHEADLINE:")
    (Js.Seq (Js.Rep true false Js.isSpace) (Js.Group (Js.Rep true true Js.isDot))).

(** [/BUILDERS_TAKE:\s*([\s\S]*?)$/] *)
Definition buildersTakeRe : Js.Re :=
  Js.Seq (Js.Lit "BUILDERS_TAKE:")
    (Js.Seq (Js.Rep true false Js.isSpace)
       (Js.Seq (Js.Group (Js.Rep false false Js.isAny)) Js.Eol)).

(** [/BODY:\s*/] *)
Definition bodyMarkerRe : Js.Re :=
  Js.Seq (Js.Lit "BODY:") (Js.Rep true false Js.isSpace).

(** [/BUILDERS_TAKE:/] *)
Definition btMarkerRe : Js.Re := Js.Lit "BUILDERS_TAKE:".

(** [m?.[1]?.trim() || null] *)
Definition groupTrim (m : option Js.Match) : option string :=
  match m with
  | Some m =>
      match Js.m_group m with
      | Some g => Js.truthy (Js.trim g)
      | None => None
      end
  | None => None
  end.

(** The span from the end of the last [BODY:] marker to the last
    [BUILDERS_TAKE:] marker, trimmed; [None] is [null]. *)
Definition parseBody (text : string) : option string :=
  match last (Js.matchAll text bodyMarkerRe) with
  | Some lastBody =>
      let lastBodyStart := (Js.m_index lastBody + String.length (Js.m_text lastBody))%nat in
      let lastBtStart :=
        match last (Js.matchAll text btMarkerRe) with
        | Some bt => Js.m_index bt
        | None => String.length text
        end in
      if (lastBodyStart <? lastBtStart)%nat
      then Some (Js.trim (Js.str_slice text (Z.of_nat lastBodyStart) (Z.of_nat lastBtStart)))
      else None
  | None => None
  end.

Record ParsedArticle := {
  headline : string;
  subheadline : string;
  body : string;
  buildersTake : string;
  _isFallback : bool
}.

Definition parseArticle (text : string) (repo : option EnrichedRepo) : ParsedArticle :=
  let headlineMatch := lastMatch text headlineRe in
  let subheadlineMatch := lastMatch text subheadlineRe in
  let buildersTakeMatch := lastMatch text buildersTakeRe in
  let body := parseBody text in
  let headline := groupTrim headlineMatch in
  let subheadline := default "" (groupTrim subheadlineMatch) in
  let buildersTake := default "" (groupTrim buildersTakeMatch) in
  let body := body ≫= Js.truthy in
  let failed := negb (bool_decide (is_Some headline)) || negb (bool_decide (is_Some body)) in
  {| headline :=
       match headline with
       | Some h => h
       | None =>
           match repo with
           | Some r => Js.str_slice (shortName r +:+ ": " +:+ description r) 0 80
           | None => "Untitled"
           end
       end;
     subheadline :=
       match Js.truthy subheadline with
       | Some s => s
       | None => match repo with Some r => description r | None => "" end
       end;
     body :=
       match body with
       | Some b => b
       | None => match repo with Some r => description r | None => text end
       end;
     buildersTake := buildersTake;
     _isFallback := failed |}.

(** *** [parseQuickHits] *)

(** [/^\d+\.\s*/] *)
Definition ordinalRe : Js.Re :=
  Js.Seq Js.Bol
    (Js.Seq (Js.Rep true true Js.isDigit)
       (Js.Seq (Js.Lit ".") (Js.Rep true false Js.isSpace))).

Definition nonBlank (l : string) : bool := negb (String.eqb (Js.trim l) "").

Definition parseQuickHits (text : string) (repos : list QuickHit) : list QuickHit :=
  let lines := List.filter nonBlank (Js.split text Js.nl) in
  imap (fun i (repo : QuickHit) =>
          let line := List.find (fun l => Js.startsWith l (Js.showNat (i + 1) +:+ ".")) lines in
          let summary :=
            match line with
            | Some l => Js.trim (Js.removeFirst l ordinalRe)
            | None => description (qh_repo repo)
            end in
          {| qh_repo := qh_repo repo; summary := Some summary |}) repos.

(** *** X sentiment (x-sentiment) *)

Record XSentiment := {
  sentiment : string;
  blurb : string;
  postCount : Z;
  topPost : option string;
  _failed : bool
}.

Record PulseItem := {
  topic : string;
  pulse_blurb : string;
  pulse_sentiment : string;
  handles : string
}.

Definition VALID_SENTIMENTS : list string :=
  ["buzzing"; "positive"; "neutral"; "mixed"; "quiet"; "unknown"].

Definition includes (l : list string) (s : string) : bool :=
  existsb (String.eqb s) l.

(** [/KEY:\s*(.+)/] *)
Definition fieldRe (key : string) : Js.Re :=
  Js.Seq (Js.Lit key)
    (Js.Seq (Js.Rep true false Js.isSpace) (Js.Group (Js.Rep true true Js.isDot))).

Definition failedSentiment : XSentiment :=
  {| sentiment := "unknown"; blurb := ""; postCount := 0; topPost := None; _failed := true |}.

Definition parseXSentiment (text : string) : XSentiment :=
  if String.eqb (Js.trim text) "" then failedSentiment
  else
    let sentimentMatch := lastMatch text (fieldRe "SENTIMENT:") in
    let postCountMatch := lastMatch text (fieldRe "POST_COUNT:") in
    let blurbMatch := lastMatch text (fieldRe "BLURB:") in
    let topPostMatch := lastMatch text (fieldRe "TOP_POST:") in
    let sentiment :=
      default "unknown"
        (match sentimentMatch ≫= Js.m_group with
         | Some g => Js.truthy (Js.toLowerCase (Js.trim g))
         | None => None
         end) in
    let sentiment := if includes VALID_SENTIMENTS sentiment then sentiment else "unknown" in
    let postCount :=
      default 0 (match postCountMatch ≫= Js.m_group with
                 | Some g => Js.parseInt (Js.trim g)
                 | None => None
                 end) in
    let blurb := default "" (groupTrim blurbMatch) in
    let topPostRaw := groupTrim topPostMatch in
    let topPost :=
      match topPostRaw with
      | Some t => if String.eqb t "none" then None else Some t
      | None => None
      end in
    {| sentiment := sentiment; blurb := blurb; postCount := postCount;
       topPost := topPost; _failed := false |}.

Definition fetchXSentimentForRepo (repo : EnrichedRepo) : M XSentiment :=
  try_catch
    (raw <- chat "grok-4-1-fast-reasoning" (xSentimentPrompt (name repo)) 300 true ;;
     ret (parseXSentiment raw))
    (fun _ => ret failedSentiment).

(** Body of the loop [for (const block of blocks)] of [parseXPulse]. *)
Definition pulseStep (items : list PulseItem) (block : string) : list PulseItem :=
  if (8 <=? length items)%nat then items
  else
    match groupTrim (lastMatch block (fieldRe "TOPIC:")) with
    | None => items
    | Some topic =>
        let sentiment :=
          default "neutral"
            (match lastMatch block (fieldRe "SENTIMENT:") ≫= Js.m_group with
             | Some g => Js.truthy (Js.toLowerCase (Js.trim g))
             | None => None
             end) in
        let sentiment := if includes VALID_SENTIMENTS sentiment then sentiment else "neutral" in
        items ++ [ {| topic := topic;
                      pulse_blurb := default "" (groupTrim (lastMatch block (fieldRe "BLURB:")));
                      pulse_sentiment := sentiment;
                      handles := default "" (groupTrim (lastMatch block (fieldRe "HANDLES:"))) |} ]
    end.

Definition parseXPulse (text : string) : list PulseItem :=
  if String.eqb (Js.trim text) "" then []
  else
    let blocks := List.filter nonBlank (Js.split text "---") in
    fold_left pulseStep blocks [].

Definition fetchXPulse : M (list PulseItem) :=
  try_catch
    (raw <- chat "grok-4-1-fast-reasoning" xPulsePrompt 2000 true ;;
     ret (parseXPulse raw))
    (fun _ => ret []).

(** *** Articles and section content *)

(** [{ ...parseArticle(raw, repo), repo }], later annotated with [xSentiment]. *)
Record Article := {
  fields :> ParsedArticle;
  repo : EnrichedRepo;
  xSentiment : option XSentiment
}.

Record SectionContent := {
  lead : option Article;
  secondary : list Article;
  quickHits : list QuickHit;
  isEmpty : bool;
  isXPulse : bool;
  pulseItems : list PulseItem
}.

Definition withRepo (p : ParsedArticle) (r : EnrichedRepo) : Article :=
  {| fields := p; repo := r; xSentiment := None |}.

(** Generate an article with one parse-level retry. *)
Definition generateArticleWithRetry (model : string) (promptFn : EnrichedRepo -> Prompt)
    (repo : EnrichedRepo) (maxTokens : Z) : M Article :=
  try_catch
    (raw <- chat model (promptFn repo) maxTokens false ;;
     let article := withRepo (parseArticle raw (Some repo)) repo in
     if negb (_isFallback article) then ret article
     else
       (* Retry once *)
       retryRaw <- chat model (promptFn repo) maxTokens false ;;
       let retryArticle := withRepo (parseArticle retryRaw (Some repo)) repo in
       ret retryArticle)
    (fun _ => ret (withRepo (parseArticle "" (Some repo)) repo)).

(** [{ ...article.repo, summary: article.repo.description }] *)
Definition demote (article : Article) : QuickHit :=
  {| qh_repo := repo article; summary := Some (description (repo article)) |}.

(** Body of the loop [for (const article of allSecondary)]. *)
Definition demoteStep (st : list Article * list QuickHit) (article : Article)
    : list Article * list QuickHit :=
  let '(goodSecondary, demotedToQuickHits) := st in
  if _isFallback article
  then (goodSecondary, demotedToQuickHits ++ [demote article])
  else (goodSecondary ++ [article], demotedToQuickHits).

Definition emptySection (quickHits : list QuickHit) : SectionContent :=
  {| lead := None; secondary := []; quickHits := quickHits; isEmpty := true;
     isXPulse := false; pulseItems := [] |}.

Definition generateSectionContent (sectionData : SectionData)
    (sectionConfig : Sections.SectionConfig) : M SectionContent :=
  match sd_lead sectionData with
  | None => ret (emptySection (sd_quickHits sectionData))
  | Some leadRepo =>
      let isFrontPage := String.eqb (Sections.id sectionConfig) "frontPage" in
      let leadModel := if isFrontPage then BIG_MODEL else SMALL_MODEL in
      let leadTokens := if isFrontPage then 2000 else 1200 in
      (* Lead + all secondary articles (with parse-level retry) *)
      leadArticle <- generateArticleWithRetry leadModel leadArticlePrompt leadRepo leadTokens ;;
      allSecondary <-
        mapM (fun r => generateArticleWithRetry SMALL_MODEL secondaryArticlePrompt r 800)
             (sd_secondary sectionData) ;;
      (* Quick hits *)
      quickHits <-
        match sd_quickHits sectionData with
        | [] => ret []
        | qs =>
            quickHitsRaw <- chat SMALL_MODEL (quickHitPrompt qs) 600 false ;;
            ret (parseQuickHits quickHitsRaw qs)
        end ;;
      (* Demote fallback articles from secondary to quick hits *)
      let '(goodSecondary, demotedToQuickHits) := fold_left demoteStep allSecondary ([], []) in
      (* If lead is a fallback and there are good secondaries, promote the first good one *)
      let '(finalLead, goodSecondary, demotedToQuickHits) :=
        match goodSecondary with
        | first :: others =>
            if _isFallback leadArticle
            then (first, others, demotedToQuickHits ++ [demote leadArticle])
            else (leadArticle, goodSecondary, demotedToQuickHits)
        | [] => (leadArticle, goodSecondary, demotedToQuickHits)
        end in
      ret {| lead := Some finalLead;
             secondary := goodSecondary;
             quickHits := quickHits ++ demotedToQuickHits;
             isEmpty := false;
             isXPulse := false;
             pulseItems := [] |}
  end.

Record Content := {
  sections : gmap string SectionContent;
  tagline : string
}.

(** First loop of [generateAllContent]: generate each section in order. *)
Fixpoint generateSections (sections : gmap string SectionData) (ids : list string)
    (result : gmap string SectionContent) : M (gmap string SectionContent) :=
  match ids with
  | [] => ret result
  | sid :: rest =>
      match Sections.SECTIONS !! sid with
      | None => fun _ log => (Err "TypeError", log)
      | Some config =>
          if Sections.isXPulse config then generateSections sections rest result
          else
            match sections !! sid with
            | None => generateSections sections rest (<[sid := emptySection []]> result)
            | Some sectionData =>
                content <- generateSectionContent sectionData config ;;
                generateSections sections rest (<[sid := content]> result)
            end
      end
  end.

Definition annotateArticle (article : Article) : M Article :=
  s <- fetchXSentimentForRepo (repo article) ;;
  ret {| fields := fields article; repo := repo article; xSentiment := Some s |}.

(** Second loop: annotate lead and secondary articles with X sentiment. *)
Fixpoint annotateSections (ids : list string) (result : gmap string SectionContent)
    : M (gmap string SectionContent) :=
  match ids with
  | [] => ret result
  | sid :: rest =>
      match result !! sid with
      | None => annotateSections rest result
      | Some section =>
          if isEmpty section then annotateSections rest result
          else
            lead' <-
              match lead section with
              | Some article => a <- annotateArticle article ;; ret (Some a)
              | None => ret None
              end ;;
            secondary' <- mapM annotateArticle (secondary section) ;;
            annotateSections rest
              (<[sid := {| lead := lead'; secondary := secondary';
                           quickHits := quickHits section; isEmpty := isEmpty section;
                           isXPulse := isXPulse section;
                           pulseItems := pulseItems section |}]> result)
      end
  end.

(** [mastheadQuote] is the quote the masthead picks for the edition. *)
Definition generateAllContent (sections : gmap string SectionData) (mastheadQuote : string)
    : M Content :=
  result <- generateSections sections Sections.SECTION_ORDER ∅ ;;
  result <- annotateSections Sections.SECTION_ORDER result ;;
  pulseItems <- fetchXPulse ;;
  let result :=
    <["xPulse" := {| lead := None; secondary := []; quickHits := [];
                     isEmpty := (length pulseItems =? 0)%nat;
                     isXPulse := true; pulseItems := pulseItems |}]> result in
  ret {| sections := result; tagline := mastheadQuote |}.

End Xai.

(** ** Specification-side vocabulary *)

Module GithubSpec.

Import Sections Github.

(** Number of candidates of language [l] in a list. *)
Definition countLang (l : string) (rs : list ScoredRepo) : Z :=
  Z.of_nat (length (filter (fun r => langOf r = l) rs)).

(** The list is sorted by score, highest first. *)
Definition scoreDescending (rs : list ScoredRepo) : Prop :=
  StronglySorted (fun a b => (_score b <= _score a)%R) rs.

(** Number of distinct languages in the whole list. *)
Definition spannedLangs (rs : list ScoredRepo) : Z :=
  Z.of_nat (size (list_to_set (map langOf rs) : gset string)).

(** A language name that is not the name of a member of
    [Object.prototype]; every language name GitHub reports is one. *)
Definition ordinaryLang (l : string) : Prop := l ∉ Js.objectPrototypeNames.

(** [r], which comes after the candidates [earlier] in the input, is
    within the cap: fewer than [cap] of the earlier candidates have its
    language (and that language is an ordinary name, the only kind the
    counter object counts). *)
Definition isWithinCap (cap : Z) (earlier : list ScoredRepo) (r : ScoredRepo) : bool :=
  bool_decide (ordinaryLang (langOf r)) && (countLang (langOf r) earlier <? cap).

(** The candidates of [rs] that are within the cap, in input order;
    [earlier] are the candidates ahead of [rs]. *)
Fixpoint withinCap (cap : Z) (earlier rs : list ScoredRepo) : list ScoredRepo :=
  match rs with
  | [] => []
  | r :: rest =>
      if isWithinCap cap earlier r then r :: withinCap cap (earlier ++ [r]) rest
      else withinCap cap (earlier ++ [r]) rest
  end.

(** The other candidates of [rs], in input order. *)
Fixpoint beyondCap (cap : Z) (earlier rs : list ScoredRepo) : list ScoredRepo :=
  match rs with
  | [] => []
  | r :: rest =>
      if isWithinCap cap earlier r then beyondCap cap (earlier ++ [r]) rest
      else r :: beyondCap cap (earlier ++ [r]) rest
  end.

(** *** Invariants and fixtures used by the proofs *)

(** The own properties of the counter object mirror the promoted list, no
    language exceeds the cap during the walk, and the object never owns a
    key that [Object.prototype] has. *)
Definition walk_inv (cap : Z) (st : Walk) : Prop :=
  forall l, default 0 (langCount st !! l) = countLang l (promoted st)
          /\ countLang l (promoted st) <= cap
          /\ (l ∈ Js.objectPrototypeNames -> langCount st !! l = None).

(** After the candidates [pre], the walk has promoted the first
    [totalPromoted] candidates within the cap, and, while a slot is free,
    overflowed exactly the others. *)
Definition walk_tracks (totalPromoted cap : Z) (pre : list ScoredRepo) (st : Walk) : Prop :=
  promoted st = take (Z.to_nat totalPromoted) (withinCap cap [] pre) /\
  (Z.of_nat (length (promoted st)) < totalPromoted -> overflow st = beyondCap cap [] pre).

(** Test fixture of the unit tests: [makeRepo(name, lang, score)]. *)
Definition makeScoredRepo (n l : string) (s : Z) : ScoredRepo :=
  {| repo_of := {| full_name := n; name := n; description := None; html_url := "";
       stargazers_count := 0; forks_count := 0; open_issues_count := Some 0;
       language := Some l; topics := []; created_at := 0; pushed_at := 0;
       _latestRelease := None; _isOSSInsight := false |};
     _score := IZR s |}.

(** Six Rust candidates ahead of one Go, one Python and one JS candidate. *)
Definition rust_heavy_pool : list ScoredRepo :=
  [ makeScoredRepo "r/1" "Rust" 9; makeScoredRepo "r/2" "Rust" 8; makeScoredRepo "r/3" "Rust" 7;
    makeScoredRepo "r/4" "Rust" 6; makeScoredRepo "r/5" "Rust" 5; makeScoredRepo "r/6" "Rust" 4;
    makeScoredRepo "g/1" "Go" 3; makeScoredRepo "p/1" "Python" 2; makeScoredRepo "j/1" "JS" 1 ].


(** Three Rust candidates, one of a language named like a member of
    [Object.prototype], and four of three other languages. *)
Definition prototype_mixed_pool : list ScoredRepo :=
  [ makeScoredRepo "r/1" "Rust" 9; makeScoredRepo "r/2" "Rust" 8; makeScoredRepo "r/3" "Rust" 7;
    makeScoredRepo "c/1" "constructor" 6; makeScoredRepo "g/1" "Go" 5; makeScoredRepo "g/2" "Go" 4;
    makeScoredRepo "p/1" "Python" 3; makeScoredRepo "j/1" "JS" 2 ].

(** The end-to-end example of the specification. *)
Definition end_to_end_pool : list ScoredRepo :=
  [ makeScoredRepo "a/x" "Rust" 8; makeScoredRepo "a/y" "Rust" 7; makeScoredRepo "a/z" "Rust" 6;
    makeScoredRepo "b/p" "Go" 5; makeScoredRepo "b/q" "Go" 4; makeScoredRepo "c/r" "Python" 3;
    makeScoredRepo "c/s" "Python" 2; makeScoredRepo "d/t" "JS" 1 ].

Definition front_budget : Budget := {| secondary := 6; quickHits := 10 |}.

(** The instant the score is computed for: [options.now || Date.now()]. *)
Definition effectiveNow (dateNow : Z) (options : ScoreOptions) : Z :=
  match now options with
  | Some n => if (n =? 0)%Z then dateNow else n
  | None => dateNow
  end.

(** A repository record whose last push lies 30 days after the scoring
    instant (the other fields are those of the unit tests' [baseRepo]). *)
Definition scoringInstant : Z := 1767225600000.

Definition pushedInFuture : Repo :=
  {| full_name := "org/repo"; name := "repo"; description := None;
     html_url := "https://github.com/org/repo";
     stargazers_count := 100; forks_count := 20; open_issues_count := Some 10%Z;
     language := Some "JavaScript"; topics := [];
     created_at := scoringInstant - 2 * 86400000;
     pushed_at := scoringInstant + 30 * 86400000;
     _latestRelease := None; _isOSSInsight := false |}.

(** [seen] holds the names of [repos], which are pairwise different. *)
Definition dedupInv (st : gset string * list Repo) : Prop :=
  NoDup (map (fun r : Repo => full_name r) st.2) /\
  forall n, n ∈ st.1 <-> n ∈ map (fun r : Repo => full_name r) st.2.

(** Every section's headliners are claimed, and no two sections share one. *)
Definition runInv (sections : gmap string Display.SectionData) (globalSeen : gset string) : Prop :=
  (forall i d, sections !! i = Some d -> headlinerNames d ⊆ globalSeen) /\
  (forall i j di dj, i <> j -> sections !! i = Some di -> sections !! j = Some dj ->
                     headlinerNames di ## headlinerNames dj).

(** A repository source whose topic queries overlap with one another and
    with the front page. *)
Definition demoRepo (n : string) (l : string) : Repo :=
  {| full_name := n; name := n; description := Some "demo"; html_url := "";
     stargazers_count := 100; forks_count := 20; open_issues_count := Some 10;
     language := Some l; topics := []; created_at := 0; pushed_at := 0;
     _latestRelease := None; _isOSSInsight := false |}.

Definition demoSource : Source :=
  {| search := fun q =>
       match q with
       | QueryNew => Some [demoRepo "a/x" "Rust"]
       | QueryEstablished => Some []
       | QueryTopic _ => Some [demoRepo "a/x" "Rust"; demoRepo "b/y" "Go"]
       | QueryLanguage _ => None
       end;
     trends := None;
     releasesLatest := fun _ => None;
     readme := fun _ => None;
     dateNow := fun _ => 86400000 |}.

(** The run on [demoSource]: the front page leads with [a/x]; the AI
    section finds [a/x] and [b/y], drops the claimed [a/x] and leads with
    [b/y]; the later sections find both names claimed and stay empty. *)
Definition demoSections : gmap string Display.SectionData :=
  Eval vm_compute in
    match fetchAllSections demoSource ∅ with
    | Ok sections => sections
    | Err _ => ∅
    end.

End GithubSpec.

Module XaiSpec.

Import Display Xai.

(** [marker] occurs somewhere in [s]. *)
Fixpoint occurs (marker s : string) : bool :=
  String.prefix marker s ||
  match s with
  | String _ s' => occurs marker s'
  | EmptyString => false
  end.

(** The text holds none of the markers of the article format
    ([SUBHEADLINE:] contains [HEADLINE:]). *)
Definition markerFree (text : string) : Prop :=
  occurs "HEADLINE:" text = false /\
  occurs "BODY:" text = false /\
  occurs "BUILDERS_TAKE:" text = false.

(** The text fails to parse: no headline or no body can be located. *)
Definition failsToParse (text : string) (repo : EnrichedRepo) : Prop :=
  _isFallback (parseArticle text (Some repo)) = true.

(** What the parser extracts for each field, before any fallback. *)
Definition parsedHeadline (text : string) : option string :=
  groupTrim (lastMatch text headlineRe).

Definition parsedBody (text : string) : option string :=
  parseBody text ≫= Js.truthy.

Definition parsedBuildersTake (text : string) : option string :=
  groupTrim (lastMatch text buildersTakeRe).

(** ["{shortName}: {description}"] truncated to 80 characters. *)
Definition fallbackHeadline (repo : EnrichedRepo) : string :=
  Js.str_slice (shortName repo +:+ ": " +:+ description repo) 0 80.

(** The deterministic fallback article of the specification. *)
Definition fallbackArticle (repo : EnrichedRepo) : Article :=
  {| fields := {| headline := fallbackHeadline repo;
                  subheadline := description repo;
                  body := description repo;
                  buildersTake := "";
                  _isFallback := true |};
     repo := repo;
     xSentiment := None |}.

(** The call [generateArticleWithRetry] issues, initially and on retry. *)
Definition articleCall (model : string) (promptFn : EnrichedRepo -> Prompt)
    (repo : EnrichedRepo) (maxTokens : Z) : ChatCall :=
  {| model := model; prompt := promptFn repo; maxTokens := maxTokens; tools := false |}.

(** [.join("\n")] *)
Definition lines (ls : list string) : string := String.concat Js.nl ls.

(** Test fixture of the generation tests: [makeRepo(name)]. *)
Definition makeEnrichedRepo (n : string) : EnrichedRepo :=
  {| name := "org/" +:+ n; shortName := n; description := "Description of " +:+ n;
     url := "https://github.com/org/" +:+ n; stars := 1000; language := "JavaScript";
     topics := [];
     enrichment := Some {| forks := 10; openIssues := Some 5; createdAt := 0; pushedAt := 0;
                           readmeExcerpt := "# README"; releaseNotes := "";
                           releaseName := None |} |}.

(** [goodArticle(headline)] and [badResponse()] of the generation tests. *)
Definition goodArticle (h : string) : string :=
  lines ["HEADLINE: " +:+ h; "SUBHEADLINE: A subtitle";
         "BODY: Article body text here."; "BUILDERS_TAKE: Worth checking out."].

Definition badResponse : string :=
  "This is just unstructured rambling with no markers at all.".

(** The first non-fallback article of a list. *)
Definition isGood (a : Article) : bool := negb (_isFallback a).

Definition firstGood (articles : list Article) : option Article :=
  List.find isGood articles.

(** The generation tasks [generateSectionContent] issues for the lead and
    for the secondary candidates of a section. *)
Definition leadGeneration (sectionConfig : Sections.SectionConfig) (leadRepo : EnrichedRepo)
    : M Article :=
  generateArticleWithRetry
    (if String.eqb (Sections.id sectionConfig) "frontPage" then BIG_MODEL else SMALL_MODEL)
    leadArticlePrompt leadRepo
    (if String.eqb (Sections.id sectionConfig) "frontPage" then 2000 else 1200).

Definition secondaryGeneration (repos : list EnrichedRepo) : M (list Article) :=
  mapM (fun r => generateArticleWithRetry SMALL_MODEL secondaryArticlePrompt r 800) repos.

Definition isFallback (a : Article) : bool := _isFallback a.

(** Section-level post-processing in the specification's words: every
    fallback secondary is demoted to a quick-hit; a fallback lead is
    replaced by the first non-fallback secondary, if there is one, and
    demoted in turn; demoted entries follow the annotated quick-hits. *)
Definition postProcess (leadArticle : Article) (allSecondary : list Article)
    (annotated : list QuickHit) : SectionContent :=
  let good := List.filter isGood allSecondary in
  let demoted := map demote (List.filter isFallback allSecondary) in
  match (if _isFallback leadArticle then firstGood allSecondary else None) with
  | Some promotedArticle =>
      {| lead := Some promotedArticle;
         secondary := tail good;
         quickHits := annotated ++ demoted ++ [demote leadArticle];
         isEmpty := false; isXPulse := false; pulseItems := [] |}
  | None =>
      {| lead := Some leadArticle;
         secondary := good;
         quickHits := annotated ++ demoted;
         isEmpty := false; isXPulse := false; pulseItems := [] |}
  end.

(** The quick-hits of a section after the batched summary call. *)
Definition annotatedQuickHits (qs : list QuickHit) : M (list QuickHit) :=
  match qs with
  | [] => ret []
  | _ :: _ =>
      bind (chat SMALL_MODEL (quickHitPrompt qs) 600 false)
           (fun quickHitsRaw => ret (parseQuickHits quickHitsRaw qs))
  end.

(** The invariant of a section content: [isEmpty === (lead === null)]. *)
Definition emptyIffNoLead (s : SectionContent) : Prop :=
  isEmpty s = true <-> lead s = None.

(** *** Auxiliary predicates and fixtures used by the proofs *)

(** A quick-hit candidate of the parser tests, not yet summarised. *)
Definition bare (n d : string) : QuickHit :=
  {| qh_repo := {| name := n; shortName := n; description := d; url := ""; stars := 500;
                   language := ""; topics := []; enrichment := None |};
     summary := None |}.

(** A backend that first echoes the format instructions, then writes the
    article. *)
Definition echoedFormat : string :=
  lines ["HEADLINE: [A compelling newspaper headline]";
         "SUBHEADLINE: [A clarifying subheadline]";
         "BODY: [300-400 word article body]";
         "BUILDERS_TAKE: [2-3 sentences of practical advice]";
         "HEADLINE: Rust Rewrite Lands";
         "SUBHEADLINE: The port is done";
         "BODY: The project moved to Rust.";
         "BUILDERS_TAKE: Try the new release."].

(** The expression matches at no position of [s]. *)
Fixpoint noMatchIn (re : Js.Re) (s : string) : Prop :=
  (forall prev, Js.exec re prev s = None) /\
  match s with
  | String _ s' => noMatchIn re s'
  | EmptyString => True
  end.

(** The part of the headline expression after [(?:^|\n)]. *)
Definition headlineTail : Js.Re :=
  Js.Seq Js.WordB
    (Js.Seq (Js.Lit "HEADLINE:")
       (Js.Seq (Js.Rep true false Js.isSpace) (Js.Group (Js.Rep true true Js.isDot)))).

(** A backend that answers every call with a headline and nothing else. *)
Definition headlineOnlyBackend : Backend := fun _ _ => Ok "HEADLINE: Only A Headline".

(** The section of the promotion test: a lead whose generation fails and
    one secondary whose generation succeeds. *)
Definition routingBackend : Backend :=
  fun _ call =>
    match prompt call with
    | secondaryArticlePrompt r =>
        if String.eqb (name r) "org/good-sec" then Ok (goodArticle "Promoted Secondary")
        else Ok badResponse
    | quickHitPrompt _ => Ok "1. Summary"
    | _ => Ok badResponse
    end.

Definition aiConfig : Sections.SectionConfig :=
  Sections.topicSection "ai" "AI" ["ai"] [].

Definition promotionData : SectionData :=
  {| sd_lead := Some (makeEnrichedRepo "bad-lead");
     sd_secondary := [makeEnrichedRepo "good-sec"];
     sd_quickHits := [] |}.

(** The section of the demotion test, with a lead that fails as well. *)
Definition demotionData : SectionData :=
  {| sd_lead := Some (makeEnrichedRepo "bad-lead");
     sd_secondary := [makeEnrichedRepo "good-sec"; makeEnrichedRepo "bad-sec"];
     sd_quickHits := [] |}.

(** The demotion test: a good lead, one good and one failing secondary. *)
Definition leadRoutingBackend : Backend :=
  fun _ call =>
    match prompt call with
    | leadArticlePrompt _ => Ok (goodArticle "Lead Story")
    | secondaryArticlePrompt r =>
        if String.eqb (name r) "org/good-sec" then Ok (goodArticle "Good Secondary")
        else Ok badResponse
    | _ => Ok "1. Quick summary A"
    end.

Definition demotionTestData : SectionData :=
  {| sd_lead := Some (makeEnrichedRepo "lead");
     sd_secondary := [makeEnrichedRepo "good-sec"; makeEnrichedRepo "bad-sec"];
     sd_quickHits := [ {| qh_repo := makeEnrichedRepo "qh1"; summary := None |} ] |}.

Definition demotionTestOutcome : Result SectionContent * list ChatCall :=
  Eval cbv in generateSectionContent demotionTestData aiConfig leadRoutingBackend [].

Definition allSections (P : SectionContent -> Prop) (m : gmap string SectionContent) : Prop :=
  forall sid s, m !! sid = Some s -> P s.

(** A backend whose only answer of substance is one X Pulse topic. *)
Definition pulseBackend : Backend :=
  fun _ call =>
    match prompt call with
    | xPulsePrompt => Ok "TOPIC: AI agents"
    | _ => Err "unavailable"
    end.

End XaiSpec.


(** ** One chat completion (src/xai.js, [sanitizePrompt] to [_chat]) *)

Module XaiClient.

(** The class [[\x00-\x08\x0B\x0C\x0E-\x1F\x7F]]: the control characters
    other than tab, line feed and carriage return. *)
Definition isControl (a : ascii) : bool :=
  let c := Js.code a in
  ((c <=? 8) || (c =? 11) || (c =? 12) || (14 <=? c) && (c <=? 31) || (c =? 127))%nat.

(** [text.replace(/[\x00-\x08\x0B\x0C\x0E-\x1F\x7F]/g, "")]: every code
    unit of the class is cut out. *)
Fixpoint sanitizePrompt (text : string) : string :=
  match text with
  | String a s => if isControl a then sanitizePrompt s else String a (sanitizePrompt s)
  | EmptyString => EmptyString
  end.

(** [/\bHEADLINE:|BODY:/] *)
Definition ARTICLE_MARKERS : Js.Re :=
  Js.Alt (Js.Seq Js.WordB (Js.Lit "HEADLINE:")) (Js.Lit "BODY:").

(** [re.test(text)] for an expression without the [g] flag. *)
Definition test (re : Js.Re) (text : string) : bool :=
  match Js.matchAll text re with
  | [] => false
  | _ :: _ => true
  end.

(** [response.choices[i].message] *)
Record Message := {
  content : option string;
  reasoning : option string
}.

Definition pickStructuredOutput (msg : Message) : string :=
  let content := Js.trim (Js.str_or (content msg) "") in
  let reasoning := Js.trim (Js.str_or (reasoning msg) "") in
  (* Prefer whichever field contains the structured article markers *)
  if test ARTICLE_MARKERS content then content
  else if test ARTICLE_MARKERS reasoning then reasoning
  (* Neither has markers: prefer content if non-empty, else reasoning *)
  else if String.eqb content "" then reasoning else content.

(** The request handed to [client.chat.completions.create]. *)
Record ChatParams := {
  p_model : string;
  p_content : string;          (* [messages: [{ role: "user", content }]] *)
  p_max_tokens : Z;
  p_temperature : R;
  p_tools : option (list string)
}.

(** The completion endpoint: it answers the list [response.choices] (empty
    when the field is missing) or raises. *)
Definition Client : Type := ChatParams -> Result (list Message).

Definition _chat (client : Client) (model prompt : string) (maxTokens : Z)
    (tools : option (list string)) : Result string :=
  let clean := sanitizePrompt prompt in
  let params :=
    {| p_model := model; p_content := clean; p_max_tokens := maxTokens;
       p_temperature := 0.7%R; p_tools := tools |} in
  match client params with
  | Err e => Err e
  | Ok choices =>
      match choices with
      | [] => Err ("No choices returned from " +:+ model)
      | choice :: _ =>
          let result := pickStructuredOutput choice in
          if String.eqb result "" then Err ("Empty response from " +:+ model)
          else Ok result
      end
  end.

End XaiClient.

(** ** Edition history and content validation (src/publish.js) *)

Module Publish.

Import Display Xai.

(** One entry of [editions/manifest.json]; fields an older entry may lack
    are optional. *)
Record ManifestEntry := {
  date : string;
  entry_headline : option string;
  entry_subheadline : option string;
  entry_tagline : option string;
  entry_url : option string;
  repos : option (list string)
}.

(** The manifest file of the output directory: [None] when it does not
    exist or does not parse. *)
Definition ManifestFile : Type := option (list ManifestEntry).

Definition readManifest (file : ManifestFile) : list ManifestEntry :=
  default [] file.

(** [getRecentRepoNames(outDir, lookback)], on the manifest file of [outDir]. *)
Definition getRecentRepoNames (file : ManifestFile) (lookback : Z) : gset string :=
  let manifest := readManifest file in
  let entries := Js.slice manifest 0 lookback in
  fold_left
    (fun (names : gset string) entry =>
       match repos entry with
       | None => names
       | Some rs => fold_left (fun (names : gset string) name => {[ name ]} ∪ names) rs names
       end)
    entries ∅.

(** [const i = manifest.findIndex((e) => e.date === dateStr);
     if (i !== -1) manifest.splice(i, 1);] *)
Fixpoint removeExisting (dateStr : string) (manifest : list ManifestEntry)
    : list ManifestEntry :=
  match manifest with
  | [] => []
  | e :: rest =>
      if String.eqb (date e) dateStr then rest else e :: removeExisting dateStr rest
  end.

(** [if (x.name) repos.push(x.name)] *)
Definition pushName (n : string) : list string :=
  if String.eqb n "" then [] else [n].

(** The names one section contributes to [repos]: its lead, its secondary
    articles, its quick-hits. *)
Definition sectionRepos (section : SectionContent) : list string :=
  match lead section with
  | Some article => pushName (name (repo article))
  | None => []
  end
  ++ concat (map (fun item : Article => pushName (name (repo item))) (secondary section))
  ++ concat (map (fun item : QuickHit => pushName (name (qh_repo item))) (quickHits section)).

(** The manifest written by [publish(content, outDir, { basePath, date })],
    for multi-section content; [dateStr] is [toDateStr(date)]. The pages
    and feeds [publish] renders beside the manifest are not modelled. The
    sections are visited in the order of the map's keys (JavaScript visits
    them in insertion order). *)
Definition publish (content : Content) (dateStr basePath : string) (file : ManifestFile)
    : ManifestFile :=
  (* 1. Read existing manifest; replace the entry of this date *)
  let manifest := removeExisting dateStr (readManifest file) in
  let editionUrl := basePath +:+ "/editions/" +:+ dateStr +:+ "/" in
  (* 7. Collect repo names for history dedup *)
  let repos :=
    concat (map (fun kv : string * SectionContent => sectionRepos kv.2)
                (map_to_list (sections content))) in
  (* 8. Prepend new entry to manifest *)
  let frontPageLead : option Article := sections content !! "frontPage" ≫= lead in
  let newEntry :=
    {| date := dateStr;
       entry_headline :=
         Some (match frontPageLead with
               | Some l => headline l
               | None => "The Git Times Edition"
               end);
       entry_subheadline :=
         Some (match frontPageLead with
               | Some l => subheadline l
               | None => ""
               end);
       entry_tagline := Some (tagline content);
       entry_url := Some editionUrl;
       repos := Some repos |} in
  Some (newEntry :: manifest).

(** *** [validateContent] *)

Record Summary := {
  sum_sections : Z;
  sum_articles : Z;
  sum_fallbacks : Z;
  sum_emptyCount : Z
}.

Record Validation := {
  valid : bool;
  errors : list string;
  warnings : list string;
  summary : Summary
}.

(** The counters of the loop over the sections. *)
Record Tally := {
  t_sections : Z;
  t_articles : Z;
  t_fallbacks : Z;
  t_emptyCount : Z;
  hasNonFallbackLead : bool
}.

(** Body of the loop [for (const [id, section] of Object.entries(content.sections))]. *)
Definition tallyStep (t : Tally) (section : SectionContent) : Tally :=
  let sections := t_sections t + 1 in
  if isEmpty section then
    {| t_sections := sections; t_articles := t_articles t; t_fallbacks := t_fallbacks t;
       t_emptyCount := t_emptyCount t + 1; hasNonFallbackLead := hasNonFallbackLead t |}
  else
    let '(articles, fallbacks, hasLead) :=
      match lead section with
      | Some l =>
          if _isFallback l
          then (t_articles t + 1, t_fallbacks t + 1, hasNonFallbackLead t)
          else (t_articles t + 1, t_fallbacks t, true)
      | None => (t_articles t, t_fallbacks t, hasNonFallbackLead t)
      end in
    let '(articles, fallbacks) :=
      fold_left
        (fun '(articles, fallbacks) (s : Article) =>
           (articles + 1, if _isFallback s then fallbacks + 1 else fallbacks))
        (secondary section) (articles, fallbacks) in
    {| t_sections := sections;
       t_articles := articles + Z.of_nat (length (quickHits section));
       t_fallbacks := fallbacks;
       t_emptyCount := t_emptyCount t;
       hasNonFallbackLead := hasLead |}.

(** [content] is [None] for [null]; the counters do not depend on the
    order in which the sections are visited. *)
Definition validateContent (content : option Content) : Validation :=
  match content with
  | None =>
      {| valid := false; errors := ["Content is null or missing sections"]; warnings := [];
         summary := {| sum_sections := 0; sum_articles := 0; sum_fallbacks := 0;
                       sum_emptyCount := 0 |} |}
  | Some content =>
      let t :=
        fold_left tallyStep
          (map (fun kv : string * SectionContent => kv.2) (map_to_list (sections content)))
          {| t_sections := 0; t_articles := 0; t_fallbacks := 0; t_emptyCount := 0;
             hasNonFallbackLead := false |} in
      let errors1 :=
        if hasNonFallbackLead t then []
        else ["No non-fallback lead article in any section"] in
      let errors2 :=
        match sections content !! "frontPage" with
        | Some fp =>
            if negb (isEmpty fp) && (length (secondary fp) =? 0)%nat
            then ["Front page has no secondary articles"]
            else []
        | None => []
        end in
      let errors := errors1 ++ errors2 in
      {| valid := (length errors =? 0)%nat; errors := errors; warnings := [];
         summary := {| sum_sections := t_sections t; sum_articles := t_articles t;
                       sum_fallbacks := t_fallbacks t; sum_emptyCount := t_emptyCount t |} |}
  end.

End Publish.

(** ** Further vocabulary and fixtures *)

Module Scenarios.

Import Sections Github GithubSpec.

(** [{ ...repo, pushed_at }] *)
Definition withPushedAt (repo : Repo) (pushed : Z) : Repo :=
  {| full_name := full_name repo; name := name repo; description := description repo;
     html_url := html_url repo; stargazers_count := stargazers_count repo;
     forks_count := forks_count repo; open_issues_count := open_issues_count repo;
     language := language repo; topics := topics repo; created_at := created_at repo;
     pushed_at := pushed; _latestRelease := _latestRelease repo;
     _isOSSInsight := _isOSSInsight repo |}.

(** A repository of the unit tests' shape, pushed one day before the
    scoring instant and released five days before it. *)
Definition releasedRepo : Repo :=
  {| full_name := "org/repo"; name := "repo"; description := None;
     html_url := "https://github.com/org/repo";
     stargazers_count := 100; forks_count := 20; open_issues_count := Some 10%Z;
     language := Some "JavaScript"; topics := [];
     created_at := scoringInstant - 2 * 86400000;
     pushed_at := scoringInstant - 86400000;
     _latestRelease :=
       Some {| tag_name := Some "v1.0.0"; release_name := None; body := None;
               published_at := Some (scoringInstant - 5 * 86400000);
               release_created_at := None |};
     _isOSSInsight := false |}.

(** A source whose trend aggregator answers one row. *)
Definition trendSource : Source :=
  {| search := fun _ => Some [];
     trends := Some [ {| repo_name := "hot/row"; row_stars := Some 900; row_forks := Some 90;
                         primary_language := Some "Go"; row_description := None |} ];
     releasesLatest := fun _ => None;
     readme := fun _ => None;
     dateNow := fun _ => scoringInstant |}.

(** The AI section of the run on [demoSource], after the front page has
    claimed [a/x]. *)
Definition demoAiQuery : SectionQuery :=
  {| Sections.topics := ["ai"]; languages := [] |}.

Definition demoAiConfig : SectionConfig := topicSection "ai" "AI" ["ai"] [].

Definition claimedByFrontPage : gset string := {[ "a/x" ]}.

Definition demoAiData : Display.SectionData :=
  Eval vm_compute in
    match fetchAndEnrichSection demoSource demoAiConfig claimedByFrontPage ∅ with
    | (Ok data, _) => data
    | (Err _, _) =>
        {| Display.sd_lead := None; Display.sd_secondary := []; Display.sd_quickHits := [] |}
    end.

Definition demoAiSeen : gset string :=
  Eval vm_compute in
    snd (fetchAndEnrichSection demoSource demoAiConfig claimedByFrontPage ∅).

(** The names a section lists: lead, secondary, quick-hits. *)
Definition listedNames (d : Display.SectionData) : list string :=
  map Display.name (option_list (Display.sd_lead d) ++ Display.sd_secondary d)
  ++ map (fun q => Display.name (Display.qh_repo q)) (Display.sd_quickHits d).

(** The sections [fetchAllSections] fills. *)
Definition fetchedSections : list string :=
  ["frontPage"; "ai"; "robotics"; "cyber"; "systems"; "diy"].

End Scenarios.

Module GenerationScenarios.

Import Display Xai XaiSpec.

(** [a'] is [a] with a well-formed X sentiment attached. *)
Definition annotated (a a' : Article) : Prop :=
  fields a' = fields a /\ repo a' = repo a /\
  exists x, xSentiment a' = Some x /\ In (sentiment x) VALID_SENTIMENTS.

(** [s'] is [s] with every article annotated. *)
Definition annotates (s s' : SectionContent) : Prop :=
  option_Forall2 annotated (lead s) (lead s') /\
  Forall2 annotated (secondary s) (secondary s') /\
  quickHits s' = quickHits s /\ isEmpty s' = isEmpty s /\
  isXPulse s' = isXPulse s /\ pulseItems s' = pulseItems s.

(** The articles a section shows. *)
Definition articlesOf (s : SectionContent) : list Article :=
  option_list (lead s) ++ secondary s.

(** The repositories a section shows, as articles or as quick-hits. *)
Definition shownRepos (s : SectionContent) : list EnrichedRepo :=
  map repo (articlesOf s) ++ map qh_repo (quickHits s).

(** The repositories a section was given. *)
Definition givenRepos (d : SectionData) : list EnrichedRepo :=
  option_list (sd_lead d) ++ sd_secondary d ++ map qh_repo (sd_quickHits d).

(** A backend whose answers never parse. *)
Definition ramblingBackend : Backend := fun _ _ => Ok badResponse.

(** One section's data for the front page. *)
Definition frontPageOnly : gmap string SectionData :=
  {[ "frontPage" := demotionTestData ]}.

End GenerationScenarios.

Module PublishScenarios.

Import Display Xai XaiSpec GenerationScenarios Publish.

(** A section with a lead that is not a fallback. *)
Definition hasRealLead (s : SectionContent) : bool :=
  negb (isEmpty s) &&
  match lead s with
  | Some a => negb (_isFallback a)
  | None => false
  end.

(** The manifest of the history tests: four editions, the third written
    before repository names were recorded. *)
Definition entryOf (d : string) (rs : option (list string)) : ManifestEntry :=
  {| date := d; entry_headline := Some "Edition"; entry_subheadline := None;
     entry_tagline := None; entry_url := None; repos := rs |}.

Definition olderManifest : ManifestFile :=
  Some [ entryOf "2026-02-24" (Some ["a/one"]); entryOf "2026-02-23" (Some ["b/two"]);
         entryOf "2026-02-22" None; entryOf "2026-02-21" (Some ["d/four"]) ].

(** The edition generated from one front-page section. *)
Definition demoEdition : Result Content * list ChatCall :=
  Eval vm_compute in generateAllContent frontPageOnly "tagline" leadRoutingBackend [].

Definition demoContent : Content :=
  Eval vm_compute in
    match demoEdition with
    | (Ok content, _) => content
    | (Err _, _) => {| sections := ∅; tagline := "" |}
    end.

End PublishScenarios.

Module ParseVocabulary.

(** The string holds no line feed and no carriage return. *)
Definition singleLine (s : string) : Prop :=
  Forall (fun a => Js.isDot a = true) (list_ascii_of_string s).

End ParseVocabulary.
(** * Properties *)

(** ** Diversity allocator *)

Module AllocatorProps.

Import Sections Github GithubSpec.

Section Allocator.

Variables totalPromoted cap : Z.

Local Abbreviation step := (walk_step totalPromoted cap).

Lemma countLang_snoc l rs r :
  countLang l (rs ++ [r]) = countLang l rs + (if decide (langOf r = l) then 1 else 0).
Proof.
  unfold countLang. rewrite filter_app, length_app.
  destruct (decide (langOf r = l)) as [E|E].
  - rewrite filter_cons_True by done. simpl. lia.
  - rewrite filter_cons_False by done. simpl. lia.
Qed.

Lemma countLang_cons l x xs :
  countLang l (x :: xs) = (if decide (langOf x = l) then 1 else 0) + countLang l xs.
Proof.
  unfold countLang. destruct (decide (langOf x = l)).
  - rewrite filter_cons_True by done. simpl. lia.
  - rewrite filter_cons_False by done. simpl. lia.
Qed.

(** What [langCount[lang] || 0] holds under the invariant. *)
Lemma counter_read st l :
  walk_inv cap st ->
  Js.numberOr0 (Js.getProperty (langCount st) l) =
    if bool_decide (ordinaryLang l) then Some (countLang l (promoted st)) else None.
Proof.
  intros Hinv. destruct (Hinv l) as (Hc & _ & Hp).
  unfold Js.getProperty, ordinaryLang.
  destruct (decide (l ∈ Js.objectPrototypeNames)) as [Hin|Hout].
  - rewrite (Hp Hin), (bool_decide_eq_true_2 _ Hin), bool_decide_eq_false_2 by auto. done.
  - rewrite (bool_decide_eq_true_2 _ Hout).
    destruct (langCount st !! l) as [n|]; simpl in *.
    + by rewrite Hc.
    + rewrite (bool_decide_eq_false_2 _ Hout). simpl. by rewrite Hc.
Qed.

Lemma walk_step_inv st r : walk_inv cap st -> walk_inv cap (step st r).
Proof.
  intros Hinv l. unfold walk_step.
  destruct (_ <? totalPromoted); [|apply Hinv].
  rewrite (counter_read st (langOf r) Hinv).
  case_bool_decide as Hord; [|apply Hinv].
  destruct (Z.ltb_spec (countLang (langOf r) (promoted st)) cap) as [Hlt|Hge]; [|apply Hinv].
  simpl. rewrite countLang_snoc.
  destruct (Hinv l) as (Hc & Hle & Hp).
  destruct (decide (langOf r = l)) as [<-|Hne].
  - rewrite lookup_insert_eq. simpl. repeat split; [lia..|]. intros Hin. by destruct Hord.
  - rewrite lookup_insert_ne by done. repeat split; [lia..|done].
Qed.

Lemma fold_walk_inv rs : forall st, walk_inv cap st -> walk_inv cap (fold_left step rs st).
Proof.
  induction rs as [|r rs IH]; intros st H; simpl; [done|].
  apply IH, walk_step_inv, H.
Qed.

Lemma walk_init_inv : 0 <= cap -> walk_inv cap walk_init.
Proof. intros H l. simpl. rewrite lookup_empty. unfold countLang. simpl. by repeat split; try lia. Qed.

(** *** The candidates within the cap *)

Lemma withinCap_app e a b :
  withinCap cap e (a ++ b) = withinCap cap e a ++ withinCap cap (e ++ a) b.
Proof.
  revert e. induction a as [|x a IH]; intros e; simpl.
  - by rewrite app_nil_r.
  - rewrite !IH, <- !app_assoc. simpl. by destruct (isWithinCap cap e x).
Qed.

Lemma beyondCap_app e a b :
  beyondCap cap e (a ++ b) = beyondCap cap e a ++ beyondCap cap (e ++ a) b.
Proof.
  revert e. induction a as [|x a IH]; intros e; simpl.
  - by rewrite app_nil_r.
  - rewrite !IH, <- !app_assoc. simpl. by destruct (isWithinCap cap e x).
Qed.

Lemma withinCap_snoc pre r :
  withinCap cap [] (pre ++ [r]) =
    withinCap cap [] pre ++ (if isWithinCap cap pre r then [r] else []).
Proof. rewrite withinCap_app. simpl. by destruct (isWithinCap cap pre r). Qed.

Lemma beyondCap_snoc pre r :
  beyondCap cap [] (pre ++ [r]) =
    beyondCap cap [] pre ++ (if isWithinCap cap pre r then [] else [r]).
Proof. rewrite beyondCap_app. simpl. by destruct (isWithinCap cap pre r). Qed.

Lemma countLang_app l a b : countLang l (a ++ b) = countLang l a + countLang l b.
Proof. unfold countLang. rewrite filter_app, length_app. lia. Qed.

Lemma countLang_nonneg l a : 0 <= countLang l a.
Proof. unfold countLang. lia. Qed.

Lemma countLang_take l n a : countLang l (take n a) <= countLang l a.
Proof.
  rewrite <- (take_drop n a) at 2. rewrite countLang_app.
  pose proof (countLang_nonneg l (drop n a)). lia.
Qed.

(** Of an ordinary language, the candidates within the cap are the first
    [cap] ones; of another language, none is. *)
Lemma countLang_withinCap l pre :
  0 <= cap ->
  countLang l (withinCap cap [] pre) =
    if bool_decide (ordinaryLang l) then Z.min cap (countLang l pre) else 0.
Proof.
  intros Hcap. induction pre as [|r pre IH] using rev_ind.
  - simpl. unfold countLang. simpl. case_bool_decide; lia.
  - rewrite withinCap_snoc, !countLang_app, IH. unfold isWithinCap.
    assert (countLang l [r] = if decide (langOf r = l) then 1 else 0) as Hr.
    { rewrite countLang_cons. unfold countLang. simpl. destruct (decide _); lia. }
    rewrite Hr.
    destruct (decide (langOf r = l)) as [E|Hne].
    + rewrite E. case_bool_decide; simpl; [|unfold countLang; simpl; lia].
      destruct (Z.ltb_spec (countLang l pre) cap);
        [rewrite Hr | unfold countLang at 2; simpl]; lia.
    + assert (countLang l (if bool_decide (ordinaryLang (langOf r))
                                && (countLang (langOf r) pre <? cap) then [r] else []) = 0) as ->.
      { by destruct (_ && _). }
      case_bool_decide; lia.
Qed.

Lemma countLang_withinCap_le l pre : 0 <= cap -> countLang l (withinCap cap [] pre) <= cap.
Proof. intros Hcap. rewrite countLang_withinCap by done. case_bool_decide; lia. Qed.

(** The test of the walk is the test of the specification. *)
Lemma walk_decision pre st r :
  0 <= cap -> walk_inv cap st -> promoted st = withinCap cap [] pre ->
  match Js.numberOr0 (Js.getProperty (langCount st) (langOf r)) with
  | Some count => count <? cap
  | None => false
  end = isWithinCap cap pre r.
Proof.
  intros Hcap Hinv Hpr. rewrite (counter_read st _ Hinv). unfold isWithinCap.
  case_bool_decide as Hord; [|done]. simpl.
  rewrite Hpr, countLang_withinCap, bool_decide_eq_true_2 by done.
  destruct (Z.ltb_spec (countLang (langOf r) pre) cap);
    [apply Z.ltb_lt | apply Z.ltb_ge]; lia.
Qed.

Lemma walk_step_tracks pre st r :
  0 <= cap -> walk_inv cap st ->
  walk_tracks totalPromoted cap pre st ->
  walk_tracks totalPromoted cap (pre ++ [r]) (step st r).
Proof.
  intros Hcap Hinv [Hpr Hov]. unfold walk_tracks.
  rewrite withinCap_snoc, beyondCap_snoc. unfold walk_step.
  destruct (Z.ltb_spec (Z.of_nat (length (promoted st))) totalPromoted) as [Hlt|Hge].
  - assert (promoted st = withinCap cap [] pre) as Hall.
    { rewrite Hpr. apply take_ge. rewrite Hpr, length_take in Hlt. lia. }
    pose proof (walk_decision pre st r Hcap Hinv Hall) as Hdec.
    specialize (Hov Hlt).
    destruct (Js.numberOr0 _) as [count|];
      [destruct (count <? cap)|]; rewrite <- Hdec; cbn [promoted overflow].
    + rewrite Hall. split.
      * symmetry. apply take_ge. rewrite Hall in Hlt. rewrite length_app. simpl. lia.
      * intros _. by rewrite Hov, app_nil_r.
    + rewrite app_nil_r. split; [done|]. intros _. by rewrite Hov.
    + rewrite app_nil_r. split; [done|]. intros _. by rewrite Hov.
  - cbn [promoted overflow]. split; [|lia].
    rewrite Hpr. symmetry. apply take_app_le.
    rewrite Hpr, length_take in Hge. lia.
Qed.

Lemma fold_walk_tracks rs : forall pre st,
  0 <= cap -> walk_inv cap st ->
  walk_tracks totalPromoted cap pre st ->
  walk_tracks totalPromoted cap (pre ++ rs) (fold_left step rs st).
Proof.
  induction rs as [|r rs IH]; intros pre st Hcap Hinv Htr; simpl.
  - by rewrite app_nil_r.
  - replace (pre ++ r :: rs) with ((pre ++ [r]) ++ rs) by (by rewrite <- app_assoc).
    apply IH; [done|by apply walk_step_inv|by apply walk_step_tracks].
Qed.

Lemma walk_init_tracks : walk_tracks totalPromoted cap [] walk_init.
Proof. split; simpl; [by rewrite take_nil|done]. Qed.

(** Backfill tops the promoted list up from the overflow, in order. *)
Lemma backfill_spec ov : forall pr,
  Z.of_nat (length pr) <= totalPromoted ->
  backfill totalPromoted pr ov = take (Z.to_nat totalPromoted) (pr ++ ov).
Proof.
  induction ov as [|r ov IH]; intros pr Hlen; simpl.
  - rewrite app_nil_r. symmetry. apply take_ge. lia.
  - destruct (Z.leb_spec totalPromoted (Z.of_nat (length pr))) as [Hfull|Hfree].
    + rewrite take_app_le by lia. symmetry. apply take_ge. lia.
    + rewrite IH by (rewrite length_app; simpl; lia). by rewrite <- app_assoc.
Qed.

End Allocator.

Lemma slice_from_1 {A} (l : list A) : Js.slice_from l 1 = tail l.
Proof.
  unfold Js.slice_from, Js.slice, Js.clampIndex.
  destruct l as [|a l]; [done|].
  replace (Z.of_nat (length (a :: l)) <? 0) with false by (symmetry; apply Z.ltb_ge; lia).
  change (1 <? 0) with false. cbv iota.
  rewrite Z.min_id.
  replace (Z.to_nat (Z.min 1 (Z.of_nat (length (a :: l))))) with 1%nat by (simpl length; lia).
  replace (Z.to_nat _) with (length l) by (simpl length; lia).
  simpl. apply firstn_all.
Qed.

Lemma head_tail {A} (l : list A) : option_list (head l) ++ tail l = l.
Proof. by destruct l. Qed.

Lemma distinctLangs_pos r rs : 1 <= distinctLangs (r :: rs).
Proof.
  unfold distinctLangs, Js.slice, Js.clampIndex.
  change (0 <? 0) with false. change (15 <? 0) with false. cbv iota.
  replace (Z.to_nat (Z.min 0 _)) with 0%nat by (simpl length; lia).
  set (n := Z.to_nat _). assert (n <> 0%nat) as Hn by (unfold n; simpl length; lia).
  destruct n as [|n]; [done|]. simpl.
  rewrite size_union_alt, size_singleton. lia.
Qed.

Lemma maxPerLang_ge_2 budget rs : 2 <= maxPerLang budget rs.
Proof. unfold maxPerLang. lia. Qed.

(** The promoted candidates of the result, as the allocator computes them. *)
Lemma claimedOf_categorize r rs budget :
  let total := 1 + secondary budget in
  let st := walk total (maxPerLang budget (r :: rs)) (r :: rs) in
  claimedOf (categorizeDiverseForSection (r :: rs) budget) =
    if Z.of_nat (length (promoted st)) <? total
    then backfill total (promoted st) (overflow st)
    else promoted st.
Proof.
  unfold claimedOf, categorizeDiverseForSection. cbv zeta.
  destruct (_ <? _); simpl; rewrite slice_from_1; apply head_tail.
Qed.

(** *** Where the candidates of a result come from *)

Lemma In_firstn {A} (n : nat) (l : list A) (x : A) : In x (firstn n l) -> In x l.
Proof. intros H. rewrite <- (firstn_skipn n l). apply in_or_app. by left. Qed.

Lemma In_skipn {A} (n : nat) (l : list A) (x : A) : In x (skipn n l) -> In x l.
Proof. intros H. rewrite <- (firstn_skipn n l). apply in_or_app. by right. Qed.

Lemma slice_incl {A} (l : list A) (s e : Z) (x : A) : In x (Js.slice l s e) -> In x l.
Proof.
  unfold Js.slice. intros H.
  apply (In_skipn (Z.to_nat (Js.clampIndex (Z.of_nat (length l)) s))).
  by apply In_firstn in H.
Qed.

Lemma walk_step_perm total cap st r :
  promoted (walk_step total cap st r) ++ overflow (walk_step total cap st r)
  ≡ₚ promoted st ++ overflow st ++ [r].
Proof.
  unfold walk_step.
  destruct (_ <? total); [destruct (Js.numberOr0 _); [destruct (_ <? cap)|]|];
    cbn [promoted overflow]; [|done..].
  rewrite <- !app_assoc. apply Permutation_app_head, Permutation_app_comm.
Qed.

Lemma fold_walk_perm total cap rs : forall st,
  promoted (fold_left (walk_step total cap) rs st)
    ++ overflow (fold_left (walk_step total cap) rs st)
  ≡ₚ promoted st ++ overflow st ++ rs.
Proof.
  induction rs as [|r rs IH]; intros st; simpl.
  - by rewrite app_nil_r.
  - rewrite IH, app_assoc, walk_step_perm. by rewrite <- !app_assoc.
Qed.

Lemma walk_perm total cap rs :
  promoted (walk total cap rs) ++ overflow (walk total cap rs) ≡ₚ rs.
Proof. unfold walk. by rewrite fold_walk_perm. Qed.

Lemma backfill_take total ov : forall pr,
  exists k, backfill total pr ov = pr ++ firstn k ov.
Proof.
  induction ov as [|r ov IH]; intros pr; simpl.
  - exists 0%nat. by rewrite app_nil_r.
  - destruct (_ <=? _).
    + exists 0%nat. by rewrite app_nil_r.
    + destruct (IH (pr ++ [r])) as [k ->]. exists (S k). by rewrite <- app_assoc.
Qed.

(** Promoted candidates and quick-hits are candidates of the input, and,
    on an input without duplicate names, no quick-hit bears the name of a
    promoted candidate. *)
Lemma categorize_partition (rs : list ScoredRepo) (budget : Budget) :
  NoDup (map (fun r : ScoredRepo => full_name r) rs) ->
  let c := categorizeDiverseForSection rs budget in
  (forall x, In x (claimedOf c) -> In x rs) /\
  (forall x, In x (cat_quickHits c) -> In x rs) /\
  (forall x y, In x (claimedOf c) -> In y (cat_quickHits c) -> full_name x <> full_name y).
Proof.
  intros Hnd. destruct rs as [|r rs]; [by repeat split|].
  cbv zeta. rewrite claimedOf_categorize. unfold categorizeDiverseForSection. cbv zeta.
  set (total := 1 + secondary budget).
  set (st := walk total (maxPerLang budget (r :: rs)) (r :: rs)).
  pose proof (walk_perm total (maxPerLang budget (r :: rs)) (r :: rs)) as Hperm. fold st in Hperm.
  assert (forall x, In x (promoted st) -> In x (r :: rs)) as Hpr.
  { intros x Hx. apply (Permutation_in _ Hperm), in_or_app. by left. }
  assert (forall x, In x (overflow st) -> In x (r :: rs)) as Hov.
  { intros x Hx. apply (Permutation_in _ Hperm), in_or_app. by right. }
  destruct (Z.of_nat (length (promoted st)) <? total); cbn [cat_quickHits].
  - destruct (backfill_take total (overflow st) (promoted st)) as [k Hk]. rewrite Hk.
    split; [|split].
    + intros x Hx. apply in_app_or in Hx as [Hx|Hx]; [by apply Hpr|].
      apply Hov. by apply In_firstn in Hx.
    + intros x Hx. apply slice_incl in Hx. apply list_elem_of_In in Hx.
      apply list_elem_of_filter in Hx as [_ Hx]. by apply list_elem_of_In.
    + intros x y Hx Hy Heq. apply slice_incl in Hy. apply list_elem_of_In in Hy.
      apply list_elem_of_filter in Hy as [Hy _]. apply Hy.
      apply elem_of_list_to_set, list_elem_of_In. rewrite <- Heq.
      by apply (in_map (fun r : ScoredRepo => full_name r)).
  - split; [|split].
    + done.
    + intros x Hx. apply slice_incl in Hx. by apply Hov.
    + intros x y Hx Hy Heq. apply slice_incl in Hy.
      assert (NoDup (map (fun r : ScoredRepo => full_name r) (promoted st ++ overflow st))) as Hnd'.
      { by rewrite Hperm. }
      rewrite map_app in Hnd'. apply NoDup_app in Hnd' as (_ & Hdisj & _).
      apply (Hdisj (full_name x)).
      * apply list_elem_of_In. by apply (in_map (fun r : ScoredRepo => full_name r)).
      * rewrite Heq. apply list_elem_of_In. by apply (in_map (fun r : ScoredRepo => full_name r)).
Qed.

Lemma no_lead_no_secondary (rs : list ScoredRepo) (budget : Budget) :
  lead (categorizeDiverseForSection rs budget) = None ->
  cat_secondary (categorizeDiverseForSection rs budget) = [].
Proof.
  unfold categorizeDiverseForSection. destruct rs as [|r rs]; [done|]. cbv zeta.
  destruct (if _ <? _ then _ else _) as [pr ov]. cbn [lead cat_secondary].
  rewrite slice_from_1. by destruct pr.
Qed.

(** *** The promoted list *)

Lemma head_take {A} (n : nat) (l : list A) : (0 < n)%nat -> head (take n l) = head l.
Proof. intros Hn. destruct n; [lia|]. by destruct l. Qed.

(** The promoted candidates are the first [totalPromoted] ones of the
    candidates within the cap followed by the others: the capped walk
    takes the former, backfill continues with the latter. *)
Lemma claimed_first_slots (rs : list ScoredRepo) (budget : Budget) :
  claimedOf (categorizeDiverseForSection rs budget) =
    take (Z.to_nat (1 + secondary budget))
         (withinCap (maxPerLang budget rs) [] rs ++ beyondCap (maxPerLang budget rs) [] rs).
Proof.
  destruct rs as [|r rs]; [simpl; by rewrite take_nil|].
  rewrite claimedOf_categorize. cbv zeta.
  pose proof (maxPerLang_ge_2 budget (r :: rs)) as Hcap.
  set (cap := maxPerLang budget (r :: rs)) in *.
  set (total := 1 + secondary budget).
  destruct (fold_walk_tracks total cap (r :: rs) [] walk_init ltac:(lia)
              (walk_init_inv cap ltac:(lia)) (walk_init_tracks total cap)) as [Hpr Hov].
  rewrite app_nil_l in Hpr, Hov. fold (walk total cap (r :: rs)) in Hpr, Hov.
  destruct (Z.ltb_spec (Z.of_nat (length (promoted (walk total cap (r :: rs))))) total)
    as [Hlt|Hge].
  - rewrite backfill_spec by lia. rewrite (Hov Hlt). do 2 f_equal.
    rewrite Hpr. apply take_ge. rewrite Hpr, length_take in Hlt. lia.
  - rewrite Hpr. symmetry. apply take_app_le. rewrite Hpr, length_take in Hge. lia.
Qed.

Lemma lead_head_claimed (rs : list ScoredRepo) (budget : Budget) :
  lead (categorizeDiverseForSection rs budget)
  = head (claimedOf (categorizeDiverseForSection rs budget)).
Proof.
  unfold claimedOf. destruct (lead _) eqn:E; [done|].
  by rewrite (no_lead_no_secondary _ _ E).
Qed.

Lemma lead_first_slot (rs : list ScoredRepo) (budget : Budget) :
  0 <= secondary budget ->
  lead (categorizeDiverseForSection rs budget) =
    head (withinCap (maxPerLang budget rs) [] rs ++ beyondCap (maxPerLang budget rs) [] rs).
Proof.
  intros Hsec. rewrite lead_head_claimed, claimed_first_slots. apply head_take. lia.
Qed.

Lemma countLang_other l (e : list ScoredRepo) :
  Forall (fun y => ¬ ordinaryLang (langOf y)) e -> ordinaryLang l -> countLang l e = 0.
Proof.
  intros He Hl. induction e as [|y e IH]; [done|].
  apply Forall_cons in He as [Hy He]. rewrite countLang_cons, IH by done.
  destruct (decide (langOf y = l)) as [E|]; [|done]. rewrite E in Hy. by destruct Hy.
Qed.

(** The first candidate within the cap is the first one of an ordinary
    language; when there is none, no candidate is within the cap. *)
Lemma first_within_cap (cap : Z) (rs : list ScoredRepo) : forall e,
  1 <= cap ->
  Forall (fun y => ¬ ordinaryLang (langOf y)) e ->
  (exists l1 x l2, rs = l1 ++ x :: l2 /\
      Forall (fun y => ¬ ordinaryLang (langOf y)) l1 /\
      ordinaryLang (langOf x) /\ head (withinCap cap e rs) = Some x)
  \/ (Forall (fun y => ¬ ordinaryLang (langOf y)) rs /\
      withinCap cap e rs = [] /\ beyondCap cap e rs = rs).
Proof.
  induction rs as [|r rs IH]; intros e Hcap He.
  - right. by repeat split.
  - simpl. unfold isWithinCap.
    destruct (decide (ordinaryLang (langOf r))) as [Hord|Hord].
    + left. exists [], r, rs. split; [done|]. split; [done|]. split; [done|].
      rewrite (bool_decide_eq_true_2 _ Hord), (countLang_other _ _ He Hord).
      by replace (0 <? cap) with true by (symmetry; apply Z.ltb_lt; lia).
    + rewrite (bool_decide_eq_false_2 _ Hord). simpl.
      destruct (IH (e ++ [r]) Hcap) as [(l1 & x & l2 & -> & Hl1 & Hx & Hhd)|(Hall & Hw & Hb)].
      * apply Forall_app. split; [done|]. by constructor.
      * left. exists (r :: l1), x, l2. split; [done|]. split; [by constructor|]. by split.
      * right. rewrite Hw, Hb. split; [by constructor|]. by split.
Qed.

(** Every candidate ahead of the lead bears a language named like a
    member of [Object.prototype]; a lead of such a language is the first
    candidate of a list that holds no candidate of an ordinary language. *)
Lemma lead_position (rs : list ScoredRepo) (budget : Budget) (x : ScoredRepo) :
  0 <= secondary budget ->
  lead (categorizeDiverseForSection rs budget) = Some x ->
  exists l1 l2, rs = l1 ++ x :: l2 /\
    Forall (fun y => ¬ ordinaryLang (langOf y)) l1 /\
    (¬ ordinaryLang (langOf x) ->
     l1 = [] /\ Forall (fun y => ¬ ordinaryLang (langOf y)) rs).
Proof.
  intros Hsec. rewrite lead_first_slot by done.
  pose proof (maxPerLang_ge_2 budget rs) as Hcap.
  destruct (first_within_cap (maxPerLang budget rs) rs [] ltac:(lia) ltac:(constructor))
    as [(l1 & y & l2 & Hrs & Hl1 & Hy & Hhd)|(Hall & -> & ->)].
  - destruct (withinCap _ [] rs) as [|w ws]; [done|]. simpl in *.
    injection Hhd as ->. intros [= <-]. exists l1, l2.
    split; [done|]. split; [done|]. intros Hno. by destruct Hno.
  - simpl. destruct rs as [|r rs]; [done|]. intros [= <-]. exists [], rs.
    split; [done|]. split; [constructor|]. by intros _.
Qed.

Lemma lead_None_iff (rs : list ScoredRepo) (budget : Budget) :
  0 <= secondary budget ->
  lead (categorizeDiverseForSection rs budget) = None <-> rs = [].
Proof.
  intros Hsec. split; [|by intros ->].
  rewrite lead_first_slot by done.
  pose proof (maxPerLang_ge_2 budget rs) as Hcap.
  destruct (first_within_cap (maxPerLang budget rs) rs [] ltac:(lia) ltac:(constructor))
    as [(l1 & y & l2 & Hrs & Hl1 & _ & Hhd)|(_ & -> & ->)].
  - by destruct (withinCap _ [] rs).
  - simpl. by destruct rs.
Qed.

Ltac solve_descending :=
  unfold scoreDescending;
  repeat match goal with
         | |- StronglySorted _ _ => constructor
         | |- Forall _ _ => constructor
         end;
  unfold makeScoredRepo; cbn [_score]; lra.

Ltac solve_ordinary :=
  repeat match goal with
         | |- Forall _ _ => constructor
         end;
  apply (bool_decide_unpack _); vm_compute; exact I.

Lemma rust_heavy_pool_descending : scoreDescending rust_heavy_pool.
Proof. solve_descending. Qed.

Lemma end_to_end_pool_descending : scoreDescending end_to_end_pool.
Proof. solve_descending. Qed.





Example end_to_end_promoted :
  map (fun r : ScoredRepo => full_name r)
      (claimedOf (categorizeDiverseForSection end_to_end_pool front_budget))
  = ["a/x"; "a/y"; "b/p"; "b/q"; "c/r"; "c/s"; "d/t"].
Proof. vm_compute. reflexivity. Qed.

Example end_to_end_quickHits :
  map (fun r : ScoredRepo => full_name r)
      (cat_quickHits (categorizeDiverseForSection end_to_end_pool front_budget))
  = ["a/z"].
Proof. vm_compute. reflexivity. Qed.

(** A candidate of a language named [constructor] is overflowed by the
    walk although its language has no promoted candidate: six slots are
    filled, and backfill takes the third Rust candidate. *)
Example prototype_named_language_is_overflowed :
  map (fun r : ScoredRepo => full_name r)
      (claimedOf (categorizeDiverseForSection prototype_mixed_pool front_budget))
  = ["r/1"; "r/2"; "g/1"; "g/2"; "p/1"; "j/1"; "r/3"] /\
  map (fun r : ScoredRepo => full_name r)
      (cat_quickHits (categorizeDiverseForSection prototype_mixed_pool front_budget))
  = ["c/1"].
Proof. split; vm_compute; reflexivity. Qed.

(** C2, as stated, fails: with six Rust candidates ahead of three
    candidates of other languages, the cap is 2 but backfill promotes four
    Rust candidates into the seven slots. *)
Lemma diversity_cap_counterexample :
  scoreDescending rust_heavy_pool /\
  4 <= spannedLangs rust_heavy_pool /\
  1 + secondary front_budget = 7 /\
  Z.max 2 (Js.ceil_div 7 (distinctLangs rust_heavy_pool)) = 2 /\
  countLang "Rust" (claimedOf (categorizeDiverseForSection rust_heavy_pool front_budget)) = 4.
Proof.
  split; [apply rust_heavy_pool_descending|].
  repeat split; vm_compute; congruence.
Qed.

Lemma beyondCap_In (cap : Z) (x : ScoredRepo) (rs : list ScoredRepo) : forall e,
  In x (beyondCap cap e rs) -> In x rs.
Proof.
  induction rs as [|r rs IH]; intros e; simpl; [done|].
  destruct (isWithinCap cap e r); simpl; [right; eauto|].
  intros [->|H]; [by left|right; eauto].
Qed.

(** A candidate of an ordinary language beyond the cap has at least [cap]
    candidates of its language ahead of it. *)
Lemma beyondCap_count (cap : Z) (x : ScoredRepo) (rs : list ScoredRepo) : forall e,
  In x (beyondCap cap e rs) -> ordinaryLang (langOf x) ->
  cap <= countLang (langOf x) (e ++ rs).
Proof.
  induction rs as [|r rs IH]; intros e; simpl; [done|].
  replace (e ++ r :: rs) with ((e ++ [r]) ++ rs) by (by rewrite <- app_assoc).
  unfold isWithinCap at 1.
  destruct (bool_decide (ordinaryLang (langOf r)) && (countLang (langOf r) e <? cap)) eqn:Ew;
    simpl; [by apply IH|].
  intros [->|Hin] Hord; [|by apply IH].
  rewrite (bool_decide_eq_true_2 _ Hord) in Ew. simpl in Ew. apply Z.ltb_ge in Ew.
  rewrite <- app_assoc, countLang_app.
  pose proof (countLang_nonneg (langOf x) ([x] ++ rs)). lia.
Qed.

(** Among candidates of ordinary languages, the cap holds exactly when
    backfill promotes nobody: when the capped walk fills every slot, or
    overflows nobody. *)
Lemma cap_iff_no_backfill (rs : list ScoredRepo) (budget : Budget) :
  0 <= secondary budget ->
  Forall (fun r => ordinaryLang (langOf r)) rs ->
  (forall l, countLang l (claimedOf (categorizeDiverseForSection rs budget))
             <= maxPerLang budget rs) <->
  (1 + secondary budget <= Z.of_nat (length (withinCap (maxPerLang budget rs) [] rs))
   \/ beyondCap (maxPerLang budget rs) [] rs = []).
Proof.
  intros Hsec Hord. rewrite claimed_first_slots.
  pose proof (maxPerLang_ge_2 budget rs) as Hcap.
  set (cap := maxPerLang budget rs) in *. set (total := 1 + secondary budget).
  split.
  - intros Hle.
    destruct (Z.le_gt_cases total (Z.of_nat (length (withinCap cap [] rs)))) as [|Hshort];
      [by left|].
    destruct (beyondCap cap [] rs) as [|x b] eqn:Eb; [by right|]. exfalso.
    assert (In x (beyondCap cap [] rs)) as Hx by (rewrite Eb; by left).
    assert (ordinaryLang (langOf x)) as Hox.
    { apply (proj1 (Forall_forall _ _) Hord), list_elem_of_In, (beyondCap_In cap x rs []), Hx. }
    pose proof (beyondCap_count cap x rs [] Hx Hox) as Hcount. rewrite app_nil_l in Hcount.
    specialize (Hle (langOf x)).
    rewrite take_app_ge in Hle by lia.
    destruct (Z.to_nat total - length (withinCap cap [] rs))%nat as [|k] eqn:Ek; [lia|].
    rewrite firstn_cons, countLang_app, countLang_cons, decide_True in Hle by done.
    rewrite countLang_withinCap, (bool_decide_eq_true_2 _ Hox) in Hle by lia.
    pose proof (countLang_nonneg (langOf x) (take k b)). lia.
  - intros Hno l.
    assert (take (Z.to_nat total) (withinCap cap [] rs ++ beyondCap cap [] rs)
            = take (Z.to_nat total) (withinCap cap [] rs)) as ->.
    { destruct Hno as [Hfull| ->]; [|by rewrite app_nil_r]. apply take_app_le. lia. }
    etransitivity; [apply countLang_take|]. apply countLang_withinCap_le. lia.
Qed.

(** C2 (amended): for every score-descending input spanning at least four
    languages, none of them named like a member of [Object.prototype], and
    every budget with seven promoted slots, no language has more than
    [max(2, ceil(7 / distinctLanguageCountInTop15))] promoted candidates
    exactly when backfill promotes nobody: when at least seven candidates
    are among the first [maxPerLanguage] of their language (the capped walk
    fills the slots) or every candidate is (nothing overflows). In every
    case the promoted candidates are the first seven of: the candidates
    among the first [maxPerLanguage] of their language, then the other
    candidates, each group in input order; so backfill refills the free
    slots from the overflow in score order and ignores the cap. *)
Theorem diversity_cap_holds_exactly_without_backfill
    (rs : list ScoredRepo) (budget : Budget) :
  scoreDescending rs ->
  4 <= spannedLangs rs ->
  1 + secondary budget = 7 ->
  Forall (fun r => ordinaryLang (langOf r)) rs ->
  let cap := Z.max 2 (Js.ceil_div 7 (distinctLangs rs)) in
  let claimed := claimedOf (categorizeDiverseForSection rs budget) in
  ((forall l, countLang l claimed <= cap) <->
   (7 <= Z.of_nat (length (withinCap cap [] rs)) \/ beyondCap cap [] rs = []))
  /\ claimed = take 7 (withinCap cap [] rs ++ beyondCap cap [] rs).
Proof.
  intros _ _ Htotal Hord. cbv zeta.
  pose proof (cap_iff_no_backfill rs budget ltac:(lia) Hord) as Hiff.
  pose proof (claimed_first_slots rs budget) as Hclaimed.
  unfold maxPerLang in Hiff, Hclaimed. rewrite Htotal in Hiff, Hclaimed.
  by split.
Qed.

Lemma diversity_cap_holds_exactly_without_backfill_witness :
  countLang "Rust" (claimedOf (categorizeDiverseForSection end_to_end_pool front_budget))
    <= Z.max 2 (Js.ceil_div 7 (distinctLangs end_to_end_pool)).
Proof.
  apply (proj1 (diversity_cap_holds_exactly_without_backfill end_to_end_pool front_budget
                  end_to_end_pool_descending ltac:(vm_compute; congruence) eq_refl
                  ltac:(solve_ordinary))).
  left. vm_compute. congruence.
Defined.

End AllocatorProps.
(** ** Scoring *)

Module ScoreProps.

Import Github GithubSpec.

Local Open Scope R_scope.

Lemma log1p_nonneg (x : R) : 0 <= x -> 0 <= log1p x.
Proof.
  intros Hx. unfold log1p. rewrite <- ln_1.
  destruct (Req_dec x 0) as [-> | Hne].
  - rewrite Rplus_0_r. lra.
  - left. apply ln_increasing; lra.
Qed.

Lemma ageDays_pos (ageMs : Z) : 1 <= Rmax (IZR ageMs / 86400000) 1.
Proof. apply Rmax_r. Qed.

(** The velocity term lies in [[0, 1]] for a non-negative star count. *)
Lemma velocity_bounds (stars ageMs : Z) :
  (0 <= stars)%Z ->
  0 <= Rmin (log1p (IZR stars / Rmax (IZR ageMs / 86400000) 1) / 5) 1 <= 1.
Proof.
  intros Hs. split; [|apply Rmin_r].
  apply Rmin_glb; [|lra].
  pose proof (ageDays_pos ageMs) as Hage.
  assert (0 <= IZR stars / Rmax (IZR ageMs / 86400000) 1) as Hv.
  { apply Rmult_le_pos; [apply IZR_le in Hs; lra|].
    left. apply Rinv_0_lt_compat. lra. }
  pose proof (log1p_nonneg _ Hv). lra.
Qed.

(** The engagement term lies in [[0, 1]] for non-negative counts. *)
Lemma engagement_bounds (stars forks issues : Z) :
  (0 <= forks)%Z -> (0 <= issues)%Z ->
  0 <= (if (0 <? stars)%Z then Rmin ((IZR forks + IZR issues * 0.3) / IZR stars) 1 else 0) <= 1.
Proof.
  intros Hf Hi. destruct (Z.ltb_spec 0 stars) as [Hs|Hs]; [|lra].
  split; [|apply Rmin_r]. apply Rmin_glb; [|lra].
  apply IZR_le in Hf, Hi. apply IZR_lt in Hs.
  apply Rmult_le_pos; [lra|]. left. apply Rinv_0_lt_compat. lra.
Qed.

(** The recency and release terms are floored at 0 ... *)
Lemma decay_nonneg (x : R) : 0 <= Rmax 0 x.
Proof. apply Rmax_l. Qed.

(** ... and stay below 1 only for an age that is not negative. *)
Lemma decay_le_1 (age span : R) : 0 <= age -> 0 < span -> Rmax 0 (1 - age / span) <= 1.
Proof.
  intros Ha Hs. apply Rmax_lub; [lra|].
  assert (0 <= age / span) by (apply Rmult_le_pos; [lra | left; apply Rinv_0_lt_compat; lra]).
  lra.
Qed.

(** The score never drops below [-0.5]: every term is at least 0 and the
    penalty is applied once, with no floor after it. *)
Lemma score_lower_bound (dateNow : Z) (repo : Repo) (options : ScoreOptions) :
  (0 <= stargazers_count repo)%Z ->
  (0 <= forks_count repo)%Z ->
  (0 <= default 0%Z (open_issues_count repo))%Z ->
  -0.5 <= scoreRepo dateNow repo options.
Proof.
  intros Hs Hf Hi. unfold scoreRepo.
  fold (effectiveNow dateNow options). set (now := effectiveNow dateNow options).
  pose proof (velocity_bounds (stargazers_count repo) (now - created_at repo) Hs) as Hv.
  pose proof (engagement_bounds (stargazers_count repo) _ _ Hf Hi) as He.
  pose proof (decay_nonneg (1 - IZR (now - pushed_at repo) / (7 * 86400000))) as Hr.
  assert (0 <= match _latestRelease repo with
               | Some rel =>
                   match relDate rel with
                   | Some relDateMs => Rmax 0 (1 - IZR (now - relDateMs) / 86400000 / 30)
                   | None => 0.5
                   end
               | None => 0
               end) as Hrel.
  { destruct (_latestRelease repo) as [rel|]; [|lra].
    destruct (relDate rel); [apply decay_nonneg | lra]. }
  cbv zeta.
  destruct (_isOSSInsight repo); case_decide; lra.
Qed.

(** With no timestamp later than the scoring instant, the score stays in
    [[-0.5, 0.85]]; 0.85 is the sum of the four weights. *)
Lemma score_bounds_for_past_timestamps (dateNow : Z) (repo : Repo) (options : ScoreOptions) :
  (0 <= stargazers_count repo)%Z ->
  (0 <= forks_count repo)%Z ->
  (0 <= default 0%Z (open_issues_count repo))%Z ->
  (pushed_at repo <= effectiveNow dateNow options)%Z ->
  (forall rel d, _latestRelease repo = Some rel -> relDate rel = Some d ->
                 (d <= effectiveNow dateNow options)%Z) ->
  -0.5 <= scoreRepo dateNow repo options <= 0.85.
Proof.
  intros Hs Hf Hi Hp Hrl. split; [by apply score_lower_bound|].
  unfold scoreRepo.
  fold (effectiveNow dateNow options). set (now := effectiveNow dateNow options) in *.
  pose proof (velocity_bounds (stargazers_count repo) (now - created_at repo) Hs) as Hv.
  pose proof (engagement_bounds (stargazers_count repo) _ _ Hf Hi) as He.
  pose proof (decay_nonneg (1 - IZR (now - pushed_at repo) / (7 * 86400000))) as Hr0.
  assert (Rmax 0 (1 - IZR (now - pushed_at repo) / (7 * 86400000)) <= 1) as Hr.
  { apply decay_le_1; [|lra]. apply IZR_le. lia. }
  assert (0 <= match _latestRelease repo with
               | Some rel =>
                   match relDate rel with
                   | Some relDateMs => Rmax 0 (1 - IZR (now - relDateMs) / 86400000 / 30)
                   | None => 0.5
                   end
               | None => 0
               end <= 1) as Hrel.
  { destruct (_latestRelease repo) as [rel|] eqn:Erel; [|lra].
    destruct (relDate rel) as [d|] eqn:Ed; [|lra].
    split; [apply decay_nonneg|].
    specialize (Hrl rel d eq_refl Ed).
    apply decay_le_1; [|lra].
    assert (0 <= IZR (now - d)) by (apply IZR_le; lia).
    apply Rmult_le_pos; [lra | left; apply Rinv_0_lt_compat; lra]. }
  cbv zeta.
  destruct (_isOSSInsight repo); case_decide; lra.
Qed.

(** The lower bound is reached: an aggregator row without stars, penalised
    for a recent appearance, scores exactly [-0.5]. *)
Example score_reaches_minus_half :
  scoreRepo 0
    {| full_name := "org/row"; name := "row"; description := None; html_url := "";
       stargazers_count := 0; forks_count := 0; open_issues_count := None;
       language := None; topics := []; created_at := scoringInstant;
       pushed_at := scoringInstant; _latestRelease := None; _isOSSInsight := true |}
    {| recentRepoNames := Some {[ "org/row" ]}; now := Some scoringInstant |}
  = -0.5.
Proof.
  unfold scoreRepo. cbn -[Rmax Rmin log1p IZR Z.sub].
  rewrite decide_True by set_solver. lra.
Qed.

(** C8, as stated, fails for a scoring instant that lies before the
    last push: the recency term is floored at 0 but has no cap, so for a
    push dated 30 days after [now] it is worth [37/7] and the score
    exceeds 1.3. *)
Lemma score_exceeds_one_when_pushed_after_now :
  (0 <= stargazers_count pushedInFuture <= 10000000)%Z /\
  (0 <= forks_count pushedInFuture)%Z /\
  (0 <= default 0%Z (open_issues_count pushedInFuture))%Z /\
  1.3 < scoreRepo 0 pushedInFuture {| recentRepoNames := None; now := Some scoringInstant |}.
Proof.
  repeat split; try (simpl; lia).
  unfold scoreRepo. cbn -[Rmax Rmin log1p IZR Z.sub Z.add Z.mul].
  pose proof (velocity_bounds 100 (scoringInstant - (scoringInstant - 2 * 86400000)) ltac:(lia)) as Hv.
  assert (0 <= Rmin ((IZR 20 + IZR 10 * 0.3) / IZR 100) 1) as He.
  { apply Rmin_glb; lra. }
  assert (1 - IZR (scoringInstant - (scoringInstant + 30 * 86400000)) / (7 * 86400000)
          <= Rmax 0 (1 - IZR (scoringInstant - (scoringInstant + 30 * 86400000)) / (7 * 86400000)))
    as Hr by apply Rmax_r.
  replace (scoringInstant - (scoringInstant + 30 * 86400000))%Z with (-2592000000)%Z in * by (unfold scoringInstant; lia).
  case_decide; [set_solver|].
  lra.
Qed.

(** A candidate without stars and without a release whose velocity and
    recency are worth nothing scores 0 before the penalty. *)
Lemma score_of_idle_candidate (dateNow : Z) (repo : Repo) (options : ScoreOptions) :
  stargazers_count repo = 0%Z ->
  _latestRelease repo = None ->
  _isOSSInsight repo = true
    \/ (pushed_at repo + 7 * 86400000 <= effectiveNow dateNow options)%Z ->
  scoreRepo dateNow repo options =
    if decide (full_name repo ∈ default (∅ : gset string) (recentRepoNames options))
    then -0.5 else 0.
Proof.
  intros Hs Hrel Hidle. unfold scoreRepo.
  fold (effectiveNow dateNow options). set (now := effectiveNow dateNow options) in *.
  rewrite Hs, Hrel. cbv zeta. change (0 <? 0)%Z with false. cbv iota.
  assert (Rmin (log1p (0 / Rmax (IZR (now - created_at repo) / 86400000) 1) / 5) 1 = 0) as ->.
  { unfold log1p. replace (0 / _) with 0 by (unfold Rdiv; lra).
    rewrite Rplus_0_r, ln_1. replace (0 / 5) with 0 by lra. apply Rmin_left. lra. }
  destruct Hidle as [-> | Hold].
  - case_decide; lra.
  - assert (Rmax 0 (1 - IZR (now - pushed_at repo) / (7 * 86400000)) = 0) as ->.
    { apply Rmax_left.
      assert (7 * 86400000 <= IZR (now - pushed_at repo)) as Hage.
      { replace (7 * 86400000) with (IZR (7 * 86400000)) by (rewrite mult_IZR; lra).
        apply IZR_le. lia. }
      assert (1 <= IZR (now - pushed_at repo) / (7 * 86400000)); [|lra].
      apply (Rmult_le_reg_r (7 * 86400000)); [lra|]. field_simplify; lra. }
    destruct (_isOSSInsight repo); case_decide; lra.
Qed.

(** C8 (amended): for every candidate with non-negative stars (up to
    10,000,000), forks and open issues, every scoring instant [now] and
    every history set, the score is at least -0.5, and it is at most 1.0
    when neither the last push nor the release is dated after [now]. No
    floor is applied after the history penalty: a candidate in the history
    set that has no stars, no release and no credit for velocity and
    recency (an aggregator row, or a last push seven days old) scores
    exactly -0.5. *)
Theorem score_range_for_past_timestamps
    (dateNow : Z) (repo : Repo) (options : ScoreOptions) :
  (0 <= stargazers_count repo <= 10000000)%Z ->
  (0 <= forks_count repo)%Z ->
  (0 <= default 0%Z (open_issues_count repo))%Z ->
  -0.5 <= scoreRepo dateNow repo options
  /\ ((pushed_at repo <= effectiveNow dateNow options)%Z ->
      (forall rel d, _latestRelease repo = Some rel -> relDate rel = Some d ->
                     (d <= effectiveNow dateNow options)%Z) ->
      scoreRepo dateNow repo options <= 1.0)
  /\ (stargazers_count repo = 0%Z ->
      _latestRelease repo = None ->
      _isOSSInsight repo = true
        \/ (pushed_at repo + 7 * 86400000 <= effectiveNow dateNow options)%Z ->
      full_name repo ∈ default (∅ : gset string) (recentRepoNames options) ->
      scoreRepo dateNow repo options = -0.5).
Proof.
  intros [Hs _] Hf Hi. split; [by apply score_lower_bound|]. split.
  - intros Hp Hrl.
    pose proof (score_bounds_for_past_timestamps dateNow repo options Hs Hf Hi Hp Hrl). lra.
  - intros Hs0 Hrel Hidle Hin.
    rewrite (score_of_idle_candidate dateNow repo options Hs0 Hrel Hidle).
    by rewrite decide_True.
Qed.

Lemma score_range_for_past_timestamps_witness :
  -0.5 <= scoreRepo 0 Scenarios.releasedRepo
            {| recentRepoNames := None; now := Some scoringInstant |} <= 1.0.
Proof.
  destruct (score_range_for_past_timestamps 0 Scenarios.releasedRepo
              {| recentRepoNames := None; now := Some scoringInstant |}
              ltac:(simpl; lia) ltac:(simpl; lia) ltac:(simpl; lia)) as (Hlow & Hup & _).
  split; [exact Hlow|]. apply Hup.
  - vm_compute. discriminate.
  - intros rel d [= <-] [= <-]. vm_compute. discriminate.
Defined.

(** C9: scoring a candidate with a history set that contains its full name
    yields exactly 0.5 less than scoring it with the empty set, all other
    inputs equal; hence the penalised score is at most the plain score
    minus 0.4. *)
Theorem history_penalty (dateNow : Z) (c : Repo) (now : option Z) (names : gset string) :
  full_name c ∈ names ->
  scoreRepo dateNow c {| recentRepoNames := Some names; now := now |}
    = scoreRepo dateNow c {| recentRepoNames := Some ∅; now := now |} - 0.5
  /\ scoreRepo dateNow c {| recentRepoNames := Some names; now := now |}
    <= scoreRepo dateNow c {| recentRepoNames := Some ∅; now := now |} - 0.4.
Proof.
  intros Hin. unfold scoreRepo. cbn [Github.recentRepoNames Github.now default].
  cbv zeta. unfold Datatypes.id.
  rewrite (decide_True _ _ Hin).
  rewrite decide_False by set_solver.
  split; lra.
Qed.

Lemma history_penalty_witness :
  scoreRepo 0 pushedInFuture {| recentRepoNames := Some {[ "org/repo" ]}; now := Some scoringInstant |}
    = scoreRepo 0 pushedInFuture {| recentRepoNames := Some ∅; now := Some scoringInstant |} - 0.5
  /\ scoreRepo 0 pushedInFuture {| recentRepoNames := Some {[ "org/repo" ]}; now := Some scoringInstant |}
    <= scoreRepo 0 pushedInFuture {| recentRepoNames := Some ∅; now := Some scoringInstant |} - 0.4.
Proof. apply history_penalty. simpl. set_solver. Defined.

End ScoreProps.

(** ** Article parsing *)

Module ParseProps.

Import Display Xai XaiSpec.

(** Unit tests of [parseArticle], replayed on the embedding. *)

Example parses_all_structured_markers :
  parseArticle (lines ["HEADLINE: Big New Framework"; "SUBHEADLINE: A subtitle here";
                       "BODY: First paragraph of the body.";
                       "BUILDERS_TAKE: This is useful for devs."]) None
  = {| headline := "Big New Framework"; subheadline := "A subtitle here";
       body := "First paragraph of the body."; buildersTake := "This is useful for devs.";
       _isFallback := false |}.
Proof. vm_compute. reflexivity. Qed.

Example uses_last_occurrence_of_body_marker :
  parseArticle (lines ["HEADLINE: The Headline"; "BODY: Wrong body"; "BODY: Correct body";
                       "BUILDERS_TAKE: The take"]) None
  = {| headline := "The Headline"; subheadline := ""; body := "Correct body";
       buildersTake := "The take"; _isFallback := false |}.
Proof. vm_compute. reflexivity. Qed.

Example fallback_when_markers_missing :
  parseArticle "No markers here"
    (Some {| name := "cool/project"; shortName := "project"; description := "A cool project";
             url := ""; stars := 0; language := ""; topics := []; enrichment := None |})
  = {| headline := "project: A cool project"; subheadline := "A cool project";
       body := "A cool project"; buildersTake := ""; _isFallback := true |}.
Proof. vm_compute. reflexivity. Qed.

Example untitled_without_repo : headline (parseArticle "" None) = "Untitled".
Proof. vm_compute. reflexivity. Qed.

(** Unit tests of [parseQuickHits]. *)

Example matches_numbered_lines_to_repos :
  map summary (parseQuickHits (lines ["1. Fast build tool"; "2. Cool linter"])
                 [bare "a/build" "fallback A"; bare "b/lint" "fallback B"])
  = [Some "Fast build tool"; Some "Cool linter"].
Proof. vm_compute. reflexivity. Qed.

Example description_when_line_is_missing :
  map summary (parseQuickHits "1. Only first line" [bare "a/x" "desc A"; bare "b/y" "desc B"])
  = [Some "Only first line"; Some "desc B"].
Proof. vm_compute. reflexivity. Qed.

(** The regression example: [HEADLINE:] inside [SUBHEADLINE:] is not taken
    for a headline marker. *)
Example subheadline_is_not_a_headline :
  headline (parseArticle (lines ["SUBHEADLINE: foo"; "HEADLINE: bar"]) None) = "bar".
Proof. vm_compute. reflexivity. Qed.

(** C6: on a text that carries every marker twice, headline, subheadline
    and body come from the last occurrence of their markers, but
    [buildersTake] starts at the FIRST [BUILDERS_TAKE:] marker: the lazy
    group of [/BUILDERS_TAKE:\s*([\s\S]*?)$/] runs to the end of the input
    from the leftmost match, which leaves [matchAll] a single match. *)
Theorem builders_take_is_taken_from_first_marker :
  parseArticle echoedFormat None
  = {| headline := "Rust Rewrite Lands";
       subheadline := "The port is done";
       body := "The project moved to Rust.";
       buildersTake :=
         lines ["[2-3 sentences of practical advice]";
                "HEADLINE: Rust Rewrite Lands";
                "SUBHEADLINE: The port is done";
                "BODY: The project moved to Rust.";
                "BUILDERS_TAKE: Try the new release."];
       _isFallback := false |}
  /\ buildersTake (parseArticle echoedFormat None) <> "Try the new release.".
Proof. split; vm_compute; [reflexivity | discriminate]. Qed.

(** *** The [BUILDERS_TAKE:] expression matches once *)

Lemma rep_greedy_some {X : Type} (c : ascii -> bool) : forall s prev
      (k : option ascii -> string -> option X) x,
    Js.rep_greedy c prev s k = Some x -> exists p' s', k p' s' = Some x.
Proof.
    induction s as [|a s IH]; intros prev k x H; simpl in H; [eauto|].
    destruct (c a); [|eauto].
    destruct (Js.rep_greedy c (Some a) s k) eqn:E; [|eauto].
    injection H as <-. by eapply IH.
Qed.

Lemma rep_lazy_some {X : Type} (c : ascii -> bool) : forall s prev
      (k : option ascii -> string -> option X) x,
    Js.rep_lazy c prev s k = Some x -> exists p' s', k p' s' = Some x.
Proof.
    induction s as [|a s IH]; intros prev k x H; simpl in H.
    - destruct (k prev "") eqn:E; [injection H as <-; eauto | discriminate].
    - destruct (k prev (String a s)) eqn:E; [injection H as <-; eauto|].
      destruct (c a); [by eapply IH | discriminate].
Qed.

(** A match of [/BUILDERS_TAKE:\s*([\s\S]*?)$/] always runs to the end of
      the input. *)
Lemma exec_buildersTake_full prev s len cap :
    Js.exec buildersTakeRe prev s = Some (len, cap) -> len = String.length s.
Proof.
    unfold Js.exec, buildersTakeRe. cbn [Js.run].
    destruct (Js.lit "BUILDERS_TAKE:" prev s) as [[p1 s1]|]; [|discriminate].
    intros H. apply rep_greedy_some in H as (p2 & s2 & H).
    apply rep_lazy_some in H as (p3 & s3 & H).
    destruct s3; [|discriminate]. injection H as <- _. simpl. lia.
Qed.

Lemma matchAllFrom_skip_all (re : Js.Re) :
    (forall prev, Js.exec re prev "" = None) ->
    forall s prev idx, Js.matchAllFrom re prev s idx (String.length s) = [].
Proof.
    intros Hend. induction s as [|a s IH]; intros prev idx; simpl.
    - by rewrite Hend.
    - apply IH.
Qed.

(** Hence [matchAll] finds at most one match, the leftmost one: the "last"
      match of the expression is its first. *)
Lemma buildersTake_single_match_from : forall s prev idx,
    (length (Js.matchAllFrom buildersTakeRe prev s idx 0) <= 1)%nat.
Proof.
    induction s as [|a s IH]; intros prev idx; simpl.
    - destruct (Js.exec buildersTakeRe prev "") as [[len cap]|]; simpl; lia.
    - destruct (Js.exec buildersTakeRe prev (String a s)) as [[len cap]|] eqn:E.
      + apply exec_buildersTake_full in E. subst len. simpl Nat.pred.
        rewrite matchAllFrom_skip_all by done. simpl. lia.
      + apply IH.
Qed.

Lemma buildersTake_single_match (text : string) :
    (length (Js.matchAll text buildersTakeRe) <= 1)%nat.
Proof. apply buildersTake_single_match_from. Qed.

(** *** Texts without markers *)

Lemma occurs_here (marker s : string) :
  occurs marker s = false -> String.prefix marker s = false.
Proof. destruct s; simpl; intros H; apply orb_false_elim in H; tauto. Qed.

Lemma occurs_tail (marker : string) (a : ascii) (s : string) :
  occurs marker (String a s) = false -> occurs marker s = false.
Proof. cbn [occurs]. intros H. apply orb_false_elim in H. tauto. Qed.

Lemma lit_no_prefix {X : Type} (l : string) : forall prev s,
  String.prefix l s = false -> Js.lit l prev s = None.
Proof.
  induction l as [|a l IH]; intros prev s H.
  - destruct s; discriminate.
  - destruct s as [|b s]; [reflexivity|]. simpl in *.
    destruct (ascii_dec a b) as [->|Hne].
    + rewrite Ascii.eqb_refl. by apply IH.
    + apply Ascii.eqb_neq in Hne. by rewrite Hne.
Qed.

(** An expression that starts with a literal cannot match where the
    literal is not a prefix. *)
Lemma exec_lit_first (l : string) (r : Js.Re) prev s :
  String.prefix l s = false -> Js.exec (Js.Seq (Js.Lit l) r) prev s = None.
Proof.
  intros H. unfold Js.exec. cbn [Js.run]. by rewrite (lit_no_prefix (X:=nat * option string)).
Qed.

Lemma exec_lit_only (l : string) prev s :
  String.prefix l s = false -> Js.exec (Js.Lit l) prev s = None.
Proof.
  intros H. unfold Js.exec. cbn [Js.run]. by rewrite (lit_no_prefix (X:=nat * option string)).
Qed.

Lemma matchAllFrom_nil (re : Js.Re) : forall s prev idx skip,
  noMatchIn re s -> Js.matchAllFrom re prev s idx skip = [].
Proof.
  induction s as [|a s IH]; intros prev idx skip [Hhere Hrest].
  - destruct skip; simpl; [by rewrite Hhere | done].
  - destruct skip; simpl; [rewrite Hhere|]; by apply IH.
Qed.

Lemma matchAll_nil (re : Js.Re) (text : string) :
  noMatchIn re text -> Js.matchAll text re = [].
Proof. apply matchAllFrom_nil. Qed.

Lemma noMatch_lit_first (l : string) (r : Js.Re) : forall s,
  occurs l s = false -> noMatchIn (Js.Seq (Js.Lit l) r) s.
Proof.
  induction s as [|a s IH]; intros H; split; try done.
  - intros prev. by apply exec_lit_first, occurs_here.
  - intros prev. by apply exec_lit_first, occurs_here.
  - by apply IH, (occurs_tail l a).
Qed.

Lemma noMatch_lit_only (l : string) : forall s,
  occurs l s = false -> noMatchIn (Js.Lit l) s.
Proof.
  induction s as [|a s IH]; intros H; split; try done.
  - intros prev. by apply exec_lit_only, occurs_here.
  - intros prev. by apply exec_lit_only, occurs_here.
  - by apply IH, (occurs_tail l a).
Qed.

Lemma headlineTail_none {X} prev s cap (k : option ascii -> string -> option string -> option X) :
  String.prefix "HEADLINE:" s = false -> Js.run headlineTail prev s cap k = None.
Proof.
  intros H. unfold headlineTail. cbn [Js.run].
  rewrite (lit_no_prefix (X:=X)) by done. by destruct (xorb _ _).
Qed.

Lemma exec_headline_none prev s :
  occurs "HEADLINE:" s = false -> Js.exec headlineRe prev s = None.
Proof.
  intros H. unfold Js.exec, headlineRe. fold headlineTail.
  cbn [Js.run].
  assert (forall p c, Js.run headlineTail p s c
            (fun _ s' cap => Some ((String.length s - String.length s')%nat, cap)) = None) as Hs
    by (intros; by apply headlineTail_none, occurs_here).
  destruct prev as [p0|]; rewrite ?Hs.
  - destruct s as [|a s']; [done|]. unfold Js.nl. cbn [Js.lit].
    destruct (Ascii.eqb "010" a); [|done].
    apply headlineTail_none, occurs_here. by apply (occurs_tail _ a).
  - destruct s as [|a s']; [done|]. unfold Js.nl. cbn [Js.lit].
    destruct (Ascii.eqb "010" a); [|done].
    apply headlineTail_none, occurs_here. by apply (occurs_tail _ a).
Qed.

Lemma noMatch_headline : forall s,
  occurs "HEADLINE:" s = false -> noMatchIn headlineRe s.
Proof.
  induction s as [|a s IH]; intros H; split; try done.
  - intros prev. by apply exec_headline_none.
  - intros prev. by apply exec_headline_none.
  - by apply IH, (occurs_tail _ a).
Qed.

Lemma prefix_cons (a : ascii) (l s : string) :
  String.prefix (String a l) s = true ->
  exists s', s = String a s' /\ String.prefix l s' = true.
Proof.
  destruct s as [|b s]; simpl; [discriminate|].
  destruct (ascii_dec a b) as [->|]; [eauto | discriminate].
Qed.

(** A text without [HEADLINE:] has no [SUBHEADLINE:] either. *)
Lemma occurs_subheadline : forall s,
  occurs "HEADLINE:" s = false -> occurs "SUBHEADLINE:" s = false.
Proof.
  induction s as [|a s IH]; intros H; [done|].
  cbn [occurs]. apply orb_false_intro; [|by apply IH, (occurs_tail _ a)].
  destruct (String.prefix "SUBHEADLINE:" (String a s)) eqn:E; [|done].
  exfalso.
  apply prefix_cons in E as (s1 & E1 & E).
  apply prefix_cons in E as (s2 & -> & E).
  apply prefix_cons in E as (s3 & -> & E).
  rewrite E1 in H.
  apply occurs_tail, occurs_tail, occurs_tail, occurs_here in H. congruence.
Qed.

(** A text without markers yields no field at all: parsing it gives the
    complete fallback. *)
Lemma parse_markerFree (text : string) (repo : EnrichedRepo) :
  markerFree text ->
  parseArticle text (Some repo) = fields (fallbackArticle repo).
Proof.
  intros (Hh & Hb & Ht). unfold parseArticle, lastMatch, parseBody.
  rewrite (matchAll_nil headlineRe) by by apply noMatch_headline.
  rewrite (matchAll_nil subheadlineRe) by by apply noMatch_lit_first, occurs_subheadline.
  rewrite (matchAll_nil buildersTakeRe) by by apply noMatch_lit_first.
  rewrite (matchAll_nil bodyMarkerRe) by by apply noMatch_lit_first.
  reflexivity.
Qed.

Lemma badResponse_markerFree : markerFree badResponse.
Proof. repeat split; vm_compute; reflexivity. Qed.

(** [parseArticle("", repo)], the article of the [catch] branch. *)
Lemma parse_empty (repo : EnrichedRepo) :
  parseArticle "" (Some repo) = fields (fallbackArticle repo).
Proof. reflexivity. Qed.

End ParseProps.

(** ** Article generation and section post-processing *)

Module GenerationProps.

Import Display Xai XaiSpec ParseProps.

(** *** Reasoning about backend computations *)

Lemma bind_Ok {A B} (m : M A) (k : A -> M B) backend log b log' :
  bind m k backend log = (Ok b, log') ->
  exists a log1, m backend log = (Ok a, log1) /\ k a backend log1 = (Ok b, log').
Proof.
  unfold bind. destruct (m backend log) as [[a|e] log1]; [eauto | discriminate].
Qed.

Lemma bind_run {A B} (m : M A) (k : A -> M B) backend log a log1 :
  m backend log = (Ok a, log1) -> bind m k backend log = k a backend log1.
Proof. unfold bind. by intros ->. Qed.

(** *** [generateArticleWithRetry] *)

Section OneArticle.

Variables (backend : Backend) (log : list ChatCall).
Variables (model : string) (promptFn : EnrichedRepo -> Prompt).
Variables (repo : EnrichedRepo) (maxTokens : Z).

Local Abbreviation call := (articleCall model promptFn repo maxTokens).
Local Abbreviation outcome :=
  (generateArticleWithRetry model promptFn repo maxTokens backend log).

(** The three ways a generation ends. *)
Lemma generateArticleWithRetry_cases :
  (exists raw, backend log call = Ok raw /\
             _isFallback (parseArticle raw (Some repo)) = false /\
             outcome = (Ok (withRepo (parseArticle raw (Some repo)) repo), log ++ [call]))
  \/ (exists raw retryRaw, backend log call = Ok raw /\ failsToParse raw repo /\
             backend (log ++ [call]) call = Ok retryRaw /\
             outcome = (Ok (withRepo (parseArticle retryRaw (Some repo)) repo),
                        log ++ [call; call]))
  \/ (exists log', outcome = (Ok (fallbackArticle repo), log') /\
      ((exists e, backend log call = Err e /\ log' = log ++ [call])
       \/ (exists raw e, backend log call = Ok raw /\ failsToParse raw repo /\
             backend (log ++ [call]) call = Err e /\ log' = log ++ [call; call]))).
Proof.
  unfold generateArticleWithRetry, try_catch, bind, chat, ret, failsToParse.
  fold call.
  destruct (backend log call) as [raw|e] eqn:E1.
  - cbn [withRepo fields].
    destruct (_isFallback (parseArticle raw (Some repo))) eqn:Ef.
    + cbn [negb]. destruct (backend (log ++ [call]) call) as [retryRaw|e] eqn:E2.
      * right; left. exists raw, retryRaw. by rewrite <- app_assoc.
      * right; right. eexists. split; [reflexivity|].
        right. exists raw, e. by rewrite <- app_assoc.
    + left. exists raw. done.
  - right; right. eexists. split; [reflexivity|]. left. eauto.
Qed.

(** Generation never fails outward, and the repo is attached. *)
Lemma generateArticleWithRetry_total :
  exists a log', outcome = (Ok a, log') /\ Xai.repo a = repo.
Proof.
  destruct generateArticleWithRetry_cases
    as [(raw & _ & _ & ->) | [(raw & retryRaw & _ & _ & _ & ->) | (log' & -> & _)]]; eauto.
Qed.

End OneArticle.

(** C3, as stated, fails: a text with a headline but no body fails to parse
    on both attempts, the backend is called twice and the article is
    flagged as a fallback, yet its headline is the parsed one and not the
    fallback headline. *)
Lemma fallback_shape_counterexample :
  failsToParse "HEADLINE: Only A Headline" (makeEnrichedRepo "broken") /\
  exists a log',
    generateArticleWithRetry SMALL_MODEL leadArticlePrompt (makeEnrichedRepo "broken") 1200
      headlineOnlyBackend [] = (Ok a, log') /\
    length log' = 2%nat /\
    _isFallback a = true /\
    headline a = "Only A Headline" /\
    headline a <> fallbackHeadline (makeEnrichedRepo "broken").
Proof.
  split; [vm_compute; reflexivity|].
  eexists _, _. split; [vm_compute; reflexivity|].
  repeat split; vm_compute; discriminate.
Qed.

(** C3 (amended): [generateArticleWithRetry] never fails outward and always
    returns an article with the repo attached. If the backend's answers to
    the initial attempt and to the retry both fail to parse, the backend is
    called exactly twice and the article has [_isFallback = true]; each of
    headline and body is the value parsed from the retry text when there is
    one and its fallback otherwise (["{shortName}: {description}"] cut to 80
    characters, the description), [buildersTake] is what the retry text
    gives for it ([""] when nothing); when the retry text holds none of the
    markers, the article is exactly the fallback article. The fallback
    article is also what is returned when the backend raises, on the
    initial attempt or on the retry. *)
Theorem generateArticle_never_fails_and_falls_back
    (backend : Backend) (log : list ChatCall) (model : string)
    (promptFn : EnrichedRepo -> Prompt) (repo : EnrichedRepo) (maxTokens : Z) :
  let call := articleCall model promptFn repo maxTokens in
  let outcome := generateArticleWithRetry model promptFn repo maxTokens backend log in
  (exists a, fst outcome = Ok a /\ Xai.repo a = repo) /\
  (forall t1 t2,
     backend log call = Ok t1 -> failsToParse t1 repo ->
     backend (log ++ [call]) call = Ok t2 -> failsToParse t2 repo ->
     snd outcome = log ++ [call; call] /\
     exists a, fst outcome = Ok a /\ _isFallback a = true /\ Xai.repo a = repo /\
       headline a = default (fallbackHeadline repo) (parsedHeadline t2) /\
       body a = default (description repo) (parsedBody t2) /\
       buildersTake a = default "" (parsedBuildersTake t2) /\
       (markerFree t2 -> a = fallbackArticle repo)) /\
  (forall e, backend log call = Err e ->
     outcome = (Ok (fallbackArticle repo), log ++ [call])) /\
  (forall t1 e,
     backend log call = Ok t1 -> failsToParse t1 repo ->
     backend (log ++ [call]) call = Err e ->
     outcome = (Ok (fallbackArticle repo), log ++ [call; call])).
Proof.
  intros call outcome. subst call outcome.
  pose proof (generateArticleWithRetry_cases backend log model promptFn repo maxTokens) as Hc.
  unfold failsToParse in *.
  split; [|split; [|split]].
  - destruct (generateArticleWithRetry_total backend log model promptFn repo maxTokens)
      as (a & log' & -> & Ha). eauto.
  - intros t1 t2 E1 F1 E2 F2.
    destruct Hc as [(raw & E & Hf & _)
                   | [(raw & retryRaw & E1' & _ & E2' & ->)
                     | (l' & _ & [(e & E & _) | (raw & e & _ & _ & E2' & _)])]];
      try congruence.
    assert (retryRaw = t2) as -> by congruence.
    split; [done|].
    eexists. split; [reflexivity|]. split; [done|]. split; [done|].
    split; [|split; [|split]].
    + unfold parseArticle, parsedHeadline. cbn [headline withRepo fields].
      by destruct (groupTrim (lastMatch t2 headlineRe)).
    + unfold parseArticle, parsedBody. cbn [body withRepo fields].
      by destruct (parseBody t2 ≫= Js.truthy).
    + done.
    + intros Hm. unfold withRepo, fallbackArticle. by rewrite parse_markerFree.
  - intros e E.
    destruct Hc as [(raw & E' & _)
                   | [(raw & retryRaw & E' & _)
                     | (l' & -> & [(e' & _ & ->) | (raw & e' & E' & _)])]];
      congruence.
  - intros t1 e E1 Hf E2.
    destruct Hc as [(raw & E' & Hf' & _)
                   | [(raw & retryRaw & E' & _ & E2' & _)
                     | (l' & -> & [(e' & E' & _) | (raw & e' & E' & _ & _ & ->)])]];
      congruence.
Qed.

(** The retry scenario of the tests: an unstructured answer, twice. *)
Lemma generateArticle_never_fails_and_falls_back_witness :
  snd (generateArticleWithRetry SMALL_MODEL leadArticlePrompt (makeEnrichedRepo "broken") 1200
         (fun _ _ => Ok badResponse) [])
  = [articleCall SMALL_MODEL leadArticlePrompt (makeEnrichedRepo "broken") 1200;
     articleCall SMALL_MODEL leadArticlePrompt (makeEnrichedRepo "broken") 1200]
  /\ exists a,
       fst (generateArticleWithRetry SMALL_MODEL leadArticlePrompt (makeEnrichedRepo "broken") 1200
              (fun _ _ => Ok badResponse) []) = Ok a
       /\ _isFallback a = true
       /\ Xai.repo a = makeEnrichedRepo "broken"
       /\ headline a = default (fallbackHeadline (makeEnrichedRepo "broken")) (parsedHeadline badResponse)
       /\ body a = default (description (makeEnrichedRepo "broken")) (parsedBody badResponse)
       /\ buildersTake a = default "" (parsedBuildersTake badResponse)
       /\ (markerFree badResponse -> a = fallbackArticle (makeEnrichedRepo "broken")).
Proof.
  apply (proj1 (proj2 (generateArticle_never_fails_and_falls_back
                         (fun _ _ => Ok badResponse) [] SMALL_MODEL leadArticlePrompt
                         (makeEnrichedRepo "broken") 1200)) badResponse badResponse).
  - reflexivity.
  - vm_compute. reflexivity.
  - reflexivity.
  - vm_compute. reflexivity.
Defined.



(** *** [generateSectionContent] *)

Lemma demote_fold (l : list Article) : forall g d,
  fold_left demoteStep l (g, d)
  = (g ++ List.filter isGood l, d ++ map demote (List.filter isFallback l)).
Proof.
  induction l as [|a l IH]; intros g d; simpl.
  - by rewrite !app_nil_r.
  - unfold isGood at 1, isFallback at 1. destruct (_isFallback a) eqn:E; simpl; rewrite IH.
    + by rewrite <- app_assoc.
    + by rewrite <- app_assoc.
Qed.

Lemma firstGood_head (l : list Article) : firstGood l = head (List.filter isGood l).
Proof.
  unfold firstGood. induction l as [|a l IH]; simpl; [done|].
  by destruct (isGood a).
Qed.

Lemma secondaryGeneration_total backend (repos : list EnrichedRepo) : forall log,
  exists allSecondary log',
    secondaryGeneration repos backend log = (Ok allSecondary, log')
    /\ map Xai.repo allSecondary = repos.
Proof.
  unfold secondaryGeneration.
  induction repos as [|r repos IH]; intros log; simpl.
  - by exists [], log.
  - destruct (generateArticleWithRetry_total backend log SMALL_MODEL secondaryArticlePrompt r 800)
      as (a & log1 & E & Ha).
    destruct (IH log1) as (rest & log2 & E2 & Hrest).
    exists (a :: rest), log2. split.
    + rewrite (bind_run _ _ _ _ _ _ E), (bind_run _ _ _ _ _ _ E2). done.
    + simpl. congruence.
Qed.

(** [generateSectionContent] gathers the generated articles and the
    annotated quick-hits, then post-processes them as specified. *)
Lemma generateSectionContent_refines sectionData config backend log leadRepo :
  sd_lead sectionData = Some leadRepo ->
  exists leadArticle allSecondary log1 log2,
    leadGeneration config leadRepo backend log = (Ok leadArticle, log1) /\
    secondaryGeneration (sd_secondary sectionData) backend log1 = (Ok allSecondary, log2) /\
    Xai.repo leadArticle = leadRepo /\
    map Xai.repo allSecondary = sd_secondary sectionData /\
    generateSectionContent sectionData config backend log
    = match annotatedQuickHits (sd_quickHits sectionData) backend log2 with
      | (Ok annotated, log3) => (Ok (postProcess leadArticle allSecondary annotated), log3)
      | (Err e, log3) => (Err e, log3)
      end.
Proof.
  intros Hlead.
  destruct (generateArticleWithRetry_total backend log
              (if String.eqb (Sections.id config) "frontPage" then BIG_MODEL else SMALL_MODEL)
              leadArticlePrompt leadRepo
              (if String.eqb (Sections.id config) "frontPage" then 2000 else 1200))
    as (leadArticle & log1 & E1 & Hrepo).
  destruct (secondaryGeneration_total backend (sd_secondary sectionData) log1)
    as (allSecondary & log2 & E2 & Hrepos).
  exists leadArticle, allSecondary, log1, log2.
  split; [exact E1|]. split; [exact E2|]. split; [exact Hrepo|]. split; [exact Hrepos|].
  unfold generateSectionContent. rewrite Hlead.
  rewrite (bind_run _ _ _ _ _ _ E1).
  unfold secondaryGeneration in E2. rewrite (bind_run _ _ _ _ _ _ E2).
  assert (forall annotated log3,
            (let '(goodSecondary, demotedToQuickHits) :=
               fold_left demoteStep allSecondary ([], []) in
             let '(finalLead, goodSecondary0, demotedToQuickHits0) :=
               match goodSecondary with
               | first :: others =>
                   if _isFallback leadArticle
                   then (first, others, demotedToQuickHits ++ [demote leadArticle])
                   else (leadArticle, goodSecondary, demotedToQuickHits)
               | [] => (leadArticle, goodSecondary, demotedToQuickHits)
               end in
             ret {| lead := Some finalLead; secondary := goodSecondary0;
                    quickHits := annotated ++ demotedToQuickHits0;
                    isEmpty := false; isXPulse := false; pulseItems := [] |}) backend log3
            = (Ok (postProcess leadArticle allSecondary annotated), log3)) as Hpost.
  { intros annotated log3. rewrite demote_fold. simpl app.
    unfold postProcess. rewrite firstGood_head.
    destruct (List.filter isGood allSecondary) as [|first others]; simpl.
    - by destruct (_isFallback leadArticle).
    - destruct (_isFallback leadArticle); simpl; [|done].
      reflexivity. }
  unfold annotatedQuickHits.
  destruct (sd_quickHits sectionData) as [|q qs].
  - unfold bind at 1. cbn [ret]. apply Hpost.
  - unfold bind.
    destruct (chat SMALL_MODEL (quickHitPrompt (q :: qs)) 600 false backend log2) as [[raw|e] log3];
      [|done].
    cbn [ret]. apply Hpost.
Qed.

(** A section with a lead is returned whenever the quick-hit summary call
    succeeds or there is no quick-hit to summarise. *)
Lemma generateSectionContent_returns sectionData config backend log leadRepo :
  sd_lead sectionData = Some leadRepo ->
  (sd_quickHits sectionData = [] \/
   forall log2, exists raw,
     backend log2 {| model := SMALL_MODEL; prompt := quickHitPrompt (sd_quickHits sectionData);
                     maxTokens := 600; tools := false |} = Ok raw) ->
  exists content log', generateSectionContent sectionData config backend log = (Ok content, log').
Proof.
  intros Hlead Hq.
  destruct (generateSectionContent_refines sectionData config backend log leadRepo Hlead)
    as (la & als & log1 & log2 & _ & _ & _ & _ & ->).
  unfold annotatedQuickHits.
  destruct (sd_quickHits sectionData) as [|q qs] eqn:Eq.
  - cbn. eauto.
  - destruct Hq as [|Hq]; [done|]. destruct (Hq log2) as (raw & Hraw).
    unfold bind, chat, ret. rewrite Hraw. eauto.
Qed.

(** C4: when the generated lead article is a fallback, the returned lead is
    the first non-fallback secondary article, if there is one (so its
    headline is that secondary's), and the original lead's repo is among the
    returned quick-hits, summarised by its description; if there is none,
    the fallback lead stays the lead. *)
Theorem promotion_of_first_good_secondary
    sectionData config backend log content log' leadRepo :
  generateSectionContent sectionData config backend log = (Ok content, log') ->
  sd_lead sectionData = Some leadRepo ->
  exists leadArticle allSecondary log1 log2,
    leadGeneration config leadRepo backend log = (Ok leadArticle, log1) /\
    secondaryGeneration (sd_secondary sectionData) backend log1 = (Ok allSecondary, log2) /\
    (_isFallback leadArticle = true ->
       match firstGood allSecondary with
       | Some good =>
           lead content = Some good /\
           (headline <$> (fields <$> lead content)) = Some (headline good) /\
           {| qh_repo := leadRepo; summary := Some (description leadRepo) |} ∈ quickHits content
       | None => lead content = Some leadArticle
       end).
Proof.
  intros Hrun Hlead.
  destruct (generateSectionContent_refines sectionData config backend log leadRepo Hlead)
    as (la & als & log1 & log2 & E1 & E2 & Hrepo & _ & Hgen).
  exists la, als, log1, log2. split; [done|]. split; [done|].
  intros Hfb. rewrite Hgen in Hrun.
  destruct (annotatedQuickHits (sd_quickHits sectionData) backend log2) as [[annotated|e] log3];
    [|discriminate].
  injection Hrun as <- <-. unfold postProcess. rewrite Hfb.
  destruct (firstGood als) as [good|]; cbn [lead quickHits]; [|done].
  split; [done|]. split; [done|].
  rewrite <- Hrepo. change (demote la ∈ annotated ++ map demote (List.filter isFallback als) ++ [demote la]).
  rewrite !elem_of_app. right; right. apply list_elem_of_singleton. done.
Qed.

Lemma promotion_of_first_good_secondary_witness :
  exists content log',
    generateSectionContent promotionData aiConfig routingBackend [] = (Ok content, log') /\
    exists leadArticle allSecondary log1 log2,
      leadGeneration aiConfig (makeEnrichedRepo "bad-lead") routingBackend [] = (Ok leadArticle, log1) /\
      secondaryGeneration (sd_secondary promotionData) routingBackend log1
        = (Ok allSecondary, log2) /\
      (_isFallback leadArticle = true ->
         match firstGood allSecondary with
         | Some good =>
             lead content = Some good /\
             (headline <$> (fields <$> lead content)) = Some (headline good) /\
             {| qh_repo := makeEnrichedRepo "bad-lead";
                summary := Some (description (makeEnrichedRepo "bad-lead")) |} ∈ quickHits content
         | None => lead content = Some leadArticle
         end).
Proof.
  eexists _, _. split; [cbv; reflexivity|].
  eapply promotion_of_first_good_secondary; [cbv; reflexivity | reflexivity].
Defined.

Example promotion_test :
  exists content log',
    generateSectionContent promotionData aiConfig routingBackend [] = (Ok content, log') /\
    (headline <$> (fields <$> lead content)) = Some "Promoted Secondary" /\
    secondary content = [] /\
    map (fun q => name (qh_repo q)) (quickHits content) = ["org/bad-lead"].
Proof. eexists _, _. split; [cbv; reflexivity|]. repeat split. Qed.


(** C5, as stated, fails in its scenario: of two generated secondaries
    exactly one parses, but the lead is a fallback too, so the successful
    secondary is promoted to lead and the returned secondary list is empty. *)
Lemma demotion_length_counterexample :
  exists content log' leadArticle allSecondary log1 log2,
    generateSectionContent demotionData aiConfig routingBackend [] = (Ok content, log') /\
    leadGeneration aiConfig (makeEnrichedRepo "bad-lead") routingBackend [] = (Ok leadArticle, log1) /\
    secondaryGeneration (sd_secondary demotionData) routingBackend log1
      = (Ok allSecondary, log2) /\
    map isGood allSecondary = [true; false] /\
    length (secondary content) = 0%nat /\
    length (secondary content) <> 1%nat.
Proof.
  eexists _, _, _, _, _, _.
  split; [cbv; reflexivity|]. split; [cbv; reflexivity|]. split; [cbv; reflexivity|].
  repeat split. discriminate.
Qed.

Lemma filter_isGood_spec (l : list Article) :
  Forall (fun a : Article => _isFallback a = false) (List.filter isGood l).
Proof.
  apply List.Forall_forall. intros a Ha. apply List.filter_In in Ha as [_ Ha].
  unfold isGood in Ha. by destruct (_isFallback a).
Qed.

Lemma Forall_tail {A} (P : A -> Prop) (l : list A) : Forall P l -> Forall P (tail l).
Proof. destruct l; [done|]. by inversion 1. Qed.

(** C5 (amended): the returned secondary list never holds a fallback
    article; every generated secondary that is a fallback is left out of it
    and appended to the quick-hits, summarised by its repo's description;
    when the lead article is not a fallback, the returned secondary list is
    the list of the non-fallback secondaries, so of two generated secondaries
    of which one parses, one remains and the failed one's repo is among the
    quick-hits. *)
Theorem demotion_of_fallback_secondaries
    sectionData config backend log content log' :
  generateSectionContent sectionData config backend log = (Ok content, log') ->
  Forall (fun a : Article => _isFallback a = false) (secondary content) /\
  forall leadRepo, sd_lead sectionData = Some leadRepo ->
    exists leadArticle allSecondary log1 log2,
      leadGeneration config leadRepo backend log = (Ok leadArticle, log1) /\
      secondaryGeneration (sd_secondary sectionData) backend log1 = (Ok allSecondary, log2) /\
      (forall a, In a allSecondary -> _isFallback a = true ->
         ~ In a (secondary content) /\
         In {| qh_repo := Xai.repo a; summary := Some (description (Xai.repo a)) |}
            (quickHits content)) /\
      (exists annotated,
         annotatedQuickHits (sd_quickHits sectionData) backend log2 = (Ok annotated, log') /\
         quickHits content
         = annotated ++ map demote (List.filter isFallback allSecondary)
           ++ (if _isFallback leadArticle
               then match firstGood allSecondary with
                    | Some _ => [demote leadArticle]
                    | None => []
                    end
               else [])) /\
      (_isFallback leadArticle = false ->
         secondary content = List.filter isGood allSecondary) /\
      (forall good bad,
         _isFallback leadArticle = false ->
         allSecondary = [good; bad] \/ allSecondary = [bad; good] ->
         _isFallback good = false -> _isFallback bad = true ->
         length (secondary content) = 1%nat /\
         In {| qh_repo := Xai.repo bad; summary := Some (description (Xai.repo bad)) |}
            (quickHits content)).
Proof.
  intros Hrun.
  destruct (sd_lead sectionData) as [leadRepo|] eqn:Hlead.
  2:{ unfold generateSectionContent in Hrun. rewrite Hlead in Hrun.
      injection Hrun as <- <-. split; [constructor | discriminate]. }
  destruct (generateSectionContent_refines sectionData config backend log leadRepo Hlead)
    as (la & als & log1 & log2 & E1 & E2 & Hrepo & _ & Hgen).
  rewrite Hgen in Hrun.
  destruct (annotatedQuickHits (sd_quickHits sectionData) backend log2)
    as [[annotated|e] log3] eqn:Eq; [|discriminate].
  injection Hrun as <- <-.
  assert (Forall (fun a : Article => _isFallback a = false)
                 (secondary (postProcess la als annotated))) as Hgood.
  { unfold postProcess.
    destruct (if _isFallback la then firstGood als else None); cbn [secondary].
    - apply Forall_tail, filter_isGood_spec.
    - apply filter_isGood_spec. }
  assert (forall a, In a als -> _isFallback a = true ->
            In (demote a) (quickHits (postProcess la als annotated))) as Hdem.
  { intros a Ha Hfb. unfold postProcess.
    assert (In (demote a) (map demote (List.filter isFallback als))) as Hin.
    { apply in_map, List.filter_In. by split. }
    destruct (if _isFallback la then firstGood als else None); cbn [quickHits];
      apply in_or_app; right; [apply in_or_app; left|]; exact Hin. }
  split; [exact Hgood|].
  intros ? [= <-].
  exists la, als, log1, log2. split; [done|]. split; [done|].
  split; [|split; [|split]].
  - intros a Ha Hfb. split; [|by apply Hdem].
    intros Hin. rewrite List.Forall_forall in Hgood. specialize (Hgood a Hin). congruence.
  - exists annotated. split; [done|]. unfold postProcess.
    destruct (_isFallback la); [destruct (firstGood als)|]; cbn [quickHits];
      by rewrite ?app_nil_r.
  - intros Hla. unfold postProcess. by rewrite Hla.
  - intros good bad Hla Hals Hg Hb. split.
    + unfold postProcess. rewrite Hla. cbn [secondary].
      destruct Hals as [-> | ->]; simpl; unfold isGood; rewrite Hg, Hb; done.
    + apply (Hdem bad); [|done]. destruct Hals as [-> | ->]; simpl; auto.
Qed.

Example demotion_test :
  exists content log',
    demotionTestOutcome = (Ok content, log') /\
    map (fun a : Article => headline a) (secondary content) = ["Good Secondary"] /\
    map (fun q => (name (qh_repo q), summary q)) (quickHits content)
    = [("org/qh1", Some "Quick summary A");
       ("org/bad-sec", Some "Description of bad-sec")].
Proof. eexists _, _. split; [reflexivity|]. split; reflexivity. Qed.

Lemma demotion_of_fallback_secondaries_witness :
  exists content log',
    generateSectionContent demotionTestData aiConfig leadRoutingBackend [] = (Ok content, log') /\
    Forall (fun a : Article => _isFallback a = false) (secondary content).
Proof.
  eexists _, _. split; [cbv; reflexivity|].
  refine (proj1 (demotion_of_fallback_secondaries demotionTestData aiConfig leadRoutingBackend
                   [] _ _ _)).
  cbv; reflexivity.
Defined.


(** *** [generateAllContent] *)

Lemma generateSectionContent_invariant sectionData config backend log content log' :
  generateSectionContent sectionData config backend log = (Ok content, log') ->
  emptyIffNoLead content.
Proof.
  intros Hrun. destruct (sd_lead sectionData) as [leadRepo|] eqn:Hlead.
  - destruct (generateSectionContent_refines sectionData config backend log leadRepo Hlead)
      as (la & als & log1 & log2 & _ & _ & _ & _ & Hgen).
    rewrite Hgen in Hrun.
    destruct (annotatedQuickHits _ _ _) as [[annotated|e] log3]; [|discriminate].
    injection Hrun as <- <-. unfold postProcess, emptyIffNoLead.
    destruct (if _isFallback la then firstGood als else None); simpl; split; discriminate.
  - unfold generateSectionContent in Hrun. rewrite Hlead in Hrun.
    injection Hrun as <- <-. by split.
Qed.

Lemma allSections_insert P m sid s :
  allSections P m -> P s -> allSections P (<[sid := s]> m).
Proof.
  intros Hm Hs sid' s'. destruct (decide (sid = sid')) as [->|Hne].
  - rewrite lookup_insert_eq. by intros [= <-].
  - rewrite lookup_insert_ne by done. apply Hm.
Qed.

Lemma generateSections_invariant sections backend : forall ids result log result' log',
  allSections emptyIffNoLead result ->
  generateSections sections ids result backend log = (Ok result', log') ->
  allSections emptyIffNoLead result'.
Proof.
  induction ids as [|sid ids IH]; intros result log result' log' Hinv Hrun; simpl in Hrun.
  - by injection Hrun as <- <-.
  - destruct (Sections.SECTIONS !! sid) as [config|]; [|discriminate].
    destruct (Sections.isXPulse config); [by eapply IH|].
    destruct (sections !! sid) as [sectionData|].
    + apply bind_Ok in Hrun as (content & log1 & Hc & Hrest).
      eapply IH; [|exact Hrest].
      apply allSections_insert; [done|]. by eapply generateSectionContent_invariant.
    + eapply IH; [|exact Hrun]. apply allSections_insert; [done|]. by split.
Qed.

Lemma annotateSections_invariant backend : forall ids result log result' log',
  allSections emptyIffNoLead result ->
  annotateSections ids result backend log = (Ok result', log') ->
  allSections emptyIffNoLead result'.
Proof.
  induction ids as [|sid ids IH]; intros result log result' log' Hinv Hrun; simpl in Hrun.
  - by injection Hrun as <- <-.
  - destruct (result !! sid) as [section|] eqn:Hsec; [|by eapply IH].
    destruct (isEmpty section) eqn:Hempty; [by eapply IH|].
    apply bind_Ok in Hrun as (lead' & log1 & Hl & Hrun).
    apply bind_Ok in Hrun as (secondary' & log2 & _ & Hrun).
    eapply IH; [|exact Hrun]. apply allSections_insert; [done|].
    unfold emptyIffNoLead. cbn [isEmpty lead].
    split; [discriminate|]. intros ->.
    destruct (Hinv sid section Hsec) as [_ Hback].
    destruct (lead section) as [article|]; [|rewrite Hback in Hempty; done].
    apply bind_Ok in Hl as (a & log0 & _ & Hret). discriminate.
Qed.

(** C7, as stated, fails for the X Pulse section: with one pulse item it is
    not empty, and its lead is null. *)
Lemma xPulse_invariant_counterexample :
  exists content log' s,
    generateAllContent ∅ "tagline" pulseBackend [] = (Ok content, log') /\
    sections content !! "xPulse" = Some s /\
    lead s = None /\ isEmpty s = false /\
    ~ emptyIffNoLead s.
Proof.
  eexists _, _, _. split; [vm_compute; reflexivity|].
  split; [vm_compute; reflexivity|].
  split; [reflexivity|]. split; [reflexivity|].
  intros [_ H]. specialize (H eq_refl). discriminate.
Qed.

(** C7 (amended): in the output of [generateAllContent], every section other
    than X Pulse has [isEmpty] true exactly when its lead is null; the X
    Pulse section always has a null lead and has [isEmpty] true exactly when
    it holds no pulse item. *)
Theorem section_invariant_except_xPulse
    (sections : gmap string SectionData) (mastheadQuote : string)
    (backend : Backend) (log : list ChatCall) (content : Content) (log' : list ChatCall) :
  generateAllContent sections mastheadQuote backend log = (Ok content, log') ->
  (forall sid s, Xai.sections content !! sid = Some s -> sid <> "xPulse" -> emptyIffNoLead s) /\
  (exists s, Xai.sections content !! "xPulse" = Some s /\
             lead s = None /\ (isEmpty s = true <-> pulseItems s = [])).
Proof.
  intros Hrun. unfold generateAllContent in Hrun.
  apply bind_Ok in Hrun as (r1 & log1 & H1 & Hrun).
  apply bind_Ok in Hrun as (r2 & log2 & H2 & Hrun).
  apply bind_Ok in Hrun as (items & log3 & _ & Hrun).
  injection Hrun as <- <-. cbn [Xai.sections].
  assert (allSections emptyIffNoLead r2) as Hinv.
  { eapply annotateSections_invariant; [|exact H2].
    eapply generateSections_invariant; [|exact H1]. intros sid s. by rewrite lookup_empty. }
  split.
  - intros sid s Hs Hne. rewrite lookup_insert_ne in Hs by done. by eapply Hinv.
  - eexists. rewrite lookup_insert_eq. split; [reflexivity|]. split; [reflexivity|].
    cbn [isEmpty pulseItems]. destruct items; simpl; split; done.
Qed.

Lemma section_invariant_except_xPulse_witness :
  exists content log',
    generateAllContent ∅ "tagline" pulseBackend [] = (Ok content, log') /\
    (forall sid s, Xai.sections content !! sid = Some s -> sid <> "xPulse" -> emptyIffNoLead s) /\
    (exists s, Xai.sections content !! "xPulse" = Some s /\
               lead s = None /\ (isEmpty s = true <-> pulseItems s = [])).
Proof.
  eexists _, _. split; [vm_compute; reflexivity|].
  eapply (section_invariant_except_xPulse ∅ "tagline" pulseBackend []).
  vm_compute; reflexivity.
Defined.

End GenerationProps.
(** ** Section orchestration *)

Module OrchestratorProps.

Import Sections Github GithubSpec AllocatorProps.

Local Abbreviation fullNames := (map (fun r : Repo => full_name r)).
Local Abbreviation scoredNames := (map (fun r : ScoredRepo => full_name r)).

(** *** Deduplication by full name *)

Lemma dedupStep_inv st r : dedupInv st -> dedupInv (dedupStep st r).
Proof.
  destruct st as [seen repos]. intros [Hnd Hseen]. unfold dedupStep.
  destruct (decide (full_name r ∈ seen)) as [Hin|Hnin]; [done|].
  split; cbn [fst snd] in *.
  - rewrite map_app. apply NoDup_app. split; [done|]. split.
    + intros n Hn Hn'. apply list_elem_of_singleton in Hn'. subst n.
      by apply Hnin, Hseen.
    + apply NoDup_singleton.
  - intros n. rewrite map_app, elem_of_app, elem_of_union, elem_of_singleton, Hseen.
    simpl. rewrite list_elem_of_singleton. tauto.
Qed.

Lemma fold_dedup_inv (l : list Repo) : forall st,
  dedupInv st -> dedupInv (fold_left dedupStep l st).
Proof.
  induction l as [|r l IH]; intros st H; simpl; [done|]. by apply IH, dedupStep_inv.
Qed.

Lemma fold_results_inv (results : list (list Repo)) : forall st,
  dedupInv st ->
  dedupInv (fold_left (fun st result => fold_left dedupStep result st) results st).
Proof.
  induction results as [|l results IH]; intros st H; simpl; [done|].
  by apply IH, fold_dedup_inv.
Qed.

Lemma dedupInv_init : dedupInv (∅, []).
Proof. split; [constructor|]. intros n. simpl. set_solver. Qed.

(** The pool of a section holds no name twice. *)
Lemma fetchSectionRepos_NoDup (src : Source) (q : SectionQuery) :
  NoDup (fullNames (fetchSectionRepos src q)).
Proof. unfold fetchSectionRepos. apply fold_results_inv, dedupInv_init. Qed.

Lemma NoDup_names_filter (P : Repo -> Prop) `{forall r, Decision (P r)} (l : list Repo) :
  NoDup (fullNames l) -> NoDup (fullNames (filter P l)).
Proof.
  induction l as [|r l IH]; [done|]. simpl. intros Hnd.
  apply NoDup_cons in Hnd as [Hr Hl].
  destruct (decide (P r)).
  - rewrite filter_cons_True by done. simpl. apply NoDup_cons. split; [|by apply IH].
    intros Hin. apply Hr. apply list_elem_of_fmap in Hin as (r' & -> & Hr').
    apply list_elem_of_filter in Hr' as [_ Hr']. apply list_elem_of_fmap. eauto.
  - rewrite filter_cons_False by done. by apply IH.
Qed.

(** *** Sorting keeps the candidates *)

Lemma insertDesc_perm (x : ScoredRepo) (l : list ScoredRepo) : insertDesc x l ≡ₚ x :: l.
Proof.
  induction l as [|y l IH]; simpl; [done|].
  destruct (Rlt_dec _ _); [|done]. rewrite IH. apply Permutation_swap.
Qed.

Lemma sortByScoreDesc_perm (l : list ScoredRepo) : sortByScoreDesc l ≡ₚ l.
Proof.
  induction l as [|x l IH]; simpl; [done|]. by rewrite insertDesc_perm, IH.
Qed.

Lemma scored_names (dateNow : Z) (options : ScoreOptions) (l : list Repo) :
  scoredNames (map (withScore dateNow options) l) = fullNames l.
Proof. induction l as [|r l IH]; simpl; [done|]. by rewrite IH. Qed.

(** *** Claiming *)

Lemma claim_fold (l : list ScoredRepo) : forall seen : gset string,
  fold_left (fun seen (repo : ScoredRepo) => {[ full_name repo ]} ∪ seen) l seen
  = seen ∪ list_to_set (scoredNames l).
Proof.
  induction l as [|r l IH]; intros seen; simpl.
  - set_solver.
  - rewrite IH. set_solver.
Qed.

Lemma enriched_names (src : Source) (l : list ScoredRepo) :
  map Display.name (map (fun r : ScoredRepo => enrichRepo src r) l) = scoredNames l.
Proof. induction l as [|r l IH]; simpl; [done|]. by rewrite IH. Qed.

(** One section's pass over the claimed names: it adds exactly the names
    of its lead and secondary, none of which was claimed before, and none
    of its quick-hits is among the claimed names afterwards. *)
Lemma fetchAndEnrichSection_step (src : Source) (config : SectionConfig)
    (globalSeen recent : gset string) (data : Display.SectionData) (globalSeen' : gset string) :
  fetchAndEnrichSection src config globalSeen recent = (Ok data, globalSeen') ->
  globalSeen' = globalSeen ∪ headlinerNames data /\
  headlinerNames data ## globalSeen /\
  (forall q, In q (Display.sd_quickHits data) ->
             Display.name (Display.qh_repo q) ∉ globalSeen').
Proof.
  unfold fetchAndEnrichSection.
  destruct (query config) as [sq|]; [|discriminate].
  pose proof (fetchSectionRepos_NoDup src sq) as Hnd.
  apply (NoDup_names_filter (fun r : Repo => full_name r ∉ globalSeen)) in Hnd.
  assert (forall n, n ∈ fullNames (filter (fun r : Repo => full_name r ∉ globalSeen)
                                         (fetchSectionRepos src sq)) -> n ∉ globalSeen) as Hfresh.
  { intros n Hn. apply list_elem_of_fmap in Hn as (r & -> & Hr).
    by apply list_elem_of_filter in Hr as [Hr _]. }
  destruct (filter _ (fetchSectionRepos src sq)) as [|f filtered] eqn:Ef.
  { intros [= <- <-]. unfold headlinerNames. simpl. set_solver. }
  set (now := dateNow src (AtSection (id config))) in *.
  set (opts := {| recentRepoNames := Some recent; now := Some now |}) in *.
  set (scored := sortByScoreDesc (map (withScore now opts) (f :: filtered))) in *.
  assert (scoredNames scored ≡ₚ fullNames (f :: filtered)) as Hnames.
  { unfold scored. by rewrite sortByScoreDesc_perm, scored_names. }
  assert (NoDup (scoredNames scored)) as Hnds by by rewrite Hnames.
  destruct (categorize_partition scored (budget config) Hnds) as (Hcl & Hqh & Hdisj).
  set (c := categorizeDiverseForSection scored (budget config)) in *.
  assert (forall x : ScoredRepo, In x scored -> full_name x ∉ globalSeen) as Hscored.
  { intros x Hx. apply Hfresh. rewrite <- Hnames. apply list_elem_of_fmap.
    exists x. split; [done|]. by apply list_elem_of_In. }
  rewrite claim_fold.
  assert (list_to_set (scoredNames (claimedOf c)) ## globalSeen) as Hnew.
  { intros n Hn Hs. apply elem_of_list_to_set, list_elem_of_fmap in Hn as (x & -> & Hx).
    apply list_elem_of_In, Hcl in Hx. by apply (Hscored x). }
  assert (forall q : Display.QuickHit,
            In q (map (fun r : ScoredRepo => toQuickHit r) (cat_quickHits c)) ->
            Display.name (Display.qh_repo q)
              ∉ globalSeen ∪ list_to_set (scoredNames (claimedOf c))) as Hquick.
  { intros q Hq. apply in_map_iff in Hq as (y & <- & Hy).
    cbn [Display.name Display.qh_repo toQuickHit].
    intros Hin. apply elem_of_union in Hin as [Hin|Hin].
    - exact (Hscored y (Hqh y Hy) Hin).
    - apply elem_of_list_to_set, list_elem_of_fmap in Hin as (x & Heq & Hx).
      apply list_elem_of_In in Hx. exact (Hdisj x y Hx Hy (eq_sym Heq)). }
  destruct (lead c) as [l|] eqn:El.
  - intros [= <- <-]. unfold headlinerNames. cbn [Display.sd_lead Display.sd_secondary
      Display.sd_quickHits option_list app].
    assert (claimedOf c = l :: cat_secondary c) as Hc by (unfold claimedOf; by rewrite El).
    rewrite Hc in *.
    change (option_list (Some (enrichRepo src l)) ++
              map (fun r : ScoredRepo => enrichRepo src r) (cat_secondary c))
      with (map (fun r : ScoredRepo => enrichRepo src r) (l :: cat_secondary c)).
    rewrite enriched_names. split; [done|]. split; [done|].
    exact Hquick.
  - intros [= <- <-]. unfold headlinerNames. cbn [Display.sd_lead Display.sd_secondary
      Display.sd_quickHits option_list app map].
    assert (claimedOf c = []) as Hc.
    { unfold claimedOf. rewrite El. unfold c. by rewrite no_lead_no_secondary. }
    rewrite Hc in *. simpl. split; [set_solver|]. split; [set_solver|].
    intros q Hq. specialize (Hquick q Hq). simpl in Hquick. set_solver.
Qed.

(** *** The sequential run *)

Lemma runInv_insert sections globalSeen sid data globalSeen' :
  runInv sections globalSeen ->
  globalSeen' = globalSeen ∪ headlinerNames data ->
  headlinerNames data ## globalSeen ->
  runInv (<[sid := data]> sections) globalSeen'.
Proof.
  intros [Hsub Hdisj] -> Hnew. split.
  - intros i d. destruct (decide (i = sid)) as [->|Hne].
    + rewrite lookup_insert_eq. intros [= <-]. set_solver.
    + rewrite lookup_insert_ne by done. intros Hd. specialize (Hsub i d Hd). set_solver.
  - intros i j di dj Hij.
    destruct (decide (i = sid)) as [->|Hi]; destruct (decide (j = sid)) as [->|Hj];
      rewrite ?lookup_insert_eq, ?lookup_insert_ne by done; try done.
    + intros [= <-] Hd. specialize (Hsub j dj Hd). set_solver.
    + intros Hd [= <-]. specialize (Hsub i di Hd). set_solver.
    + by apply Hdisj.
Qed.

Lemma fetchTopicSections_inv (src : Source) (recent : gset string) :
  forall ids sections globalSeen sections' globalSeen',
    runInv sections globalSeen ->
    fetchTopicSections src recent ids sections globalSeen = (Ok sections', globalSeen') ->
    runInv sections' globalSeen'.
Proof.
  induction ids as [|sid ids IH]; intros sections globalSeen sections' globalSeen' Hinv Hrun;
    simpl in Hrun.
  - by injection Hrun as <- <-.
  - destruct (String.eqb sid "frontPage"); [by eapply IH|].
    destruct (SECTIONS !! sid) as [config|]; [|by eapply IH].
    destruct (query config) eqn:Eq; [|by eapply IH].
    destruct (fetchAndEnrichSection src config globalSeen recent) as [[data|e] seen1] eqn:Estep;
      [|discriminate].
    apply fetchAndEnrichSection_step in Estep as (Hseen & Hnew & _).
    eapply IH; [|exact Hrun]. by eapply runInv_insert.
Qed.

(** C1: in a run of [fetchAllSections] (front page first, then the topic
    sections in declared order) no repository name is lead or secondary of
    two different sections; and a section's pass adds exactly the names of
    its own lead and secondary to the claimed names, takes none of its
    headliners from the names claimed before, and leaves its quick-hits
    unclaimed. *)
Theorem cross_section_dedup (src : Source) (recent : gset string) :
  (forall sections,
     fetchAllSections src recent = Ok sections ->
     forall i j di dj,
       i <> j -> sections !! i = Some di -> sections !! j = Some dj ->
       headlinerNames di ## headlinerNames dj) /\
  (forall config globalSeen data globalSeen',
     fetchAndEnrichSection src config globalSeen recent = (Ok data, globalSeen') ->
     globalSeen' = globalSeen ∪ headlinerNames data /\
     headlinerNames data ## globalSeen /\
     (forall q, In q (Display.sd_quickHits data) ->
                Display.name (Display.qh_repo q) ∉ globalSeen')).
Proof.
  split; [|intros config gs data gs' H; exact (fetchAndEnrichSection_step _ _ _ _ _ _ H)].
  intros sections Hrun. unfold fetchAllSections in Hrun.
  destruct (fetchAndEnrich src recent) as [frontPageData|e]; [|discriminate].
  destruct (fetchTopicSections _ _ _ _ _) as [[sections'|e] seen'] eqn:Eloop; [|discriminate].
  injection Hrun as <-.
  apply fetchTopicSections_inv in Eloop; [apply Eloop|].
  split.
  - intros i d Hd. apply lookup_singleton_Some in Hd as [_ <-]. done.
  - intros i j di dj Hij Hi Hj.
    apply lookup_singleton_Some in Hi as [<- _]. apply lookup_singleton_Some in Hj as [<- _]. done.
Qed.


Lemma demo_run : fetchAllSections demoSource ∅ = Ok demoSections.
Proof. vm_compute. reflexivity. Qed.

Example demo_leads :
  (Display.name <$> (demoSections !! "frontPage" ≫= Display.sd_lead)) = Some "a/x" /\
  (Display.name <$> (demoSections !! "ai" ≫= Display.sd_lead)) = Some "b/y" /\
  (demoSections !! "robotics" ≫= Display.sd_lead) = None.
Proof. repeat split; vm_compute; reflexivity. Qed.

Lemma cross_section_dedup_witness :
  fetchAllSections demoSource ∅ = Ok demoSections /\
  exists di dj,
    demoSections !! "frontPage" = Some di /\
    demoSections !! "ai" = Some dj /\
    headlinerNames di ## headlinerNames dj.
Proof.
  split; [exact demo_run|].
  eexists _, _. split; [vm_compute; reflexivity|]. split; [vm_compute; reflexivity|].
  eapply (proj1 (cross_section_dedup demoSource ∅) demoSections demo_run "frontPage" "ai").
  - discriminate.
  - vm_compute; reflexivity.
  - vm_compute; reflexivity.
Defined.

End OrchestratorProps.

(** ** Further properties of the allocator *)

Module AllocatorLaws.

Import Sections Github GithubSpec AllocatorProps.

Local Abbreviation scoredNames := (map (fun r : ScoredRepo => full_name r)).

(** *** Slices from index 0 *)

Lemma slice_0 {A} (l : list A) (e : Z) :
  Js.slice l 0 e = firstn (Z.to_nat (Js.clampIndex (Z.of_nat (length l)) e)) l.
Proof.
  unfold Js.slice.
  replace (Js.clampIndex (Z.of_nat (length l)) 0) with 0
    by (unfold Js.clampIndex; change (0 <? 0) with false; cbv iota; lia).
  by rewrite Z.sub_0_r.
Qed.

Lemma slice_0_sublist {A} (l : list A) (e : Z) : sublist (Js.slice l 0 e) l.
Proof. rewrite slice_0. apply sublist_take. Qed.

Lemma slice_0_length {A} (l : list A) (e : Z) :
  0 <= e -> Z.of_nat (length (Js.slice l 0 e)) = Z.min e (Z.of_nat (length l)).
Proof.
  intros He. rewrite slice_0, length_take. unfold Js.clampIndex.
  replace (e <? 0) with false by (symmetry; apply Z.ltb_ge; lia). lia.
Qed.

Lemma slice_0_all {A} (l : list A) (e : Z) :
  Z.of_nat (length l) <= e -> Js.slice l 0 e = l.
Proof.
  intros He. rewrite slice_0. unfold Js.clampIndex.
  replace (e <? 0) with false by (symmetry; apply Z.ltb_ge; lia).
  apply firstn_all2. lia.
Qed.

Lemma sublist_sorted {A} (R : A -> A -> Prop) (l k : list A) :
  sublist l k -> StronglySorted R k -> StronglySorted R l.
Proof.
  induction 1 as [|x l k Hsub IH|x l k Hsub IH]; intros Hs; [done| |].
  - apply StronglySorted_inv in Hs as [Hs Hx]. constructor; [by apply IH|].
    apply Forall_forall. intros y Hy.
    by apply (proj1 (Forall_forall _ _) Hx), (elem_of_sublist l k).
  - apply StronglySorted_inv in Hs as [Hs _]. by apply IH.
Qed.

(** *** The capped walk *)

Lemma walk_step_sublists total cap st r :
  (promoted (walk_step total cap st r) = promoted st ++ [r] /\
   overflow (walk_step total cap st r) = overflow st)
  \/ (promoted (walk_step total cap st r) = promoted st /\
      overflow (walk_step total cap st r) = overflow st ++ [r]).
Proof.
  unfold walk_step.
  destruct (_ <? total); [destruct (Js.numberOr0 _); [destruct (_ <? cap)|]|];
    cbn [promoted overflow]; auto.
Qed.

Lemma fold_walk_sublists total cap rs : forall st,
  exists p o,
    promoted (fold_left (walk_step total cap) rs st) = promoted st ++ p /\
    overflow (fold_left (walk_step total cap) rs st) = overflow st ++ o /\
    sublist p rs /\ sublist o rs.
Proof.
  induction rs as [|r rs IH]; intros st; simpl.
  - exists [], []. by rewrite !app_nil_r.
  - destruct (IH (walk_step total cap st r)) as (p & o & Hp & Ho & Sp & So).
    destruct (walk_step_sublists total cap st r) as [[Ep Eo]|[Ep Eo]].
    + exists (r :: p), o. rewrite Hp, Ho, Ep, Eo, <- app_assoc.
      repeat split; [by apply sublist_skip | by apply sublist_cons].
    + exists p, (r :: o). rewrite Hp, Ho, Ep, Eo, <- app_assoc.
      repeat split; [by apply sublist_cons | by apply sublist_skip].
Qed.

Lemma walk_overflow_sublist total cap rs : sublist (overflow (walk total cap rs)) rs.
Proof.
  destruct (fold_walk_sublists total cap rs walk_init) as (p & o & _ & Ho & _ & So).
  unfold walk. by rewrite Ho.
Qed.

Lemma walk_step_bounded total cap st r :
  Z.of_nat (length (promoted st)) <= total ->
  Z.of_nat (length (promoted (walk_step total cap st r))) <= total.
Proof.
  unfold walk_step. intros H.
  destruct (Z.ltb_spec (Z.of_nat (length (promoted st))) total);
    [destruct (Js.numberOr0 _); [destruct (_ <? cap)|]|]; cbn [promoted]; [|done..].
  rewrite length_app. simpl. lia.
Qed.

Lemma fold_walk_bounded total cap rs : forall st,
  Z.of_nat (length (promoted st)) <= total ->
  Z.of_nat (length (promoted (fold_left (walk_step total cap) rs st))) <= total.
Proof.
  induction rs as [|r rs IH]; intros st H; simpl; [done|].
  by apply IH, walk_step_bounded.
Qed.

Lemma walk_lengths total cap rs :
  (length (promoted (walk total cap rs)) + length (overflow (walk total cap rs)))%nat
  = length rs.
Proof. rewrite <- length_app. by rewrite walk_perm. Qed.

(** *** Backfill *)

Lemma backfill_length total ov : forall pr,
  Z.of_nat (length (backfill total pr ov)) =
    if total <=? Z.of_nat (length pr) then Z.of_nat (length pr)
    else Z.min total (Z.of_nat (length pr + length ov)).
Proof.
  induction ov as [|r ov IH]; intros pr; simpl.
  - destruct (Z.leb_spec total (Z.of_nat (length pr))); lia.
  - destruct (Z.leb_spec total (Z.of_nat (length pr))); [done|].
    rewrite IH, length_app. simpl.
    destruct (Z.leb_spec total (Z.of_nat (length pr + 1))); lia.
Qed.

Lemma filter_none {A} (P : A -> Prop) `{forall x, Decision (P x)} (l : list A) :
  (forall x, x ∈ l -> ~ P x) -> filter P l = [].
Proof.
  induction l as [|a l IH]; intros Hl; [done|].
  rewrite filter_cons_False by (apply Hl; left).
  apply IH. intros x Hx. apply Hl. by right.
Qed.

Lemma filter_all {A} (P : A -> Prop) `{forall x, Decision (P x)} (l : list A) :
  (forall x, x ∈ l -> P x) -> filter P l = l.
Proof.
  induction l as [|a l IH]; intros Hl; [done|].
  rewrite filter_cons_True by (apply Hl; left).
  f_equal. apply IH. intros x Hx. apply Hl. by right.
Qed.

(** Filtering the promoted names out of the input leaves candidates that
    [backfill] did not take; on an input without duplicate names it leaves
    all of them. *)
Lemma filter_promoted_out (rs a b : list ScoredRepo) :
  rs ≡ₚ a ++ b ->
  filter (fun r : ScoredRepo => full_name r ∉ (list_to_set (scoredNames a) : gset string)) rs
    ⊆+ b.
Proof.
  intros Hperm. rewrite Hperm, filter_app, filter_none.
  - apply sublist_submseteq, sublist_filter.
  - intros x Hx Hn. apply Hn, elem_of_list_to_set, list_elem_of_fmap. by exists x.
Qed.

Lemma filter_promoted_out_NoDup (rs a b : list ScoredRepo) :
  rs ≡ₚ a ++ b ->
  NoDup (scoredNames rs) ->
  filter (fun r : ScoredRepo => full_name r ∉ (list_to_set (scoredNames a) : gset string)) rs
    ≡ₚ b.
Proof.
  intros Hperm Hnd. rewrite Hperm, map_app in Hnd.
  apply NoDup_app in Hnd as (_ & Hdisj & _).
  rewrite Hperm, filter_app, filter_none, filter_all; [done| |].
  - intros x Hx Hn. apply elem_of_list_to_set in Hn. apply (Hdisj _ Hn).
    apply list_elem_of_fmap. by exists x.
  - intros x Hx Hn. apply Hn, elem_of_list_to_set, list_elem_of_fmap. by exists x.
Qed.

(** The promoted list and the quick-hit pool of a non-empty input, as the
    allocator computes them from the lists [pr] and [ov] the walk leaves. *)
Lemma categorize_cases (r : ScoredRepo) (rs : list ScoredRepo) (budget : Budget) :
  let total := 1 + secondary budget in
  let c := categorizeDiverseForSection (r :: rs) budget in
  exists pr ov : list ScoredRepo,
    pr ++ ov ≡ₚ r :: rs /\
    sublist ov (r :: rs) /\
    (0 <= total -> Z.of_nat (length pr) <= total) /\
    ((Z.of_nat (length pr) < total /\
      (exists k, claimedOf c = pr ++ firstn k ov) /\
      Z.of_nat (length (claimedOf c)) = Z.min total (Z.of_nat (length pr + length ov)) /\
      cat_quickHits c =
        Js.slice (filter (fun x : ScoredRepo =>
                            full_name x ∉ (list_to_set (scoredNames (claimedOf c)) : gset string))
                         (r :: rs)) 0 (quickHits budget))
     \/ (total <= Z.of_nat (length pr) /\
         claimedOf c = pr /\
         cat_quickHits c = Js.slice ov 0 (quickHits budget))).
Proof.
  cbv zeta.
  exists (promoted (walk (1 + secondary budget) (maxPerLang budget (r :: rs)) (r :: rs))),
         (overflow (walk (1 + secondary budget) (maxPerLang budget (r :: rs)) (r :: rs))).
  split; [apply walk_perm|]. split; [apply walk_overflow_sublist|]. split.
  { intros Ht. apply fold_walk_bounded. simpl. lia. }
  rewrite claimedOf_categorize. unfold categorizeDiverseForSection. cbv zeta.
  destruct (Z.ltb_spec (Z.of_nat (length (promoted (walk (1 + secondary budget)
              (maxPerLang budget (r :: rs)) (r :: rs))))) (1 + secondary budget)) as [Hlt|Hge].
  - left. split; [done|]. split; [apply backfill_take|]. split; [|done].
    rewrite backfill_length.
    destruct (Z.leb_spec (1 + secondary budget)
                (Z.of_nat (length (promoted (walk (1 + secondary budget)
                   (maxPerLang budget (r :: rs)) (r :: rs)))))); [lia|done].
  - right. by split.
Qed.

Lemma categorize_submseteq (rs : list ScoredRepo) (budget : Budget) :
  claimedOf (categorizeDiverseForSection rs budget)
    ++ cat_quickHits (categorizeDiverseForSection rs budget) ⊆+ rs.
Proof.
  destruct rs as [|r rs]; [done|].
  destruct (categorize_cases r rs budget)
    as (pr & ov & Hperm & _ & _ & [(_ & [k Hc] & _ & Hq)|(_ & Hc & Hq)]).
  - rewrite Hq. clear Hq. generalize dependent (categorizeDiverseForSection (r :: rs) budget).
    intros c Hc. rewrite Hc.
    transitivity ((pr ++ firstn k ov) ++ skipn k ov).
    + apply submseteq_skips_l.
      etransitivity; [apply sublist_submseteq, slice_0_sublist|].
      apply filter_promoted_out.
      by rewrite <- app_assoc, firstn_skipn.
    + rewrite <- app_assoc, firstn_skipn. by apply Permutation_submseteq.
  - rewrite Hc, Hq.
    transitivity (pr ++ ov); [|by apply Permutation_submseteq].
    apply submseteq_skips_l, sublist_submseteq, slice_0_sublist.
Qed.

Lemma claimed_length (rs : list ScoredRepo) (budget : Budget) :
  0 <= secondary budget ->
  Z.of_nat (length (claimedOf (categorizeDiverseForSection rs budget)))
    = Z.min (1 + secondary budget) (Z.of_nat (length rs)).
Proof.
  intros Hsec. destruct rs as [|r rs]; [simpl; lia|].
  destruct (categorize_cases r rs budget)
    as (pr & ov & Hperm & _ & Hb & [(_ & _ & Hc & _)|(Hge & Hc & _)]).
  - by rewrite Hc, <- length_app, Hperm.
  - apply Permutation_length in Hperm. rewrite length_app in Hperm.
    rewrite Hc, <- Hperm. specialize (Hb ltac:(lia)). lia.
Qed.

Lemma quickHits_sublist (rs : list ScoredRepo) (budget : Budget) :
  sublist (cat_quickHits (categorizeDiverseForSection rs budget)) rs.
Proof.
  destruct rs as [|r rs]; [done|].
  destruct (categorize_cases r rs budget)
    as (pr & ov & _ & Hov & _ & [(_ & _ & _ & Hq)|(_ & _ & Hq)]); rewrite Hq.
  - etransitivity; [apply slice_0_sublist|apply sublist_filter].
  - etransitivity; [apply slice_0_sublist|done].
Qed.

Lemma quickHits_length (rs : list ScoredRepo) (budget : Budget) :
  0 <= quickHits budget ->
  Z.of_nat (length (cat_quickHits (categorizeDiverseForSection rs budget))) <= quickHits budget.
Proof.
  intros Hq. destruct rs as [|r rs]; [simpl; lia|].
  destruct (categorize_cases r rs budget)
    as (pr & ov & _ & _ & _ & [(_ & _ & _ & E)|(_ & _ & E)]);
    rewrite E, slice_0_length by done; lia.
Qed.

(** X1: the allocator hands every candidate out at most once:
    the promoted candidates (lead and secondary) followed by the
    quick-hits form a sub-multiset of the input list, whatever the input
    and the budget, and so do their names. On an input without duplicate
    names no repository can therefore be both a headliner and a quick-hit,
    or appear twice in either group. *)
Theorem allocation_hands_out_each_candidate_once (rs : list ScoredRepo) (budget : Budget) :
  claimedOf (categorizeDiverseForSection rs budget)
    ++ cat_quickHits (categorizeDiverseForSection rs budget) ⊆+ rs
  /\ scoredNames (claimedOf (categorizeDiverseForSection rs budget)
                  ++ cat_quickHits (categorizeDiverseForSection rs budget))
     ⊆+ scoredNames rs.
Proof.
  split; [apply categorize_submseteq|]. apply fmap_submseteq, categorize_submseteq.
Qed.

(** X2: the slots are filled whenever candidates exist: with a
    non-negative secondary budget the number of promoted candidates (lead
    and secondary) is the smaller of [1 + budget.secondary] and the number
    of candidates; the language cap never leaves a slot empty. *)
Theorem allocation_fills_the_slots (rs : list ScoredRepo) (budget : Budget) :
  0 <= secondary budget ->
  Z.of_nat (length (claimedOf (categorizeDiverseForSection rs budget)))
    = Z.min (1 + secondary budget) (Z.of_nat (length rs)).
Proof. apply claimed_length. Qed.

Lemma allocation_fills_the_slots_witness :
  Z.of_nat (length (claimedOf (categorizeDiverseForSection rust_heavy_pool front_budget)))
    = Z.min (1 + secondary front_budget) (Z.of_nat (length rust_heavy_pool)).
Proof. apply allocation_fills_the_slots. simpl. lia. Defined.

(** X3: the quick-hits keep the order of the input and
    respect their budget: they are a subsequence of the input list, so on
    a score-descending input they are score-descending, and with a
    non-negative quick-hit budget there are at most [budget.quickHits]. *)
Theorem quickHits_keep_input_order (rs : list ScoredRepo) (budget : Budget) :
  sublist (cat_quickHits (categorizeDiverseForSection rs budget)) rs
  /\ (scoreDescending rs ->
      scoreDescending (cat_quickHits (categorizeDiverseForSection rs budget)))
  /\ (0 <= quickHits budget ->
      Z.of_nat (length (cat_quickHits (categorizeDiverseForSection rs budget)))
        <= quickHits budget).
Proof.
  split; [apply quickHits_sublist|]. split.
  - unfold scoreDescending. intros Hs. eapply sublist_sorted; [apply quickHits_sublist|done].
  - apply quickHits_length.
Qed.

Lemma quickHits_keep_input_order_witness :
  sublist (cat_quickHits (categorizeDiverseForSection rust_heavy_pool front_budget))
          rust_heavy_pool
  /\ scoreDescending (cat_quickHits (categorizeDiverseForSection rust_heavy_pool front_budget))
  /\ Z.of_nat (length (cat_quickHits (categorizeDiverseForSection rust_heavy_pool front_budget)))
       <= quickHits front_budget.
Proof.
  destruct (quickHits_keep_input_order rust_heavy_pool front_budget) as (H1 & H2 & H3).
  split; [exact H1|]. split.
  - apply H2, rust_heavy_pool_descending.
  - apply H3. simpl. lia.
Defined.

(** X4: nobody is lost while the budgets last: on an input without
    duplicate names that fits into the promoted slots and the quick-hit
    budget together, the lead, the secondary candidates and the quick-hits
    are, up to order, exactly the candidates of the input. *)
Theorem allocation_loses_nobody (rs : list ScoredRepo) (budget : Budget) :
  0 <= secondary budget ->
  0 <= quickHits budget ->
  NoDup (scoredNames rs) ->
  Z.of_nat (length rs) <= 1 + secondary budget + quickHits budget ->
  claimedOf (categorizeDiverseForSection rs budget)
    ++ cat_quickHits (categorizeDiverseForSection rs budget) ≡ₚ rs.
Proof.
  intros Hsec Hqh Hnd Hroom. destruct rs as [|r rs]; [done|].
  destruct (categorize_cases r rs budget)
    as (pr & ov & Hperm & _ & Hb & [(Hlt & [k Hc] & Hlen & Hq)|(Hge & Hc & Hq)]).
  - assert (length (r :: rs) = (length pr + length ov)%nat) as Hl.
    { by rewrite <- length_app, Hperm. }
    rewrite Hq. clear Hq. generalize dependent (categorizeDiverseForSection (r :: rs) budget).
    intros c Hc Hlen.
    assert (r :: rs ≡ₚ claimedOf c ++ skipn k ov) as Hsplit.
    { by rewrite Hc, <- app_assoc, firstn_skipn. }
    pose proof (filter_promoted_out_NoDup _ _ _ Hsplit Hnd) as Hf.
    rewrite slice_0_all.
    + by rewrite Hf.
    + rewrite Hf. apply Permutation_length in Hsplit.
      rewrite length_app in Hsplit. lia.
  - specialize (Hb ltac:(lia)).
    pose proof (Permutation_length Hperm) as Hl. rewrite length_app in Hl.
    rewrite Hc, Hq, slice_0_all; [done|]. lia.
Qed.

Lemma allocation_loses_nobody_witness :
  claimedOf (categorizeDiverseForSection rust_heavy_pool front_budget)
    ++ cat_quickHits (categorizeDiverseForSection rust_heavy_pool front_budget)
  ≡ₚ rust_heavy_pool.
Proof.
  apply allocation_loses_nobody.
  - simpl. lia.
  - simpl. lia.
  - apply (bool_decide_unpack _). vm_compute. exact I.
  - simpl. lia.
Defined.

End AllocatorLaws.

(** ** Further properties of the score *)

Module ScoreLaws.

Import Github GithubSpec Scenarios ScoreProps.

Local Open Scope R_scope.

(** X5: with non-negative star, fork and issue counts and no
    push or release dated after the scoring instant, [scoreRepo] returns a
    score between -0.5 and 0.85 (the sum of the four weights); the score
    ranges the comments of [scoreRepo] give for its terms hold for such
    inputs. *)
Theorem score_stays_in_range (dateNow : Z) (repo : Repo) (options : ScoreOptions) :
  (0 <= stargazers_count repo)%Z ->
  (0 <= forks_count repo)%Z ->
  (0 <= default 0%Z (open_issues_count repo))%Z ->
  (pushed_at repo <= effectiveNow dateNow options)%Z ->
  (forall rel d, _latestRelease repo = Some rel -> relDate rel = Some d ->
                 (d <= effectiveNow dateNow options)%Z) ->
  -0.5 <= scoreRepo dateNow repo options <= 0.85.
Proof. apply score_bounds_for_past_timestamps. Qed.

Lemma score_stays_in_range_witness :
  -0.5 <= scoreRepo 0 releasedRepo {| recentRepoNames := None; now := Some scoringInstant |}
       <= 0.85.
Proof.
  apply score_stays_in_range.
  - simpl. lia.
  - simpl. lia.
  - simpl. lia.
  - vm_compute. discriminate.
  - intros rel d [= <-] [= <-]. vm_compute. discriminate.
Defined.

(** X6: a later push never lowers the score: of two records
    that differ in [pushed_at] only, the one pushed later scores at least
    as much, for every scoring instant and history set. *)
Theorem later_push_never_lowers_the_score
    (dateNow : Z) (repo : Repo) (options : ScoreOptions) (t1 t2 : Z) :
  (t1 <= t2)%Z ->
  scoreRepo dateNow (withPushedAt repo t1) options
    <= scoreRepo dateNow (withPushedAt repo t2) options.
Proof.
  intros Ht. unfold scoreRepo.
  fold (effectiveNow dateNow options). set (now := effectiveNow dateNow options).
  cbn [withPushedAt pushed_at created_at stargazers_count forks_count open_issues_count
       _latestRelease _isOSSInsight full_name].
  assert (Rmax 0 (1 - IZR (now - t1) / (7 * 86400000))
          <= Rmax 0 (1 - IZR (now - t2) / (7 * 86400000))) as Hr.
  { apply Rle_max_compat_l.
    assert (IZR (now - t2) <= IZR (now - t1)) as Hd by (apply IZR_le; lia).
    assert (IZR (now - t2) / (7 * 86400000) <= IZR (now - t1) / (7 * 86400000)).
    { apply Rmult_le_compat_r; [|done]. left. apply Rinv_0_lt_compat. lra. }
    lra. }
  cbv zeta.
  destruct (_isOSSInsight repo); case_decide; lra.
Qed.

Lemma later_push_never_lowers_the_score_witness :
  scoreRepo 0 (withPushedAt releasedRepo (scoringInstant - 3 * 86400000))
    {| recentRepoNames := None; now := Some scoringInstant |}
  <= scoreRepo 0 (withPushedAt releasedRepo (scoringInstant - 86400000))
       {| recentRepoNames := None; now := Some scoringInstant |}.
Proof. apply later_push_never_lowers_the_score. vm_compute. discriminate. Defined.

(** X7: a row of the trend aggregator never earns velocity or
    recency credit: for a record built by [fetchOSSInsightTrending], the
    score is a tenth of its fork-to-star ratio (capped at 1), less the
    history penalty; it does not depend on the clock and never exceeds
    0.1. When [fetchTrending] scores the record again with a release
    attached, the score is 0.15 times the release bonus plus that
    engagement share, less the penalty, and never exceeds 0.25 for a
    release that is not dated after the scoring instant. *)
Theorem aggregator_rows_earn_no_velocity_or_recency
    (src : Source) (dateNow : Z) (options : ScoreOptions) (r : Repo)
    (release : option Release) :
  In r (fetchOSSInsightTrending src) ->
  let engagement :=
    if (0 <? stargazers_count r)%Z
    then Rmin (IZR (forks_count r) / IZR (stargazers_count r)) 1 else 0 in
  let penalty :=
    if decide (full_name r ∈ default (∅ : gset string) (recentRepoNames options))
    then 0.5 else 0 in
  let releaseBonus :=
    match release with
    | Some rel =>
        match relDate rel with
        | Some d => Rmax 0 (1 - IZR (effectiveNow dateNow options - d) / 86400000 / 30)
        | None => 0.5
        end
    | None => 0
    end in
  scoreRepo dateNow r options = engagement * 0.10 - penalty
  /\ scoreRepo dateNow r options <= 0.1
  /\ scoreRepo dateNow (withRelease r release) options
     = releaseBonus * 0.15 + engagement * 0.10 - penalty
  /\ ((forall rel d, release = Some rel -> relDate rel = Some d ->
                     (d <= effectiveNow dateNow options)%Z) ->
      scoreRepo dateNow (withRelease r release) options <= 0.25).
Proof.
  intros Hr. unfold fetchOSSInsightTrending in Hr.
  destruct (trends src) as [rows|]; [|done].
  apply in_map_iff in Hr as (row & <- & _).
  assert (forall e : R, e = (if (0 <? default 0%Z (row_stars row))%Z
                     then Rmin (IZR (default 0%Z (row_forks row))
                                / IZR (default 0%Z (row_stars row))) 1 else 0) -> e <= 1) as He.
  { intros e ->. destruct (_ <? _)%Z; [apply Rmin_r|lra]. }
  specialize (He _ eq_refl). cbv zeta.
  unfold scoreRepo. fold (effectiveNow dateNow options).
  set (now := effectiveNow dateNow options).
  cbn [withRelease pushed_at created_at stargazers_count forks_count open_issues_count
       _latestRelease _isOSSInsight full_name default].
  replace ((IZR (default 0%Z (row_forks row)) + 0 * 0.3)) with (IZR (default 0%Z (row_forks row)))
    by lra.
  split; [case_decide; lra|]. split; [case_decide; lra|]. split; [case_decide; lra|].
  intros Hpast.
  assert (match release with
          | Some rel =>
              match relDate rel with
              | Some d => Rmax 0 (1 - IZR (now - d) / 86400000 / 30)
              | None => 0.5
              end
          | None => 0
          end <= 1) as Hrel.
  { destruct release as [rel|]; [|lra]. destruct (relDate rel) as [d|] eqn:Ed; [|lra].
    specialize (Hpast rel d eq_refl Ed).
    apply decay_le_1; [|lra].
    assert (0 <= IZR (now - d)) by (apply IZR_le; lia).
    apply Rmult_le_pos; [lra | left; apply Rinv_0_lt_compat; lra]. }
  case_decide; lra.
Qed.

Lemma aggregator_rows_earn_no_velocity_or_recency_witness :
  exists r,
    In r (fetchOSSInsightTrending trendSource) /\
    scoreRepo 0 (withRelease r (_latestRelease releasedRepo))
      {| recentRepoNames := None; now := Some scoringInstant |} <= 0.25.
Proof.
  eexists. split; [vm_compute; left; reflexivity|].
  eapply (aggregator_rows_earn_no_velocity_or_recency trendSource 0
            {| recentRepoNames := None; now := Some scoringInstant |} _
            (_latestRelease releasedRepo)).
  - vm_compute. left. reflexivity.
  - intros rel d [= <-] [= <-]. vm_compute. discriminate.
Defined.

End ScoreLaws.

(** ** Further properties of the fetch stage *)

Module FetchLaws.

Import Sections Github GithubSpec Scenarios AllocatorProps AllocatorLaws OrchestratorProps.

Local Abbreviation fullNames := (map (fun r : Repo => full_name r)).
Local Abbreviation scoredNames := (map (fun r : ScoredRepo => full_name r)).

(** *** Sorting *)

Lemma insertDesc_sorted (x : ScoredRepo) (l : list ScoredRepo) :
  scoreDescending l -> scoreDescending (insertDesc x l).
Proof.
  unfold scoreDescending. induction l as [|y l IH]; intros Hs; simpl.
  - by repeat constructor.
  - apply StronglySorted_inv in Hs as [Hs Hy].
    destruct (Rlt_dec (_score x) (_score y)) as [Hlt|Hge].
    + constructor; [by apply IH|].
      rewrite insertDesc_perm. constructor; [lra|done].
    + constructor; [by constructor|].
      constructor; [lra|].
      eapply Forall_impl; [exact Hy|]. simpl. intros z Hz. lra.
Qed.

Lemma sortByScoreDesc_sorted (l : list ScoredRepo) : scoreDescending (sortByScoreDesc l).
Proof.
  induction l as [|x l IH]; simpl; [constructor|]. by apply insertDesc_sorted.
Qed.

(** *** The lead of an allocation *)

(** In a sorted list, what comes after an element scores no higher. *)
Lemma sorted_after (l1 l2 : list ScoredRepo) (x y : ScoredRepo) :
  scoreDescending (l1 ++ x :: l2) -> In y (x :: l2) -> (_score y <= _score x)%R.
Proof.
  unfold scoreDescending. induction l1 as [|z l1 IH]; simpl; intros Hs Hy.
  - apply StronglySorted_inv in Hs as [_ Hall].
    destruct Hy as [->|Hy]; [lra|].
    by apply (proj1 (Forall_forall _ _) Hall), list_elem_of_In.
  - apply StronglySorted_inv in Hs as [Hs _]. by apply IH.
Qed.

(** *** One section *)

(** The candidates a section scores: its pool without the claimed names. *)
Lemma fetchAndEnrichSection_result (src : Source) (config : SectionConfig)
    (globalSeen recent : gset string) (q : SectionQuery) :
  query config = Some q ->
  let now := dateNow src (AtSection (id config)) in
  let opts := {| recentRepoNames := Some recent; now := Some now |} in
  let pool := filter (fun r : Repo => full_name r ∉ globalSeen) (fetchSectionRepos src q) in
  let c := categorizeDiverseForSection
             (sortByScoreDesc (map (withScore now opts) pool)) (budget config) in
  exists globalSeen',
    fetchAndEnrichSection src config globalSeen recent =
      (Ok {| Display.sd_lead := (fun r : ScoredRepo => enrichRepo src r) <$> lead c;
             Display.sd_secondary := map (fun r : ScoredRepo => enrichRepo src r) (cat_secondary c);
             Display.sd_quickHits := map (fun r : ScoredRepo => toQuickHit r) (cat_quickHits c) |},
       globalSeen').
Proof.
  intros Hq. cbv zeta. unfold fetchAndEnrichSection. rewrite Hq.
  destruct (filter _ (fetchSectionRepos src q)) as [|f pool] eqn:Ef.
  - by eexists.
  - destruct (lead _) as [l|] eqn:El.
    + by eexists.
    + rewrite (no_lead_no_secondary _ _ El). by eexists.
Qed.

Lemma scored_pool (dateNow : Z) (options : ScoreOptions) (pool : list Repo) (h : ScoredRepo) :
  In h (map (withScore dateNow options) pool) ->
  In (repo_of h) pool /\ _score h = scoreRepo dateNow (repo_of h) options.
Proof. intros Hh. apply in_map_iff in Hh as (r & <- & Hr). by split. Qed.

(** X8: a topic section leads with the best unclaimed
    candidate of an ordinary language: for a section with a query and a
    non-negative secondary budget, [fetchAndEnrichSection] returns no lead
    exactly when every candidate of the section's pool is already claimed,
    and otherwise its lead is the enriched form of a pool candidate that
    is not claimed and whose score (at the section's scoring instant, with
    the run's history set) is at least the score of every unclaimed
    candidate whose language is not named like a member of
    [Object.prototype]. A lead whose own language bears such a name only
    occurs when every unclaimed candidate's does, and it then scores at
    least as much as each of them. *)
Theorem section_lead_is_best_unclaimed_candidate
    (src : Source) (config : SectionConfig) (globalSeen recent : gset string)
    (q : SectionQuery) (data : Display.SectionData) (globalSeen' : gset string) :
  query config = Some q ->
  0 <= secondary (budget config) ->
  fetchAndEnrichSection src config globalSeen recent = (Ok data, globalSeen') ->
  let now := dateNow src (AtSection (id config)) in
  let opts := {| recentRepoNames := Some recent; now := Some now |} in
  (Display.sd_lead data = None <->
   forall r, In r (fetchSectionRepos src q) -> full_name r ∈ globalSeen)
  /\ (forall l, Display.sd_lead data = Some l ->
      exists r, In r (fetchSectionRepos src q) /\ (full_name r ∉ globalSeen) /\
                l = enrichRepo src r /\
                (forall r', In r' (fetchSectionRepos src q) -> full_name r' ∉ globalSeen ->
                            ordinaryLang (Js.str_or (language r') "Unknown") ->
                            (scoreRepo now r' opts <= scoreRepo now r opts)%R) /\
                (¬ ordinaryLang (Js.str_or (language r) "Unknown") ->
                 forall r', In r' (fetchSectionRepos src q) -> full_name r' ∉ globalSeen ->
                            ¬ ordinaryLang (Js.str_or (language r') "Unknown") /\
                            (scoreRepo now r' opts <= scoreRepo now r opts)%R)).
Proof.
  intros Hq Hsec Hrun. cbv zeta.
  destruct (fetchAndEnrichSection_result src config globalSeen recent q Hq) as [seen Hres].
  cbv zeta in Hres. rewrite Hres in Hrun. injection Hrun as <- _.
  cbn [Display.sd_lead].
  set (now := dateNow src (AtSection (id config))).
  set (opts := {| recentRepoNames := Some recent; now := Some now |}).
  set (pool := filter (fun r : Repo => full_name r ∉ globalSeen) (fetchSectionRepos src q)).
  set (scored := sortByScoreDesc (map (withScore now opts) pool)).
  assert (forall r, In r pool <-> In r (fetchSectionRepos src q) /\ full_name r ∉ globalSeen)
    as Hpool.
  { intros r. unfold pool. rewrite <- !list_elem_of_In, list_elem_of_filter. tauto. }
  assert (forall s, In s scored <-> In s (map (withScore now opts) pool)) as Hscored.
  { intros s. unfold scored. rewrite <- !list_elem_of_In.
    by rewrite (sortByScoreDesc_perm (map (withScore now opts) pool)). }
  pose proof (sortByScoreDesc_sorted (map (withScore now opts) pool)) as Hsorted.
  fold scored in Hsorted.
  split.
  - rewrite fmap_None, (lead_None_iff scored (budget config) Hsec). split.
    + intros Hnil r Hr.
      destruct (decide (full_name r ∈ globalSeen)) as [|Hn]; [done|].
      assert (In (withScore now opts r) scored) as Hin.
      { apply Hscored, in_map, Hpool. by split. }
      rewrite Hnil in Hin. by destruct Hin.
    + intros Hall. destruct scored as [|s rest] eqn:Es; [done|].
      assert (In s (map (withScore now opts) pool)) as Hs by (apply Hscored; by left).
      apply scored_pool in Hs as [Hs _]. apply Hpool in Hs as [Hs1 Hs2].
      by specialize (Hall _ Hs1).
  - intros l Hl. apply fmap_Some in Hl as (h & Hh & ->).
    destruct (lead_position scored (budget config) h Hsec Hh) as (l1 & l2 & Hsplit & Hl1 & Hno).
    assert (In h scored) as Hin by (rewrite Hsplit; apply in_elt).
    apply Hscored, scored_pool in Hin as [Hhp Hscore]. apply Hpool in Hhp as [Hh1 Hh2].
    rewrite Hsplit in Hsorted.
    assert (forall r', In r' (fetchSectionRepos src q) -> full_name r' ∉ globalSeen ->
                       In (withScore now opts r') l1 \/
                       (scoreRepo now r' opts <= scoreRepo now (repo_of h) opts)%R) as Hrank.
    { intros r' Hr1 Hr2.
      assert (In (withScore now opts r') (l1 ++ h :: l2)) as Hr'.
      { rewrite <- Hsplit. apply Hscored, in_map, Hpool. by split. }
      apply in_app_or in Hr' as [Hr'|Hr']; [by left|right].
      rewrite <- Hscore. apply (sorted_after l1 l2 h (withScore now opts r') Hsorted Hr'). }
    exists (repo_of h). split; [done|]. split; [done|]. split; [done|]. split.
    + intros r' Hr1 Hr2 Hord. destruct (Hrank r' Hr1 Hr2) as [Hbad|Hle]; [|done].
      by destruct (proj1 (Forall_forall _ _) Hl1 _ (proj2 (list_elem_of_In _ _) Hbad)).
    + intros Hnot r' Hr1 Hr2. destruct (Hno Hnot) as [-> Hall]. split.
      * assert (In (withScore now opts r') scored) as Hr'.
        { apply Hscored, in_map, Hpool. by split. }
        apply (proj1 (Forall_forall _ _) Hall _ (proj2 (list_elem_of_In _ _) Hr')).
      * by destruct (Hrank r' Hr1 Hr2).
Qed.

Lemma section_lead_is_best_unclaimed_candidate_witness :
  exists l r,
    Display.sd_lead demoAiData = Some l /\
    In r (fetchSectionRepos demoSource demoAiQuery) /\
    (full_name r ∉ claimedByFrontPage) /\
    l = enrichRepo demoSource r.
Proof.
  destruct (section_lead_is_best_unclaimed_candidate demoSource demoAiConfig
              claimedByFrontPage ∅ demoAiQuery demoAiData demoAiSeen
              eq_refl ltac:(simpl; lia) ltac:(vm_compute; reflexivity)) as [_ Hlead].
  destruct (Hlead (enrichRepo demoSource (demoRepo "b/y" "Go")) ltac:(vm_compute; reflexivity))
    as (r & Hr & Hn & Hl & _).
  by exists (enrichRepo demoSource (demoRepo "b/y" "Go")), r.
Defined.

(** *** The pool of a section *)

Lemma dedupStep_spec (st : gset string * list Repo) (r : Repo) :
  (exists ext, (dedupStep st r).2 = st.2 ++ ext /\ forall x, x ∈ ext -> x = r) /\
  st.1 ⊆ (dedupStep st r).1 /\
  full_name r ∈ (dedupStep st r).1.
Proof.
  destruct st as [seen repos]. unfold dedupStep.
  destruct (decide (full_name r ∈ seen)); cbn [fst snd].
  - split; [|done]. exists []. rewrite app_nil_r. split; [done|]. by intros x Hx%elem_of_nil.
  - split; [|set_solver]. exists [r]. split; [done|]. by intros x Hx%list_elem_of_singleton.
Qed.

Lemma fold_dedup_spec (l : list Repo) : forall st,
  (exists ext, (fold_left dedupStep l st).2 = st.2 ++ ext /\ forall x, x ∈ ext -> x ∈ l) /\
  st.1 ⊆ (fold_left dedupStep l st).1 /\
  (forall r, r ∈ l -> full_name r ∈ (fold_left dedupStep l st).1).
Proof.
  induction l as [|r l IH]; intros st; simpl.
  - split; [|set_solver]. exists []. rewrite app_nil_r. split; [done|]. by intros x Hx%elem_of_nil.
  - destruct (IH (dedupStep st r)) as ((ext & Hext & Hfrom) & Hsub & Hall).
    destruct (dedupStep_spec st r) as ((ext0 & Hext0 & Hfrom0) & Hsub0 & Hr).
    split; [|split].
    + exists (ext0 ++ ext). rewrite Hext, Hext0, <- app_assoc. split; [done|].
      intros x Hx. apply elem_of_app in Hx as [Hx|Hx].
      * rewrite (Hfrom0 x Hx). left.
      * right. by apply Hfrom.
    + set_solver.
    + intros x Hx. apply elem_of_cons in Hx as [->|Hx]; [set_solver|by apply Hall].
Qed.

Lemma fold_results_spec (results : list (list Repo)) : forall st,
  (exists ext,
     (fold_left (fun st result => fold_left dedupStep result st) results st).2 = st.2 ++ ext /\
     forall x, x ∈ ext -> exists l, l ∈ results /\ x ∈ l) /\
  st.1 ⊆ (fold_left (fun st result => fold_left dedupStep result st) results st).1 /\
  (forall l r, l ∈ results -> r ∈ l ->
     full_name r ∈ (fold_left (fun st result => fold_left dedupStep result st) results st).1).
Proof.
  induction results as [|l results IH]; intros st; simpl.
  - split; [|set_solver]. exists []. rewrite app_nil_r. split; [done|]. by intros x Hx%elem_of_nil.
  - destruct (IH (fold_left dedupStep l st)) as ((ext & Hext & Hfrom) & Hsub & Hall).
    destruct (fold_dedup_spec l st) as ((ext0 & Hext0 & Hfrom0) & Hsub0 & Hall0).
    split; [|split].
    + exists (ext0 ++ ext). rewrite Hext, Hext0, <- app_assoc. split; [done|].
      intros x Hx. apply elem_of_app in Hx as [Hx|Hx].
      * exists l. split; [left|by apply Hfrom0].
      * destruct (Hfrom x Hx) as (l' & Hl' & Hx'). exists l'. split; [by right|done].
    + set_solver.
    + intros l' r Hl' Hr. apply elem_of_cons in Hl' as [->|Hl'].
      * apply Hsub. by apply Hall0.
      * by eapply Hall.
Qed.

(** X9: the pool of a section is the deduplicated union of its
    query results: [fetchSectionRepos] issues one query for each of the
    first three topics and for each language; its result holds no full
    name twice, every repository in it was answered by one of these
    queries, and every repository answered by one of them is represented
    by its name; a rejected query contributes nothing and fails nothing. *)
Theorem section_pool_is_the_deduplicated_union (src : Source) (q : SectionQuery) :
  let queries :=
    map QueryTopic (Js.slice (Sections.topics q) 0 3) ++ map QueryLanguage (languages q) in
  NoDup (fullNames (fetchSectionRepos src q))
  /\ (forall r, In r (fetchSectionRepos src q) ->
        exists qu l, In qu queries /\ search src qu = Some l /\ In r l)
  /\ (forall qu l r, In qu queries -> search src qu = Some l -> In r l ->
        In (full_name r) (fullNames (fetchSectionRepos src q))).
Proof.
  cbv zeta. split; [apply fetchSectionRepos_NoDup|].
  unfold fetchSectionRepos.
  set (queries := map QueryTopic (Js.slice (Sections.topics q) 0 3)
                  ++ map QueryLanguage (languages q)).
  set (results := map (fun qu => default [] (search src qu)) queries).
  destruct (fold_results_spec results (∅, [])) as ((ext & Hext & Hfrom) & _ & Hall).
  pose proof (fold_results_inv results (∅, []) dedupInv_init) as [_ Hseen].
  split.
  - intros r Hr. rewrite Hext in Hr. simpl in Hr. apply list_elem_of_In in Hr.
    destruct (Hfrom r Hr) as (l & Hl & Hrl).
    apply list_elem_of_fmap in Hl as (qu & -> & Hqu).
    destruct (search src qu) as [l|] eqn:Es; [|by apply elem_of_nil in Hrl].
    exists qu, l. by rewrite <- !list_elem_of_In.
  - intros qu l r Hqu Hs Hr. apply list_elem_of_In, Hseen. apply (Hall l r).
    + apply list_elem_of_fmap. exists qu. rewrite Hs. split; [done|]. by apply list_elem_of_In.
    + by apply list_elem_of_In.
Qed.

(** *** The front page *)

Lemma dedupStep_nonempty (st : gset string * list Repo) (r : Repo) :
  dedupInv st -> (dedupStep st r).2 <> [].
Proof.
  destruct st as [seen repos]. intros [_ Hseen]. unfold dedupStep.
  destruct (decide (full_name r ∈ seen)) as [Hin|]; cbn [snd].
  - apply Hseen in Hin. cbn [snd] in Hin. intros ->. by apply elem_of_nil in Hin.
  - by destruct repos.
Qed.

Lemma fold_dedup_empty (l : list Repo) (st : gset string * list Repo) :
  dedupInv st ->
  ((fold_left dedupStep l st).2 = [] <-> st.2 = [] /\ l = []).
Proof.
  intros Hinv. destruct l as [|r l]; simpl; [tauto|].
  split; [|by intros [_ ?]]. intros Hnil. exfalso.
  destruct (fold_dedup_spec l (dedupStep st r)) as ((ext & Hext & _) & _).
  rewrite Hext in Hnil. apply app_eq_nil in Hnil as [Hnil _].
  by apply (dedupStep_nonempty st r).
Qed.

Lemma scored_withRelease_names (src : Source) (dateNow : Z) (options : ScoreOptions)
    (l : list ScoredRepo) :
  scoredNames (map (withScore dateNow options)
                 (map (fun repo : ScoredRepo =>
                         withRelease repo (releasesLatest src (full_name repo))) l))
  = scoredNames l.
Proof. induction l as [|r l IH]; simpl; [done|]. by rewrite IH. Qed.

(** The candidates of the front page: at most 15, without duplicate
    names, and none only if the three sources answered nothing. *)
Lemma fetchTrending_result (src : Source) (recent : gset string) (a b : list Repo) :
  search src QueryNew = Some a ->
  search src QueryEstablished = Some b ->
  exists rs,
    fetchTrending src recent = Ok (categorizeDiverse rs) /\
    NoDup (scoredNames rs) /\
    (length rs <= 15)%nat /\
    (rs = [] <-> a ++ b ++ fetchOSSInsightTrending src = []).
Proof.
  intros Ha Hb. unfold fetchTrending. rewrite Ha, Hb.
  pose proof (fold_dedup_inv (a ++ b) (∅, []) dedupInv_init) as Hinv1.
  pose proof (fold_dedup_inv (fetchOSSInsightTrending src) _ Hinv1) as Hinv2.
  pose proof (fold_dedup_empty (a ++ b) (∅, []) dedupInv_init) as He1.
  pose proof (fold_dedup_empty (fetchOSSInsightTrending src) _ Hinv1) as He2.
  destruct (fold_left dedupStep (fetchOSSInsightTrending src)
              (fold_left dedupStep (a ++ b) (∅, []))) as [seen repos].
  cbn [snd] in *. destruct Hinv2 as [Hnd _]. cbn [snd] in Hnd.
  set (now := dateNow src AtTrending).
  set (opts := {| recentRepoNames := Some recent; now := Some now |}).
  set (preScored := sortByScoreDesc (map (withScore now opts) repos)).
  set (top15 := Js.slice preScored 0 15).
  eexists. split; [reflexivity|].
  assert (length top15 = Nat.min 15 (length repos)) as Hlen.
  { pose proof (slice_0_length preScored 15 ltac:(lia)) as Hl. fold top15 in Hl.
    pose proof (Permutation_length (sortByScoreDesc_perm (map (withScore now opts) repos))) as Hp.
    fold preScored in Hp. rewrite length_map in Hp. lia. }
  assert (length (sortByScoreDesc
            (map (withScore now opts)
               (map (fun repo : ScoredRepo =>
                       withRelease repo (releasesLatest src (full_name repo))) top15)))
          = length top15) as Hlen'.
  { by rewrite (Permutation_length (sortByScoreDesc_perm _)), !length_map. }
  split; [|split].
  - rewrite sortByScoreDesc_perm, scored_withRelease_names.
    apply (sublist_NoDup _ (scoredNames preScored)).
    + unfold preScored. by rewrite sortByScoreDesc_perm, scored_names.
    + apply fmap_sublist, slice_0_sublist.
  - lia.
  - rewrite <- length_zero_iff_nil, Hlen', Hlen.
    rewrite app_assoc.
    assert (repos = [] <-> (a ++ b) ++ fetchOSSInsightTrending src = []) as Hr.
    { rewrite He2, He1. split.
      - intros [[_ ->] ->]. done.
      - intros [-> ->]%app_eq_nil. done. }
    rewrite <- Hr, <- length_zero_iff_nil. lia.
Qed.

(** What [fetchAndEnrich] makes of the front-page candidates. *)
Lemma fetchAndEnrich_result (src : Source) (recent : gset string) (a b : list Repo) :
  search src QueryNew = Some a ->
  search src QueryEstablished = Some b ->
  exists rs,
    NoDup (scoredNames rs) /\
    (length rs <= 15)%nat /\
    (rs = [] <-> a ++ b ++ fetchOSSInsightTrending src = []) /\
    fetchAndEnrich src recent =
      match lead (categorizeDiverse rs) with
      | None => Err "No repos found"
      | Some l =>
          Ok {| Display.sd_lead := Some (enrichRepo src l);
                Display.sd_secondary :=
                  map (fun r : ScoredRepo => enrichRepo src r)
                      (cat_secondary (categorizeDiverse rs));
                Display.sd_quickHits :=
                  map (fun r : ScoredRepo => toQuickHit r)
                      (cat_quickHits (categorizeDiverse rs)) |}
      end.
Proof.
  intros Ha Hb.
  destruct (fetchTrending_result src recent a b Ha Hb) as (rs & Hrun & Hnd & Hlen & Hnil).
  exists rs. split; [done|]. split; [done|]. split; [done|].
  unfold fetchAndEnrich. by rewrite Hrun.
Qed.

(** *** The topic sections of a run *)

Lemma fetchTopicSections_total (src : Source) (recent : gset string) :
  forall ids sections globalSeen,
    exists sections' globalSeen',
      fetchTopicSections src recent ids sections globalSeen = (Ok sections', globalSeen').
Proof.
  induction ids as [|sid ids IH]; intros sections globalSeen; simpl; [by eexists _, _|].
  destruct (String.eqb sid "frontPage"); [apply IH|].
  destruct (SECTIONS !! sid) as [config|]; [|apply IH].
  destruct (query config) as [q|] eqn:Eq; [|apply IH].
  destruct (fetchAndEnrichSection_result src config globalSeen recent q Eq) as [seen ->].
  apply IH.
Qed.

(** Every section of the result was there before or is the result of
    [fetchAndEnrichSection] for its configuration. *)
Lemma fetchTopicSections_lookup (src : Source) (recent : gset string) :
  forall ids sections globalSeen sections' globalSeen' sid d,
    fetchTopicSections src recent ids sections globalSeen = (Ok sections', globalSeen') ->
    sections' !! sid = Some d ->
    sections !! sid = Some d \/
    (sid <> "frontPage" /\
     exists config seen0 seen1,
       SECTIONS !! sid = Some config /\
       fetchAndEnrichSection src config seen0 recent = (Ok d, seen1)).
Proof.
  induction ids as [|i ids IH]; intros sections globalSeen sections' globalSeen' sid d Hrun Hd;
    simpl in Hrun.
  - injection Hrun as <- <-. by left.
  - destruct (String.eqb_spec i "frontPage") as [|Hne]; [by eapply IH|].
    destruct (SECTIONS !! i) as [config|] eqn:Ec; [|by eapply IH].
    destruct (query config) eqn:Eq; [|by eapply IH].
    destruct (fetchAndEnrichSection src config globalSeen recent) as [[data|e] seen1] eqn:Estep;
      [|discriminate].
    destruct (IH _ _ _ _ _ _ Hrun Hd) as [Hin|Hnew]; [|by right].
    destruct (decide (sid = i)) as [->|Hsid].
    + rewrite lookup_insert_eq in Hin. injection Hin as <-. right. split; [done|].
      by exists config, globalSeen, seen1.
    + rewrite lookup_insert_ne in Hin by done. by left.
Qed.

Lemma fetchTopicSections_keys (src : Source) (recent : gset string) :
  forall ids sections globalSeen sections' globalSeen' sid,
    fetchTopicSections src recent ids sections globalSeen = (Ok sections', globalSeen') ->
    (is_Some (sections' !! sid) <->
     is_Some (sections !! sid) \/
     (In sid ids /\ sid <> "frontPage" /\
      exists config, SECTIONS !! sid = Some config /\ is_Some (query config))).
Proof.
  induction ids as [|i ids IH]; intros sections globalSeen sections' globalSeen' sid Hrun;
    simpl in Hrun.
  - injection Hrun as <- <-. simpl. tauto.
  - destruct (String.eqb_spec i "frontPage") as [Hfp|Hne].
    { rewrite (IH _ _ _ _ _ Hrun). simpl. subst i. intuition congruence. }
    destruct (SECTIONS !! i) as [config|] eqn:Ec.
    2: { rewrite (IH _ _ _ _ _ Hrun). simpl. split; [tauto|].
         intros [?|([<-|?] & ? & c & Hc & ?)]; [tauto|congruence|]. right. eauto. }
    destruct (query config) eqn:Eq.
    2: { rewrite (IH _ _ _ _ _ Hrun). simpl. split; [tauto|].
         intros [?|([<-|?] & ? & c & Hc & Hq)]; [tauto| |right; eauto].
         rewrite Ec in Hc. injection Hc as <-. rewrite Eq in Hq. by destruct Hq. }
    destruct (fetchAndEnrichSection src config globalSeen recent) as [[data|e] seen1] eqn:Estep;
      [|discriminate].
    rewrite (IH _ _ _ _ _ Hrun), lookup_insert_is_Some. simpl. split.
    + intros [[->|[_ ?]]|(? & ? & ?)]; [|tauto..].
      right. split; [by left|]. split; [done|]. exists config. by rewrite Eq.
    + intros [?|([<-|?] & ? & ?)]; [| |tauto].
      * destruct (decide (i = sid)); [left; by left|left; right; by split].
      * left. by left.
Qed.

(** The budgets declared in [SECTIONS] are not negative. *)
Lemma SECTIONS_budgets (sid : string) (config : SectionConfig) :
  SECTIONS !! sid = Some config ->
  0 <= secondary (budget config) /\ 0 <= quickHits (budget config).
Proof.
  intros Hc.
  assert (map_Forall (fun _ c => 0 <= secondary (budget c) /\ 0 <= quickHits (budget c))
                     SECTIONS) as Hall.
  { apply (bool_decide_unpack _). vm_compute. exact I. }
  exact (Hall sid config Hc).
Qed.

Lemma secondary_length (rs : list ScoredRepo) (budget : Budget) :
  0 <= secondary budget ->
  Z.of_nat (length (cat_secondary (categorizeDiverseForSection rs budget))) <= secondary budget.
Proof.
  intros Hsec. destruct rs as [|r rs]; [simpl; lia|].
  pose proof (claimed_length (r :: rs) budget Hsec) as Hlen.
  unfold claimedOf in Hlen. rewrite length_app in Hlen.
  destruct (lead (categorizeDiverseForSection (r :: rs) budget)) eqn:El.
  - change (length (option_list (Some s))) with 1%nat in Hlen. lia.
  - by apply lead_None_iff in El.
Qed.

(** X10: the sections of a run stay within their budgets:
    in the result of [fetchAllSections] the front page has a lead, at most
    6 secondary candidates and at most 8 quick-hits (only the 15 best
    candidates are allocated), and every topic section has at most as many
    secondary candidates and quick-hits as its entry in [SECTIONS] allows. *)
Theorem sections_stay_within_their_budgets
    (src : Source) (recent : gset string) (sections : gmap string Display.SectionData) :
  fetchAllSections src recent = Ok sections ->
  (exists d, sections !! "frontPage" = Some d /\
     is_Some (Display.sd_lead d) /\
     (length (Display.sd_secondary d) <= 6)%nat /\
     (length (Display.sd_quickHits d) <= 8)%nat)
  /\ (forall sid d config,
        sid <> "frontPage" ->
        sections !! sid = Some d -> SECTIONS !! sid = Some config ->
        Z.of_nat (length (Display.sd_secondary d)) <= secondary (budget config) /\
        Z.of_nat (length (Display.sd_quickHits d)) <= quickHits (budget config)).
Proof.
  unfold fetchAllSections. intros Hrun.
  destruct (fetchAndEnrich src recent) as [fp|e] eqn:Efp; [|discriminate].
  destruct (fetchTopicSections src recent SECTION_ORDER {[ "frontPage" := fp ]}
              (headlinerNames fp)) as [res seen] eqn:Etopics.
  cbn [fst] in Hrun. subst res.
  split.
  - exists fp.
    assert (sections !! "frontPage" = Some fp) as Hfp.
    { pose proof (fun d => fetchTopicSections_lookup src recent _ _ _ _ _ "frontPage" d Etopics)
        as Hl.
      destruct (sections !! "frontPage") as [d|] eqn:Ed.
      - destruct (Hl d eq_refl) as [Hin|[Hne _]]; [|done].
        by rewrite lookup_singleton_eq in Hin.
      - pose proof (proj2 (fetchTopicSections_keys src recent _ _ _ _ _ "frontPage" Etopics))
          as Hk.
        rewrite Ed in Hk. destruct Hk as [? [=]]. left. by rewrite lookup_singleton_eq. }
    split; [done|].
    unfold fetchAndEnrich in Efp.
    destruct (fetchTrending src recent) as [c|] eqn:Et; [|discriminate].
    unfold fetchTrending in Et.
    destruct (search src QueryNew) as [a|] eqn:Ea; [|discriminate].
    destruct (search src QueryEstablished) as [b|] eqn:Eb; [|discriminate].
    destruct (fetchAndEnrich_result src recent a b Ea Eb) as (rs & _ & Hlen & _ & Hres).
    unfold fetchAndEnrich in Hres. unfold fetchTrending in Hres. rewrite Ea, Eb, Et in Hres.
    destruct (lead c); [|discriminate]. rewrite Hres in Efp.
    destruct (lead (categorizeDiverse rs)) as [h|]; [|discriminate]. injection Efp as <-.
    cbn [Display.sd_lead Display.sd_secondary Display.sd_quickHits].
    split; [done|]. rewrite !length_map.
    pose proof (secondary_length rs {| secondary := 6; quickHits := 10 |} ltac:(simpl; lia)) as Hs.
    pose proof (claimed_length rs {| secondary := 6; quickHits := 10 |} ltac:(simpl; lia)) as Hc.
    pose proof (submseteq_length _ _
                  (categorize_submseteq rs {| secondary := 6; quickHits := 10 |})) as Hq.
    rewrite length_app in Hq. unfold categorizeDiverse. cbn [secondary] in *. lia.
  - intros sid d config Hne Hd Hc.
    destruct (fetchTopicSections_lookup src recent _ _ _ _ _ sid d Etopics Hd)
      as [Hin|(_ & config' & seen0 & seen1 & Hc' & Hstep)].
    { rewrite lookup_singleton_ne in Hin by done. discriminate. }
    rewrite Hc in Hc'. injection Hc' as <-.
    destruct (SECTIONS_budgets sid config Hc) as [Hsec Hqh].
    unfold fetchAndEnrichSection in Hstep.
    destruct (query config) as [q|] eqn:Eq; [|discriminate].
    destruct (fetchAndEnrichSection_result src config seen0 recent q Eq) as [seen' Hres].
    cbv zeta in Hres. unfold fetchAndEnrichSection in Hres. rewrite Eq in Hres.
    rewrite Hres in Hstep. injection Hstep as <- _.
    cbn [Display.sd_secondary Display.sd_quickHits]. rewrite !length_map.
    split; [by apply secondary_length|by apply quickHits_length].
Qed.

Lemma sections_stay_within_their_budgets_witness :
  (exists d, demoSections !! "frontPage" = Some d /\
     is_Some (Display.sd_lead d) /\
     (length (Display.sd_secondary d) <= 6)%nat /\
     (length (Display.sd_quickHits d) <= 8)%nat)
  /\ (forall sid d config,
        sid <> "frontPage" ->
        demoSections !! sid = Some d -> SECTIONS !! sid = Some config ->
        Z.of_nat (length (Display.sd_secondary d)) <= secondary (budget config) /\
        Z.of_nat (length (Display.sd_quickHits d)) <= quickHits (budget config)).
Proof.
  apply (sections_stay_within_their_budgets demoSource ∅ demoSections).
  vm_compute. reflexivity.
Defined.

(** X11: when a run of [fetchAllSections] fails and what it
    returns: it fails when one of the two front-page searches is
    rejected, and with "No repos found" when both searches and the trend
    aggregator answer no repository at all; in every other case it
    returns a map whose keys are exactly the front page and the five
    topic sections (X Pulse has no query and is not fetched); a rejected
    topic or language query never fails the run. *)
Theorem fetchAllSections_outcome (src : Source) (recent : gset string) :
  match search src QueryNew, search src QueryEstablished with
  | Some a, Some b =>
      match a ++ b ++ fetchOSSInsightTrending src with
      | [] => fetchAllSections src recent = Err "No repos found"
      | _ :: _ =>
          exists sections,
            fetchAllSections src recent = Ok sections /\
            forall sid, is_Some (sections !! sid) <-> In sid fetchedSections
      end
  | _, _ => exists e, fetchAllSections src recent = Err e
  end.
Proof.
  unfold fetchAllSections.
  destruct (search src QueryNew) as [a|] eqn:Ea.
  2: { unfold fetchAndEnrich, fetchTrending. rewrite Ea. by eexists. }
  destruct (search src QueryEstablished) as [b|] eqn:Eb.
  2: { unfold fetchAndEnrich, fetchTrending. rewrite Ea, Eb. by eexists. }
  destruct (fetchAndEnrich_result src recent a b Ea Eb) as (rs & _ & _ & Hnil & ->).
  destruct (a ++ b ++ fetchOSSInsightTrending src) as [|x pool].
  - by rewrite (proj2 Hnil eq_refl).
  - destruct (lead (categorizeDiverse rs)) as [h|] eqn:El.
    2: { apply lead_None_iff in El; [|simpl; lia]. discriminate (proj1 Hnil El). }
    match goal with
    | |- context [fetchTopicSections src recent SECTION_ORDER ?m ?g] =>
        destruct (fetchTopicSections_total src recent SECTION_ORDER m g)
          as (sections & seen & Hrun)
    end.
    exists sections. rewrite Hrun. split; [done|]. intros sid.
    rewrite (fetchTopicSections_keys src recent _ _ _ _ _ sid Hrun).
    rewrite lookup_singleton_is_Some. unfold fetchedSections, SECTION_ORDER. split.
    + intros [<-|(Hin & Hne & config & Hc & Hq)]; [by left|].
      simpl in Hin.
      destruct Hin as [<-|[<-|[<-|[<-|[<-|[<-|[<-|[]]]]]]]]; simpl; try tauto.
      vm_compute in Hc. injection Hc as <-. by destruct Hq.
    + simpl.
      intros [<-|[<-|[<-|[<-|[<-|[<-|[]]]]]]]; [by left|right..];
        (split; [tauto|]; split; [done|]; eexists; split; [vm_compute; reflexivity|done]).
Qed.

(** *** No repository twice in a section *)

Lemma submseteq_NoDup {A} (l k : list A) : l ⊆+ k -> NoDup k -> NoDup l.
Proof.
  intros Hsub Hnd. apply submseteq_Permutation in Hsub as [k' Hk].
  rewrite Hk in Hnd. by apply NoDup_app in Hnd as [? _].
Qed.

Lemma listedNames_categorized (src : Source) (c : Categorized) :
  listedNames
    {| Display.sd_lead := (fun r : ScoredRepo => enrichRepo src r) <$> lead c;
       Display.sd_secondary := map (fun r : ScoredRepo => enrichRepo src r) (cat_secondary c);
       Display.sd_quickHits := map (fun r : ScoredRepo => toQuickHit r) (cat_quickHits c) |}
  = scoredNames (claimedOf c ++ cat_quickHits c).
Proof.
  unfold listedNames, claimedOf. cbn [Display.sd_lead Display.sd_secondary Display.sd_quickHits].
  rewrite !map_app, !map_map. by destruct (lead c).
Qed.

Lemma fetchAndEnrichSection_NoDup (src : Source) (config : SectionConfig)
    (globalSeen recent : gset string) (data : Display.SectionData) (globalSeen' : gset string) :
  fetchAndEnrichSection src config globalSeen recent = (Ok data, globalSeen') ->
  NoDup (listedNames data).
Proof.
  intros Hrun. destruct (query config) as [q|] eqn:Eq.
  2: { unfold fetchAndEnrichSection in Hrun. by rewrite Eq in Hrun. }
  destruct (fetchAndEnrichSection_result src config globalSeen recent q Eq) as [seen Hres].
  cbv zeta in Hres. rewrite Hres in Hrun. injection Hrun as <- _.
  rewrite listedNames_categorized.
  eapply submseteq_NoDup; [apply fmap_submseteq, categorize_submseteq|].
  rewrite sortByScoreDesc_perm, scored_names.
  apply NoDup_names_filter, fetchSectionRepos_NoDup.
Qed.

Lemma fetchAndEnrich_NoDup (src : Source) (recent : gset string) (data : Display.SectionData) :
  fetchAndEnrich src recent = Ok data -> NoDup (listedNames data).
Proof.
  intros Hrun.
  assert (exists a b, search src QueryNew = Some a /\ search src QueryEstablished = Some b)
    as (a & b & Ea & Eb).
  { unfold fetchAndEnrich, fetchTrending in Hrun.
    destruct (search src QueryNew); [|discriminate].
    destruct (search src QueryEstablished); [|discriminate]. by eexists _, _. }
  destruct (fetchAndEnrich_result src recent a b Ea Eb) as (rs & Hnd & _ & _ & Hres).
  rewrite Hres in Hrun. destruct (lead (categorizeDiverse rs)) as [h|] eqn:Eh; [|discriminate].
  injection Hrun as <-.
  pose proof (listedNames_categorized src (categorizeDiverse rs)) as Hl.
  rewrite Eh in Hl. cbn [fmap option_fmap option_map] in Hl. rewrite Hl.
  eapply submseteq_NoDup; [apply fmap_submseteq, categorize_submseteq|done].
Qed.

(** X12: no section lists a repository twice: in the result of
    [fetchAllSections] the names of the lead, the secondary candidates and
    the quick-hits of one section are pairwise different. *)
Theorem no_section_lists_a_repository_twice
    (src : Source) (recent : gset string) (sections : gmap string Display.SectionData)
    (sid : string) (d : Display.SectionData) :
  fetchAllSections src recent = Ok sections ->
  sections !! sid = Some d ->
  NoDup (listedNames d).
Proof.
  unfold fetchAllSections. intros Hrun Hd.
  destruct (fetchAndEnrich src recent) as [fp|e] eqn:Efp; [|discriminate].
  destruct (fetchTopicSections src recent SECTION_ORDER {[ "frontPage" := fp ]}
              (headlinerNames fp)) as [res seen] eqn:Etopics.
  cbn [fst] in Hrun. subst res.
  destruct (fetchTopicSections_lookup src recent _ _ _ _ _ sid d Etopics Hd)
    as [Hin|(_ & config & seen0 & seen1 & _ & Hstep)].
  - apply lookup_singleton_Some in Hin as [_ <-]. by apply (fetchAndEnrich_NoDup src recent).
  - by apply fetchAndEnrichSection_NoDup in Hstep.
Qed.

Lemma no_section_lists_a_repository_twice_witness :
  exists d, demoSections !! "ai" = Some d /\ NoDup (listedNames d).
Proof.
  eexists. split; [vm_compute; reflexivity|].
  eapply (no_section_lists_a_repository_twice demoSource ∅ demoSections "ai").
  - vm_compute. reflexivity.
  - vm_compute. reflexivity.
Defined.

End FetchLaws.

(** ** Further properties of the parsers *)

Module ParseLaws.

Import Display Xai XaiSpec ParseVocabulary ParseProps.

Lemma truthy_Some (s h : string) : Js.truthy s = Some h -> h = s /\ h <> "".
Proof.
  unfold Js.truthy. destruct (String.eqb_spec s ""); [done|]. intros [= <-]. by split.
Qed.

Lemma groupTrim_nonempty (m : option Js.Match) (h : string) :
  groupTrim m = Some h -> h <> "".
Proof.
  unfold groupTrim. destruct m as [m|]; [|done]. destruct (Js.m_group m); [|done].
  intros H. by apply truthy_Some in H as [_ ?].
Qed.

(** X13: an article is complete or flagged: [parseArticle]
    clears [_isFallback] exactly when it located both a headline and a
    body in the text, and then the article carries these two, neither of
    them empty; without a repository to fall back on, the headline is
    still never empty. *)
Theorem parsed_article_is_complete_or_flagged (text : string) (repo : option EnrichedRepo) :
  (_isFallback (parseArticle text repo) = false <->
   is_Some (parsedHeadline text) /\ is_Some (parsedBody text))
  /\ (_isFallback (parseArticle text repo) = false ->
      parsedHeadline text = Some (headline (parseArticle text repo)) /\
      parsedBody text = Some (body (parseArticle text repo)) /\
      headline (parseArticle text repo) <> "" /\
      body (parseArticle text repo) <> "")
  /\ (repo = None -> headline (parseArticle text repo) <> "").
Proof.
  unfold parseArticle, parsedHeadline, parsedBody. cbn [_isFallback headline body].
  destruct (groupTrim (lastMatch text headlineRe)) as [h|] eqn:Eh;
    destruct (parseBody text ≫= Js.truthy) as [b|] eqn:Eb; cbn.
  - split; [|split].
    + split; [by split; eexists|done].
    + intros _. repeat split; [by eapply groupTrim_nonempty|].
      destruct (parseBody text) as [b0|]; [|done]. cbn in Eb.
      by apply truthy_Some in Eb as [_ ?].
    + intros _. by eapply groupTrim_nonempty.
  - split; [|split]; [|done|].
    + split; [done|]. by intros [_ [? [=]]].
    + intros _. by eapply groupTrim_nonempty.
  - split; [|split]; [|done|].
    + split; [done|]. by intros [[? [=]] _].
    + by intros ->.
  - split; [|split]; [|done|].
    + split; [done|]. by intros [[? [=]] _].
    + by intros ->.
Qed.

(** X14: the batched summaries never lose or reorder a
    quick-hit: whatever the text, [parseQuickHits] returns the given
    repositories in the given order, each with a summary; a quick-hit no
    line answers keeps its description as summary. *)
Theorem quick_hit_summaries_keep_every_repository (text : string) (repos : list QuickHit) :
  map qh_repo (parseQuickHits text repos) = map qh_repo repos
  /\ Forall (fun q => is_Some (summary q)) (parseQuickHits text repos)
  /\ (forall i q,
        parseQuickHits text repos !! i = Some q ->
        List.find (fun l => Js.startsWith l (Js.showNat (i + 1) +:+ "."))
                  (List.filter nonBlank (Js.split text Js.nl)) = None ->
        summary q = Some (description (qh_repo q))).
Proof.
  unfold parseQuickHits. split; [|split].
  - apply list_eq. intros i.
    rewrite !list_lookup_fmap, list_lookup_imap. by destruct (repos !! i).
  - apply Forall_lookup. intros i q Hq.
    rewrite list_lookup_imap in Hq. destruct (repos !! i); [|done].
    injection Hq as <-. by eexists.
  - intros i q Hq Hnone. rewrite list_lookup_imap in Hq.
    destruct (repos !! i); [|done]. injection Hq as <-. cbn [summary qh_repo].
    by rewrite Hnone.
Qed.

(** *** X sentiment *)

Lemma includes_In (l : list string) (s : string) : includes l s = true -> In s l.
Proof.
  unfold includes. intros H. apply existsb_exists in H as (x & Hx & Heq).
  apply String.eqb_eq in Heq. by subst.
Qed.

Lemma validated_sentiment (s d : string) :
  In d VALID_SENTIMENTS ->
  In (if includes VALID_SENTIMENTS s then s else d) VALID_SENTIMENTS.
Proof. intros Hd. destruct (includes VALID_SENTIMENTS s) eqn:E; [by apply includes_In|done]. Qed.

Lemma parseXSentiment_valid (text : string) :
  In (sentiment (parseXSentiment text)) VALID_SENTIMENTS.
Proof.
  unfold parseXSentiment. destruct (String.eqb (Js.trim text) ""); [simpl; tauto|].
  cbn [sentiment]. apply validated_sentiment. simpl. tauto.
Qed.

(** X15: a sentiment reading is always one of the six
    known labels: [parseXSentiment] returns a label of
    [VALID_SENTIMENTS] for every text, marks the reading as failed
    exactly for a blank text, and never reports the placeholder "none"
    or an empty string as top post. *)
Theorem sentiment_reading_is_well_formed (text : string) :
  In (sentiment (parseXSentiment text)) VALID_SENTIMENTS
  /\ (_failed (parseXSentiment text) = true <-> Js.trim text = "")
  /\ topPost (parseXSentiment text) <> Some "none"
  /\ topPost (parseXSentiment text) <> Some "".
Proof.
  split; [apply parseXSentiment_valid|]. unfold parseXSentiment.
  destruct (String.eqb_spec (Js.trim text) "") as [Hblank|Hblank].
  - by repeat split.
  - cbn [_failed topPost]. split; [|split].
    + by split.
    + destruct (groupTrim (lastMatch text (fieldRe "TOP_POST:"))) as [t|]; [|done].
      destruct (String.eqb_spec t "none"); congruence.
    + destruct (groupTrim (lastMatch text (fieldRe "TOP_POST:"))) as [t|] eqn:Et; [|done].
      apply groupTrim_nonempty in Et.
      destruct (String.eqb_spec t "none"); congruence.
Qed.

Lemma pulseStep_inv (items : list PulseItem) (block : string) :
  (length items <= 8)%nat /\
  Forall (fun it => topic it <> "" /\ In (pulse_sentiment it) VALID_SENTIMENTS) items ->
  (length (pulseStep items block) <= 8)%nat /\
  Forall (fun it => topic it <> "" /\ In (pulse_sentiment it) VALID_SENTIMENTS)
         (pulseStep items block).
Proof.
  intros [Hlen Hall]. unfold pulseStep.
  destruct (Nat.leb_spec 8 (length items)); [done|].
  destruct (groupTrim (lastMatch block (fieldRe "TOPIC:"))) as [t|] eqn:Et; [|done].
  split; [rewrite length_app; simpl; lia|].
  apply Forall_app. split; [done|]. constructor; [|done]. cbn [topic pulse_sentiment].
  split; [by eapply groupTrim_nonempty|].
  apply validated_sentiment. simpl. tauto.
Qed.

(** X16: the pulse holds at most eight well-formed items:
    [parseXPulse] returns at most 8 items for every text, each with a
    non-empty topic and a sentiment of [VALID_SENTIMENTS], and none for a
    blank text. *)
Theorem pulse_is_capped_and_well_formed (text : string) :
  (length (parseXPulse text) <= 8)%nat
  /\ Forall (fun it => topic it <> "" /\ In (pulse_sentiment it) VALID_SENTIMENTS)
            (parseXPulse text)
  /\ (Js.trim text = "" -> parseXPulse text = []).
Proof.
  unfold parseXPulse.
  destruct (String.eqb_spec (Js.trim text) "") as [Hblank|Hblank].
  - repeat split; [simpl; lia|constructor].
  - assert (forall blocks items,
              (length items <= 8)%nat /\
              Forall (fun it => topic it <> "" /\ In (pulse_sentiment it) VALID_SENTIMENTS) items ->
              (length (fold_left pulseStep blocks items) <= 8)%nat /\
              Forall (fun it => topic it <> "" /\ In (pulse_sentiment it) VALID_SENTIMENTS)
                     (fold_left pulseStep blocks items)) as Hfold.
    { induction blocks as [|b blocks IH]; intros items Hinv; simpl; [done|].
      by apply IH, pulseStep_inv. }
    destruct (Hfold (List.filter nonBlank (Js.split text "---")) [])
      as [Hlen Hall]; [split; [simpl; lia|constructor]|].
    by repeat split.
Qed.

(** *** What a capture group of [(.+)] holds *)

Lemma rep_greedy_prefix {X : Type} (c : ascii -> bool) : forall s prev
    (k : option ascii -> string -> option X) x,
  Js.rep_greedy c prev s k = Some x ->
  exists pre p' s',
    s = pre +:+ s' /\ Forall (fun a => c a = true) (list_ascii_of_string pre) /\
    k p' s' = Some x.
Proof.
  induction s as [|a s IH]; intros prev k x H; simpl in H.
  - exists "", prev, "". by repeat split.
  - destruct (c a) eqn:Ea.
    + destruct (Js.rep_greedy c (Some a) s k) as [y|] eqn:E.
      * injection H as <-. destruct (IH _ _ _ E) as (pre & p' & s' & -> & Hpre & Hk).
        exists (String a pre), p', s'. split; [done|]. split; [by constructor|done].
      * exists "", prev, (String a s). by repeat split.
    + exists "", prev, (String a s). by repeat split.
Qed.

Lemma substring_prefix (pre s : string) :
  String.substring 0 (String.length pre) (pre +:+ s) = pre.
Proof.
  induction pre as [|a pre IH]; simpl.
  - by destruct s.
  - by rewrite IH.
Qed.

Lemma length_append (pre s : string) :
  String.length (pre +:+ s) = (String.length pre + String.length s)%nat.
Proof. induction pre as [|a pre IH]; simpl; [done|]. by rewrite IH. Qed.

Lemma run_Seq {X : Type} (a b : Js.Re) prev s cap
    (k : option ascii -> string -> option string -> option X) :
  Js.run (Js.Seq a b) prev s cap k
  = Js.run a prev s cap (fun p' s' cap' => Js.run b p' s' cap' k).
Proof. done. Qed.

(** Any match ends in its continuation. *)
Lemma run_some {X : Type} (r : Js.Re) : forall prev s cap
    (k : option ascii -> string -> option string -> option X) x,
  Js.run r prev s cap k = Some x -> exists p' s' cap', k p' s' cap' = Some x.
Proof.
  induction r as [l|greedy atLeastOne c|a IHa b IHb|a IHa b IHb|a IHa| | |];
    intros prev s cap k x H; cbn [Js.run] in H.
  - destruct (Js.lit l prev s) as [[p' s']|]; [eauto|discriminate].
  - assert (forall p s0, (if greedy then Js.rep_greedy else Js.rep_lazy) c p s0
                           (fun p' s' => k p' s' cap) = Some x ->
                         exists p' s' cap', k p' s' cap' = Some x) as Hrest.
    { intros p s0 H0. destruct greedy.
      - apply rep_greedy_some in H0 as (p' & s' & ?). eauto.
      - apply rep_lazy_some in H0 as (p' & s' & ?). eauto. }
    destruct atLeastOne; [|by eapply Hrest].
    destruct s as [|a0 s0]; [discriminate|]. destruct (c a0); [by eapply Hrest|discriminate].
  - apply IHa in H as (p1 & s1 & c1 & H). by apply IHb in H.
  - destruct (Js.run a prev s cap k) as [y|] eqn:E.
    + injection H as <-. by eapply IHa.
    + by eapply IHb.
  - apply IHa in H as (p1 & s1 & c1 & H). eauto.
  - destruct prev; [discriminate|eauto].
  - destruct s; [eauto|discriminate].
  - destruct (xorb _ _); [eauto|discriminate].
Qed.

(** A match of [(.+)] captures a non-empty run of characters other than
    line terminators. *)
Lemma run_group_dot {X : Type} prev s cap
    (k : option ascii -> string -> option string -> option X) x :
  Js.run (Js.Group (Js.Rep true true Js.isDot)) prev s cap k = Some x ->
  exists p' s' g, k p' s' (Some g) = Some x /\ singleLine g.
Proof.
  cbn [Js.run]. destruct s as [|a s]; [discriminate|].
  destruct (Js.isDot a) eqn:Ea; [|discriminate]. intros H.
  apply rep_greedy_prefix in H as (pre & p' & s' & -> & Hpre & Hk).
  exists p', s', (String a pre). split; [|by constructor].
  replace (String.length (String a (pre +:+ s')) - String.length s')%nat
    with (S (String.length pre)) in Hk by (simpl; rewrite length_append; lia).
  simpl in Hk. by rewrite substring_prefix in Hk.
Qed.

Lemma exec_headline_group prev s len cap :
  Js.exec headlineRe prev s = Some (len, cap) -> exists g, cap = Some g /\ singleLine g.
Proof.
  unfold Js.exec, headlineRe. rewrite run_Seq. intros H.
  apply run_some in H as (p1 & s1 & c1 & H). rewrite run_Seq in H.
  apply run_some in H as (p2 & s2 & c2 & H). rewrite run_Seq in H.
  apply run_some in H as (p3 & s3 & c3 & H). rewrite run_Seq in H.
  apply run_some in H as (p4 & s4 & c4 & H).
  apply run_group_dot in H as (p5 & s5 & g & H & Hg).
  injection H as _ <-. by exists g.
Qed.

Lemma exec_field_group (key : string) prev s len cap :
  Js.exec (fieldRe key) prev s = Some (len, cap) -> exists g, cap = Some g /\ singleLine g.
Proof.
  unfold Js.exec, fieldRe. rewrite run_Seq. intros H.
  apply run_some in H as (p1 & s1 & c1 & H). rewrite run_Seq in H.
  apply run_some in H as (p2 & s2 & c2 & H).
  apply run_group_dot in H as (p3 & s3 & g & H & Hg).
  injection H as _ <-. by exists g.
Qed.

Lemma matchAllFrom_groups (re : Js.Re) (P : option string -> Prop) :
  (forall prev s len cap, Js.exec re prev s = Some (len, cap) -> P cap) ->
  forall s prev idx skip,
    Forall (fun m => P (Js.m_group m)) (Js.matchAllFrom re prev s idx skip).
Proof.
  intros Hexec. induction s as [|a s IH]; intros prev idx skip; simpl.
  - destruct skip; [|constructor].
    destruct (Js.exec re prev "") as [[len cap]|] eqn:E; [|constructor].
    constructor; [by eapply Hexec|constructor].
  - destruct skip; [|apply IH].
    destruct (Js.exec re prev (String a s)) as [[len cap]|] eqn:E; [|apply IH].
    constructor; [by eapply Hexec|apply IH].
Qed.

Lemma trimStart_singleLine (s : string) : singleLine s -> singleLine (Js.trimStart s).
Proof.
  unfold singleLine. induction s as [|a s IH]; simpl; [done|]. intros H.
  destruct (Js.isSpace a); [|done]. apply Forall_cons in H as [_ H]. by apply IH.
Qed.

Lemma trimEnd_singleLine (s : string) : singleLine s -> singleLine (Js.trimEnd s).
Proof.
  unfold singleLine. induction s as [|a s IH]; simpl; [done|]. intros H.
  apply Forall_cons in H as [Ha H]. specialize (IH H).
  destruct (Js.trimEnd s) as [|b t].
  - destruct (Js.isSpace a); [constructor|by repeat constructor].
  - by constructor.
Qed.

Lemma groupTrim_singleLine (text : string) (re : Js.Re) (h : string) :
  (forall prev s len cap, Js.exec re prev s = Some (len, cap) ->
                          exists g, cap = Some g /\ singleLine g) ->
  groupTrim (lastMatch text re) = Some h -> singleLine h.
Proof.
  intros Hexec. unfold groupTrim, lastMatch, Js.matchAll.
  pose proof (matchAllFrom_groups re (fun cap => exists g, cap = Some g /\ singleLine g)
                Hexec text None 0%nat 0%nat) as Hall.
  destruct (last _) as [m|] eqn:El; [|done].
  apply last_Some_elem_of in El.
  destruct (proj1 (Forall_forall _ _) Hall m El) as (g & -> & Hg).
  intros Ht. apply truthy_Some in Ht as [-> _].
  by apply trimEnd_singleLine, trimStart_singleLine.
Qed.

(** X17: a parsed headline is a single line: the headline and
    the subheadline [parseArticle] locates in a text hold no line feed
    and no carriage return, wherever the markers stand in the text; so
    the headline of every article that is not a fallback is a single,
    non-empty line. *)
Theorem parsed_headline_is_a_single_line (text : string) (repo : option EnrichedRepo) :
  (forall h, parsedHeadline text = Some h -> singleLine h)
  /\ (forall sh, groupTrim (lastMatch text subheadlineRe) = Some sh -> singleLine sh)
  /\ (_isFallback (parseArticle text repo) = false ->
      singleLine (headline (parseArticle text repo))
      /\ headline (parseArticle text repo) <> "").
Proof.
  assert (forall h, parsedHeadline text = Some h -> singleLine h) as Hh.
  { intros h. apply groupTrim_singleLine. apply exec_headline_group. }
  split; [done|]. split.
  - intros sh. apply groupTrim_singleLine. apply (exec_field_group "SUBHEADLINE:").
  - unfold parseArticle, parsedHeadline in *. cbn [_isFallback headline].
    destruct (groupTrim (lastMatch text headlineRe)) as [h|] eqn:Eh; [|done].
    intros _. split; [by apply Hh|by eapply groupTrim_nonempty].
Qed.

End ParseLaws.

(** ** Further properties of the generation stage *)

Module GenerationLaws.

Import Display Xai XaiSpec GenerationScenarios ParseProps GenerationProps ParseLaws.

(** *** The log of backend calls *)

Lemma article_log (backend : Backend) (log : list ChatCall) (model : string)
    (promptFn : EnrichedRepo -> Prompt) (repo : EnrichedRepo) (maxTokens : Z) :
  exists ext,
    snd (generateArticleWithRetry model promptFn repo maxTokens backend log) = log ++ ext
    /\ (length ext <= 2)%nat.
Proof.
  destruct (generateArticleWithRetry_cases backend log model promptFn repo maxTokens)
    as [(raw & _ & _ & ->)
       | [(raw & retryRaw & _ & _ & _ & ->)
         | (log' & -> & [(e & _ & ->) | (raw & e & _ & _ & _ & ->)])]];
    eexists; (split; [reflexivity|simpl; lia]).
Qed.

Lemma secondary_log (backend : Backend) (repos : list EnrichedRepo) : forall log,
  exists ext,
    snd (secondaryGeneration repos backend log) = log ++ ext
    /\ (length ext <= 2 * length repos)%nat.
Proof.
  unfold secondaryGeneration.
  induction repos as [|r repos IH]; intros log; simpl.
  - exists []. rewrite app_nil_r. split; [done|simpl; lia].
  - destruct (article_log backend log SMALL_MODEL secondaryArticlePrompt r 800)
      as (ext1 & E1 & L1).
    destruct (generateArticleWithRetry_total backend log SMALL_MODEL secondaryArticlePrompt r 800)
      as (a & log1 & Ea & _).
    rewrite Ea in E1. cbn [snd] in E1. subst log1.
    rewrite (bind_run _ _ _ _ _ _ Ea).
    destruct (IH (log ++ ext1)) as (ext2 & E2 & L2).
    unfold bind at 1.
    destruct (mapM _ repos backend (log ++ ext1)) as [[rest|e] log2]; cbn [snd] in *;
      subst log2; exists (ext1 ++ ext2); rewrite <- app_assoc, length_app;
      (split; [done|lia]).
Qed.

Lemma annotatedQuickHits_log (backend : Backend) (qs : list QuickHit) (log : list ChatCall) :
  exists ext,
    snd (annotatedQuickHits qs backend log) = log ++ ext /\ (length ext <= 1)%nat.
Proof.
  unfold annotatedQuickHits. destruct qs as [|q qs].
  - exists []. simpl. rewrite app_nil_r. split; [done|simpl; lia].
  - unfold bind, chat. eexists [_].
    destruct (backend log _); (split; [reflexivity|simpl; lia]).
Qed.

(** X18: a section's generation has a bounded cost: whether it
    returns or raises, [generateSectionContent] only appends to the log of
    backend calls, at most two calls for the lead and for each secondary
    candidate and one for the quick-hit summaries; a section without a
    lead makes no call at all. *)
Theorem section_generation_has_a_call_budget
    (sectionData : SectionData) (config : Sections.SectionConfig)
    (backend : Backend) (log : list ChatCall) :
  exists ext,
    snd (generateSectionContent sectionData config backend log) = log ++ ext
    /\ (length ext <= 2 * (1 + length (sd_secondary sectionData)) + 1)%nat
    /\ (sd_lead sectionData = None -> ext = []).
Proof.
  destruct (sd_lead sectionData) as [leadRepo|] eqn:Hlead.
  2: { exists []. unfold generateSectionContent. rewrite Hlead, app_nil_r.
       split; [done|]. split; [simpl; lia|done]. }
  destruct (generateSectionContent_refines sectionData config backend log leadRepo Hlead)
    as (la & als & log1 & log2 & E1 & E2 & _ & _ & ->).
  destruct (article_log backend log
              (if String.eqb (Sections.id config) "frontPage" then BIG_MODEL else SMALL_MODEL)
              leadArticlePrompt leadRepo
              (if String.eqb (Sections.id config) "frontPage" then 2000 else 1200))
    as (ext1 & H1 & L1).
  unfold leadGeneration in E1. rewrite E1 in H1. cbn [snd] in H1. subst log1.
  destruct (secondary_log backend (sd_secondary sectionData) (log ++ ext1)) as (ext2 & H2 & L2).
  rewrite E2 in H2. cbn [snd] in H2. subst log2.
  destruct (annotatedQuickHits_log backend (sd_quickHits sectionData) ((log ++ ext1) ++ ext2))
    as (ext3 & H3 & L3).
  exists (ext1 ++ ext2 ++ ext3).
  destruct (annotatedQuickHits _ backend _) as [[annotated|e] log3]; cbn [snd] in *; subst log3;
    rewrite <- !app_assoc, !length_app; (split; [done|]; split; [lia|done]).
Qed.

(** *** Post-processing *)

Lemma good_and_fallback (l : list Article) :
  List.filter isGood l ++ List.filter isFallback l ≡ₚ l.
Proof.
  induction l as [|a l IH]; simpl; [done|].
  unfold isGood at 1, isFallback at 1. destruct (_isFallback a); simpl.
  - rewrite <- Permutation_middle. by constructor.
  - by constructor.
Qed.

Lemma map_repo_demote (l : list Article) : map qh_repo (map demote l) = map repo l.
Proof. induction l as [|a l IH]; simpl; [done|]. by rewrite IH. Qed.

Lemma annotatedQuickHits_repos (backend : Backend) (qs annotated : list QuickHit)
    (log log' : list ChatCall) :
  annotatedQuickHits qs backend log = (Ok annotated, log') ->
  map qh_repo annotated = map qh_repo qs /\ length annotated = length qs.
Proof.
  unfold annotatedQuickHits. destruct qs as [|q qs].
  - by intros [= <- _].
  - intros H. apply bind_Ok in H as (raw & log1 & _ & H). injection H as <- _.
    unfold parseQuickHits. rewrite length_imap. split; [|done].
    apply list_eq. intros i. rewrite !list_lookup_fmap, list_lookup_imap.
    by destruct ((q :: qs) !! i).
Qed.

Lemma postProcess_repos (leadArticle : Article) (allSecondary : list Article)
    (annotated : list QuickHit) :
  shownRepos (postProcess leadArticle allSecondary annotated)
  ≡ₚ repo leadArticle :: map repo allSecondary ++ map qh_repo annotated.
Proof.
  unfold shownRepos, articlesOf, postProcess.
  pose proof (good_and_fallback allSecondary) as Hperm.
  apply (Permutation_map repo) in Hperm. rewrite map_app in Hperm.
  rewrite firstGood_head.
  destruct (_isFallback leadArticle);
    [destruct (List.filter isGood allSecondary) as [|first others] eqn:Eg|];
    cbn [lead secondary quickHits head tail option_list app map];
    rewrite ?map_app, ?map_repo_demote; cbn [map app demote qh_repo].
  - simpl in Hperm. rewrite <- Hperm. simpl. solve_Permutation.
  - rewrite <- Hperm. simpl. solve_Permutation.
  - rewrite <- Hperm. simpl. solve_Permutation.
Qed.

(** X19: post-processing conserves the repositories of a
    section: whenever [generateSectionContent] returns for a section with a
    lead, the repositories it shows (as lead, secondary articles or
    quick-hits) are, up to order, exactly the repositories it was given
    (lead, secondary and quick-hit candidates): promotion and demotion
    move repositories between the groups and never drop or duplicate one. *)
Theorem section_generation_conserves_repositories
    (sectionData : SectionData) (config : Sections.SectionConfig)
    (backend : Backend) (log : list ChatCall) (content : SectionContent)
    (log' : list ChatCall) (leadRepo : EnrichedRepo) :
  generateSectionContent sectionData config backend log = (Ok content, log') ->
  sd_lead sectionData = Some leadRepo ->
  shownRepos content ≡ₚ givenRepos sectionData.
Proof.
  intros Hrun Hlead.
  destruct (generateSectionContent_refines sectionData config backend log leadRepo Hlead)
    as (la & als & log1 & log2 & _ & _ & Hla & Hals & Hres).
  rewrite Hres in Hrun.
  destruct (annotatedQuickHits _ backend log2) as [[annotated|e] log3] eqn:Eq; [|discriminate].
  injection Hrun as <- _.
  apply annotatedQuickHits_repos in Eq as [Hq _].
  rewrite postProcess_repos, Hla, Hals, Hq. unfold givenRepos. by rewrite Hlead.
Qed.

Lemma section_generation_conserves_repositories_witness :
  exists content log',
    generateSectionContent demotionTestData aiConfig leadRoutingBackend [] = (Ok content, log')
    /\ shownRepos content ≡ₚ givenRepos demotionTestData.
Proof.
  eexists _, _. split; [vm_compute; reflexivity|].
  eapply (section_generation_conserves_repositories demotionTestData aiConfig
            leadRoutingBackend []).
  - vm_compute. reflexivity.
  - reflexivity.
Defined.

(** X20: a section leads with a real article whenever one exists:
    if the lead of the section [generateSectionContent] returns is a
    fallback, then the article generated for the lead and every article
    generated for a secondary candidate were fallbacks, the returned
    secondary list is empty and the secondary candidates are all among
    the quick-hits. *)
Theorem fallback_lead_only_when_every_article_failed
    (sectionData : SectionData) (config : Sections.SectionConfig)
    (backend : Backend) (log : list ChatCall) (content : SectionContent)
    (log' : list ChatCall) (leadRepo : EnrichedRepo) (a : Article) :
  generateSectionContent sectionData config backend log = (Ok content, log') ->
  sd_lead sectionData = Some leadRepo ->
  lead content = Some a ->
  _isFallback a = true ->
  secondary content = []
  /\ (forall r, In r (sd_secondary sectionData) -> In r (map qh_repo (quickHits content)))
  /\ exists leadArticle allSecondary log1 log2,
       leadGeneration config leadRepo backend log = (Ok leadArticle, log1) /\
       secondaryGeneration (sd_secondary sectionData) backend log1 = (Ok allSecondary, log2) /\
       a = leadArticle /\
       Forall (fun x : Article => _isFallback x = true) allSecondary.
Proof.
  intros Hrun Hlead Ha Hfb.
  destruct (generateSectionContent_refines sectionData config backend log leadRepo Hlead)
    as (la & als & log1 & log2 & E1 & E2 & Hla & Hals & Hres).
  rewrite Hres in Hrun.
  destruct (annotatedQuickHits _ backend log2) as [[annotated|e] log3] eqn:Eq; [|discriminate].
  injection Hrun as <- _.
  unfold postProcess in *. rewrite firstGood_head in *.
  pose proof (filter_isGood_spec als) as Hgood.
  assert (List.filter isGood als = [] /\ a = la) as [Hnone ->].
  { destruct (_isFallback la) eqn:Ela.
    - destruct (List.filter isGood als) as [|first others]; cbn in Ha.
      + by injection Ha as <-.
      + injection Ha as <-. apply Forall_cons in Hgood as [Hf _]. congruence.
    - cbn in Ha. injection Ha as <-. congruence. }
  assert (Forall (fun x : Article => _isFallback x = true) als) as Hall.
  { apply Forall_forall. intros x Hx. destruct (_isFallback x) eqn:Ex; [done|].
    assert (In x (List.filter isGood als)) as Hin.
    { apply filter_In. split; [by apply list_elem_of_In|]. unfold isGood. by rewrite Ex. }
    rewrite Hnone in Hin. done. }
  assert (List.filter isFallback als = als) as Hbad.
  { clear -Hall. induction als as [|x l IH]; [done|]. apply Forall_cons in Hall as [Hx Hl].
    simpl. unfold isFallback at 1. rewrite Hx. f_equal. by apply IH. }
  rewrite Hnone, Hfb. cbn [head lead secondary quickHits].
  split; [done|]. split.
  - intros r Hr. rewrite map_app, Hbad, map_repo_demote, Hals.
    apply in_or_app. by right.
  - by exists la, als, log1, log2.
Qed.

Lemma fallback_lead_only_when_every_article_failed_witness :
  exists content log' a,
    generateSectionContent demotionData aiConfig ramblingBackend [] = (Ok content, log')
    /\ lead content = Some a
    /\ secondary content = [].
Proof.
  eexists _, _, _. split; [vm_compute; reflexivity|]. split; [reflexivity|].
  eapply (fallback_lead_only_when_every_article_failed demotionData aiConfig
            ramblingBackend [] _ _ (makeEnrichedRepo "bad-lead")).
  - vm_compute. reflexivity.
  - reflexivity.
  - reflexivity.
  - vm_compute. reflexivity.
Defined.

(** *** The sections of an edition *)

Lemma generateSectionContent_no_lead sectionData config backend log :
  sd_lead sectionData = None ->
  generateSectionContent sectionData config backend log
  = (Ok (emptySection (sd_quickHits sectionData)), log).
Proof. intros H. unfold generateSectionContent. by rewrite H. Qed.

Lemma generateSections_total (sections : gmap string SectionData) (backend : Backend) :
  (forall log0 call qs, prompt call = quickHitPrompt qs ->
                        exists raw, backend log0 call = Ok raw) ->
  forall ids result log,
    Forall (fun sid => is_Some (Sections.SECTIONS !! sid)) ids ->
    exists result' log', generateSections sections ids result backend log = (Ok result', log').
Proof.
  intros Hq. induction ids as [|sid ids IH]; intros result log Hids; simpl.
  - by eexists _, _.
  - apply Forall_cons in Hids as [[config Hc] Hids]. rewrite Hc.
    destruct (Sections.isXPulse config); [by apply IH|].
    destruct (sections !! sid) as [d|]; [|by apply IH].
    assert (exists content log1,
              generateSectionContent d config backend log = (Ok content, log1))
      as (content & log1 & E).
    { destruct (sd_lead d) as [leadRepo|] eqn:El.
      - eapply generateSectionContent_returns; [exact El|]. right. intros log2.
        by eapply Hq.
      - rewrite generateSectionContent_no_lead by done. by eexists _, _. }
    rewrite (bind_run _ _ _ _ _ _ E). by apply IH.
Qed.

(** Every section of the result was there before, or stands for a
    section without data, or was generated from its data. *)
Lemma generateSections_lookup (sections : gmap string SectionData) (backend : Backend) :
  forall ids result log result' log' sid s,
    generateSections sections ids result backend log = (Ok result', log') ->
    result' !! sid = Some s ->
    result !! sid = Some s \/
    (In sid ids /\
     ((sections !! sid = None /\ s = emptySection []) \/
      exists d config loga logb,
        sections !! sid = Some d /\
        generateSectionContent d config backend loga = (Ok s, logb))).
Proof.
  induction ids as [|i ids IH]; intros result log result' log' sid s Hrun Hs; simpl in Hrun.
  - injection Hrun as <- <-. by left.
  - destruct (Sections.SECTIONS !! i) as [config|]; [|discriminate].
    destruct (Sections.isXPulse config).
    { destruct (IH _ _ _ _ _ _ Hrun Hs) as [?|[? ?]]; [by left|right]. split; [by right|done]. }
    destruct (sections !! i) as [d|] eqn:Ed.
    + apply bind_Ok in Hrun as (content & log1 & Hc & Hrest).
      destruct (IH _ _ _ _ _ _ Hrest Hs) as [Hin|[? ?]]; [|right; split; [by right|done]].
      destruct (decide (sid = i)) as [->|Hne].
      * rewrite lookup_insert_eq in Hin. injection Hin as <-. right. split; [by left|].
        right. by exists d, config, log, log1.
      * rewrite lookup_insert_ne in Hin by done. by left.
    + destruct (IH _ _ _ _ _ _ Hrun Hs) as [Hin|[? ?]]; [|right; split; [by right|done]].
      destruct (decide (sid = i)) as [->|Hne].
      * rewrite lookup_insert_eq in Hin. injection Hin as <-. right. split; [by left|].
        by left.
      * rewrite lookup_insert_ne in Hin by done. by left.
Qed.

Lemma generateSections_keys (sections : gmap string SectionData) (backend : Backend) :
  forall ids result log result' log' sid,
    generateSections sections ids result backend log = (Ok result', log') ->
    (is_Some (result' !! sid) <->
     is_Some (result !! sid) \/
     (In sid ids /\ exists config,
        Sections.SECTIONS !! sid = Some config /\ Sections.isXPulse config = false)).
Proof.
  induction ids as [|i ids IH]; intros result log result' log' sid Hrun; simpl in Hrun.
  - injection Hrun as <- <-. simpl. tauto.
  - destruct (Sections.SECTIONS !! i) as [config|] eqn:Ec; [|discriminate].
    destruct (Sections.isXPulse config) eqn:Ex.
    { rewrite (IH _ _ _ _ _ Hrun). simpl. split; [tauto|].
      intros [?|([<-|?] & c & Hc & Hx)]; [tauto| |right; eauto]. congruence. }
    assert (exists content log1,
              generateSections sections ids (<[i := content]> result) backend log1
              = (Ok result', log')) as (content & log1 & Hrest).
    { destruct (sections !! i).
      - apply bind_Ok in Hrun as (content & log1 & _ & Hrest). eauto.
      - eauto. }
    rewrite (IH _ _ _ _ _ Hrest), lookup_insert_is_Some. simpl. split.
    + intros [[->|[_ ?]]|(? & ?)]; [|tauto..]. right. split; [by left|]. eauto.
    + intros [?|([<-|?] & ?)]; [| |tauto].
      * destruct (decide (i = sid)); [left; by left|left; right; by split].
      * left. by left.
Qed.

(** *** Annotation *)

Lemma fetchXSentiment_total (backend : Backend) (r : EnrichedRepo) (log : list ChatCall) :
  exists x log',
    fetchXSentimentForRepo r backend log = (Ok x, log') /\ In (sentiment x) VALID_SENTIMENTS.
Proof.
  unfold fetchXSentimentForRepo, try_catch, bind, chat, ret.
  destruct (backend log _); eexists _, _; (split; [reflexivity|]).
  - apply parseXSentiment_valid.
  - simpl. tauto.
Qed.

Lemma annotateArticle_total (backend : Backend) (a : Article) (log : list ChatCall) :
  exists a' log', annotateArticle a backend log = (Ok a', log') /\ annotated a a'.
Proof.
  unfold annotateArticle.
  destruct (fetchXSentiment_total backend (repo a) log) as (x & log' & E & Hx).
  rewrite (bind_run _ _ _ _ _ _ E). eexists _, _. split; [reflexivity|].
  split; [done|]. split; [done|]. by exists x.
Qed.

Lemma annotateSecondary_total (backend : Backend) (l : list Article) : forall log,
  exists l' log', mapM annotateArticle l backend log = (Ok l', log') /\ Forall2 annotated l l'.
Proof.
  induction l as [|a l IH]; intros log; simpl.
  - eexists _, _. split; [reflexivity|constructor].
  - destruct (annotateArticle_total backend a log) as (a' & log1 & E1 & Ha).
    destruct (IH log1) as (l' & log2 & E2 & Hl).
    rewrite (bind_run _ _ _ _ _ _ E1), (bind_run _ _ _ _ _ _ E2).
    eexists _, _. split; [reflexivity|]. by constructor.
Qed.

Lemma annotateLead_total (backend : Backend) (l : option Article) (log : list ChatCall) :
  exists l' log',
    match l with
    | Some article => bind (annotateArticle article) (fun a => ret (Some a))
    | None => ret None
    end backend log = (Ok l', log') /\ option_Forall2 annotated l l'.
Proof.
  destruct l as [a|].
  - destruct (annotateArticle_total backend a log) as (a' & log1 & E1 & Ha).
    rewrite (bind_run _ _ _ _ _ _ E1). eexists _, _. split; [reflexivity|]. by constructor.
  - eexists _, _. split; [reflexivity|]. constructor.
Qed.

Lemma annotated_trans (a b c : Article) : annotated a b -> annotated b c -> annotated a c.
Proof.
  intros (Hf & Hr & _) (Hf' & Hr' & Hx). split; [congruence|]. split; [congruence|done].
Qed.

Lemma annotates_trans (s t u : SectionContent) : annotates s t -> annotates t u -> annotates s u.
Proof.
  intros (Hl & Hs & Hq & He & Hx & Hp) (Hl' & Hs' & Hq' & He' & Hx' & Hp').
  split; [|split; [|repeat split; congruence]].
  - destruct Hl; inversion Hl'; subst; constructor. by eapply annotated_trans.
  - clear -Hs Hs'. revert Hs'. generalize (secondary u).
    induction Hs as [|a b l k Hab Hlk IH]; intros m Hm; inversion Hm; subst; constructor.
    + by eapply annotated_trans.
    + by apply IH.
Qed.

(** Annotation never fails; it leaves empty sections as they are and
    annotates every article of the non-empty sections it visits. *)
Lemma annotateSections_spec (backend : Backend) : forall ids result log,
  exists result' log',
    annotateSections ids result backend log = (Ok result', log') /\
    forall sid,
      match result !! sid with
      | None => result' !! sid = None
      | Some s =>
          exists s', result' !! sid = Some s' /\
                     (s' = s \/ (isEmpty s = false /\ annotates s s')) /\
                     (In sid ids -> isEmpty s = false -> annotates s s')
      end.
Proof.
  induction ids as [|i ids IH]; intros result log; simpl.
  - eexists _, _. split; [reflexivity|]. intros sid.
    destruct (result !! sid) as [s|]; [|done]. exists s. split; [done|]. split; [by left|done].
  - destruct (result !! i) as [section|] eqn:Ei.
    2: { destruct (IH result log) as (result' & log' & E & Hspec).
         exists result', log'. split; [done|]. intros sid. specialize (Hspec sid).
         destruct (result !! sid) as [s|] eqn:Es; [|done].
         destruct Hspec as (s' & Hs' & Hor & Hin). exists s'. split; [done|]. split; [done|].
         intros [<-|Hids]; [congruence|by apply Hin]. }
    destruct (isEmpty section) eqn:Eempty.
    { destruct (IH result log) as (result' & log' & E & Hspec).
      exists result', log'. split; [done|]. intros sid. specialize (Hspec sid).
      destruct (result !! sid) as [s|] eqn:Es; [|done].
      destruct Hspec as (s' & Hs' & Hor & Hin). exists s'. split; [done|]. split; [done|].
      intros [<-|Hids]; [congruence|by apply Hin]. }
    destruct (annotateLead_total backend (lead section) log) as (lead' & log1 & E1 & Hl).
    destruct (annotateSecondary_total backend (secondary section) log1)
      as (secondary' & log2 & E2 & Hs).
    rewrite (bind_run _ _ _ _ _ _ E1), (bind_run _ _ _ _ _ _ E2).
    set (section' := {| lead := lead'; secondary := secondary';
                        quickHits := quickHits section; isEmpty := false;
                        isXPulse := isXPulse section; pulseItems := pulseItems section |}).
    assert (annotates section section') as Hann by (by repeat split).
    destruct (IH (<[i := section']> result) log2) as (result' & log' & E & Hspec).
    exists result', log'. split; [done|]. intros sid. specialize (Hspec sid).
    destruct (decide (sid = i)) as [->|Hne].
    + rewrite lookup_insert_eq in Hspec. rewrite Ei.
      destruct Hspec as (s' & Hs' & Hor & _). exists s'. split; [done|].
      assert (annotates section s') as Hfinal.
      { destruct Hor as [->|[_ Hor]]; [done|]. by eapply annotates_trans. }
      split; [right; by split|done].
    + rewrite lookup_insert_ne in Hspec by done.
      destruct (result !! sid) as [s|]; [|done].
      destruct Hspec as (s' & Hs' & Hor & Hin). exists s'. split; [done|]. split; [done|].
      intros [?|Hids]; [congruence|by apply Hin].
Qed.

Lemma fetchXPulse_total (backend : Backend) (log : list ChatCall) :
  exists items log', fetchXPulse backend log = (Ok items, log').
Proof.
  unfold fetchXPulse, try_catch, bind, chat, ret. destruct (backend log _); by eexists _, _.
Qed.

Lemma SECTION_ORDER_configured :
  Forall (fun sid => is_Some (Sections.SECTIONS !! sid)) Sections.SECTION_ORDER.
Proof. repeat constructor; by eexists. Qed.

(** X21: an edition is generated unless a quick-hit summary call
    fails: with a backend that answers every quick-hit summary prompt,
    [generateAllContent] returns content for every input, whatever
    happens to the article, sentiment and pulse calls (their failures are
    absorbed by fallbacks). *)
Theorem generation_fails_only_on_quick_hit_summaries
    (sections : gmap string SectionData) (mastheadQuote : string)
    (backend : Backend) (log : list ChatCall) :
  (forall log0 call qs, prompt call = quickHitPrompt qs ->
                        exists raw, backend log0 call = Ok raw) ->
  exists content log',
    generateAllContent sections mastheadQuote backend log = (Ok content, log').
Proof.
  intros Hq. unfold generateAllContent.
  destruct (generateSections_total sections backend Hq Sections.SECTION_ORDER ∅ log
              SECTION_ORDER_configured) as (r1 & log1 & E1).
  destruct (annotateSections_spec backend Sections.SECTION_ORDER r1 log1)
    as (r2 & log2 & E2 & _).
  destruct (fetchXPulse_total backend log2) as (items & log3 & E3).
  rewrite (bind_run _ _ _ _ _ _ E1), (bind_run _ _ _ _ _ _ E2), (bind_run _ _ _ _ _ _ E3).
  by eexists _, _.
Qed.

Lemma generation_fails_only_on_quick_hit_summaries_witness :
  exists content log',
    generateAllContent frontPageOnly "All the code that is fit to print" ramblingBackend []
    = (Ok content, log').
Proof.
  apply (generation_fails_only_on_quick_hit_summaries frontPageOnly
           "All the code that is fit to print" ramblingBackend []).
  intros log0 call qs _. eexists. reflexivity.
Defined.

(** The three stages of [generateAllContent]. *)
Lemma generateAllContent_stages
    (sections : gmap string SectionData) (mastheadQuote : string)
    (backend : Backend) (log : list ChatCall) (content : Content) (log' : list ChatCall) :
  generateAllContent sections mastheadQuote backend log = (Ok content, log') ->
  exists r1 log1 r2 log2 items,
    generateSections sections Sections.SECTION_ORDER ∅ backend log = (Ok r1, log1) /\
    annotateSections Sections.SECTION_ORDER r1 backend log1 = (Ok r2, log2) /\
    content =
      {| Xai.sections :=
           <["xPulse" := {| lead := None; secondary := []; quickHits := [];
                            isEmpty := (length items =? 0)%nat;
                            isXPulse := true; pulseItems := items |}]> r2;
         tagline := mastheadQuote |}.
Proof.
  intros Hrun. unfold generateAllContent in Hrun.
  apply bind_Ok in Hrun as (r1 & log1 & H1 & Hrun).
  apply bind_Ok in Hrun as (r2 & log2 & H2 & Hrun).
  apply bind_Ok in Hrun as (items & log3 & _ & Hrun).
  injection Hrun as <- _. by exists r1, log1, r2, log2, items.
Qed.

Lemma generated_keys (sections : gmap string SectionData) (backend : Backend)
    (log : list ChatCall) (r1 : gmap string SectionContent) (log1 : list ChatCall) (sid : string) :
  generateSections sections Sections.SECTION_ORDER ∅ backend log = (Ok r1, log1) ->
  (is_Some (r1 !! sid) <-> In sid Sections.SECTION_ORDER /\ sid <> "xPulse").
Proof.
  intros H1. rewrite (generateSections_keys sections backend _ _ _ _ _ sid H1).
  rewrite lookup_empty. unfold Sections.SECTION_ORDER. split.
  - intros [[? [=]]|(Hin & config & Hc & Hx)]. split; [done|]. intros ->.
    vm_compute in Hc. injection Hc as <-. done.
  - intros [Hin Hne]. right. split; [done|]. simpl in Hin.
    destruct Hin as [<-|[<-|[<-|[<-|[<-|[<-|[<-|[]]]]]]]]; try done;
      (eexists; split; [vm_compute; reflexivity|done]).
Qed.

(** The sections of an edition, by key. *)
Lemma edition_sections
    (sections : gmap string SectionData) (mastheadQuote : string)
    (backend : Backend) (log : list ChatCall) (content : Content) (log' : list ChatCall) :
  generateAllContent sections mastheadQuote backend log = (Ok content, log') ->
  tagline content = mastheadQuote
  /\ (forall sid, is_Some (Xai.sections content !! sid) <-> In sid Sections.SECTION_ORDER)
  /\ (forall sid, In sid Sections.SECTION_ORDER -> sid <> "xPulse" ->
        sections !! sid = None ->
        Xai.sections content !! sid = Some (emptySection []))
  /\ (forall sid d, In sid Sections.SECTION_ORDER -> sid <> "xPulse" ->
        sections !! sid = Some d -> sd_lead d = None ->
        Xai.sections content !! sid = Some (emptySection (sd_quickHits d))).
Proof.
  intros Hrun.
  apply generateAllContent_stages in Hrun as (r1 & log1 & r2 & log2 & items & H1 & H2 & ->).
  cbn [Xai.sections tagline].
  destruct (annotateSections_spec backend Sections.SECTION_ORDER r1 log1)
    as (r2' & log2' & E2 & Hspec).
  rewrite E2 in H2. injection H2 as <- <-.
  assert (forall sid s, In sid Sections.SECTION_ORDER -> sid <> "xPulse" ->
            r1 !! sid = Some s -> isEmpty s = true -> r2' !! sid = Some s) as Hkeep.
  { intros sid s _ _ Hs He. specialize (Hspec sid). rewrite Hs in Hspec.
    destruct Hspec as (s' & Hs' & [->|[? _]] & _); [done|congruence]. }
  assert (forall sid, In sid Sections.SECTION_ORDER -> sid <> "xPulse" ->
            exists s, r1 !! sid = Some s) as Hthere.
  { intros sid Hin Hne. by apply (generated_keys sections backend log r1 log1 sid H1). }
  split; [done|]. split; [|split].
  - intros sid. rewrite lookup_insert_is_Some.
    assert (is_Some (r2' !! sid) <-> is_Some (r1 !! sid)) as ->.
    { specialize (Hspec sid). destruct (r1 !! sid) as [s|].
      - destruct Hspec as (s' & -> & _). split; by eexists.
      - rewrite Hspec. done. }
    rewrite (generated_keys sections backend log r1 log1 sid H1).
    split.
    + intros [<-|[_ [? _]]]; [|done]. simpl. tauto.
    + intros Hin. destruct (decide ("xPulse" = sid)); [by left|right]. by repeat split.
  - intros sid Hin Hne Hnone. rewrite lookup_insert_ne by done.
    destruct (Hthere sid Hin Hne) as [s Hs].
    destruct (generateSections_lookup sections backend _ _ _ _ _ sid s H1 Hs)
      as [Hin0|(_ & [[_ ->]|(d & config & loga & logb & Hd & _)])].
    + by rewrite lookup_empty in Hin0.
    + by apply Hkeep.
    + congruence.
  - intros sid d Hin Hne Hd Hlead. rewrite lookup_insert_ne by done.
    destruct (Hthere sid Hin Hne) as [s Hs].
    destruct (generateSections_lookup sections backend _ _ _ _ _ sid s H1 Hs)
      as [Hin0|(_ & [[Hnone _]|(d' & config & loga & logb & Hd' & Hgen)])].
    + by rewrite lookup_empty in Hin0.
    + congruence.
    + rewrite Hd in Hd'. injection Hd' as <-.
      rewrite generateSectionContent_no_lead in Hgen by done. injection Hgen as <- _.
      by apply Hkeep.
Qed.

(** X22: an edition has every section: the content
    [generateAllContent] returns carries the masthead quote as tagline
    and exactly one section for each id of [SECTION_ORDER]; a section
    with no data is the empty section, and a section whose data has no
    lead is the empty section holding the data's quick-hits as given,
    without summaries. *)
Theorem generated_content_has_every_section
    (sections : gmap string SectionData) (mastheadQuote : string)
    (backend : Backend) (log : list ChatCall) (content : Content) (log' : list ChatCall) :
  generateAllContent sections mastheadQuote backend log = (Ok content, log') ->
  tagline content = mastheadQuote
  /\ (forall sid, is_Some (Xai.sections content !! sid) <-> In sid Sections.SECTION_ORDER)
  /\ (forall sid, In sid Sections.SECTION_ORDER -> sid <> "xPulse" ->
        sections !! sid = None ->
        Xai.sections content !! sid = Some (emptySection []))
  /\ (forall sid d, In sid Sections.SECTION_ORDER -> sid <> "xPulse" ->
        sections !! sid = Some d -> sd_lead d = None ->
        Xai.sections content !! sid = Some (emptySection (sd_quickHits d))).
Proof. apply edition_sections. Qed.

Lemma generated_content_has_every_section_witness :
  exists content log',
    generateAllContent ∅ "tagline" pulseBackend [] = (Ok content, log')
    /\ tagline content = "tagline"
    /\ (forall sid, is_Some (Xai.sections content !! sid) <-> In sid Sections.SECTION_ORDER)
    /\ (forall sid, In sid Sections.SECTION_ORDER -> sid <> "xPulse" ->
          (∅ : gmap string SectionData) !! sid = None ->
          Xai.sections content !! sid = Some (emptySection []))
    /\ (forall sid d, In sid Sections.SECTION_ORDER -> sid <> "xPulse" ->
          (∅ : gmap string SectionData) !! sid = Some d -> sd_lead d = None ->
          Xai.sections content !! sid = Some (emptySection (sd_quickHits d))).
Proof.
  eexists _, _. split; [vm_compute; reflexivity|].
  eapply (generated_content_has_every_section ∅ "tagline" pulseBackend []).
  vm_compute. reflexivity.
Defined.

(** What the generation and annotation stages leave in a section of the
    edition other than X Pulse. *)
Lemma edition_section
    (sections : gmap string SectionData) (mastheadQuote : string)
    (backend : Backend) (log : list ChatCall) (content : Content) (log' : list ChatCall)
    (sid : string) (s : SectionContent) :
  generateAllContent sections mastheadQuote backend log = (Ok content, log') ->
  Xai.sections content !! sid = Some s ->
  sid <> "xPulse" ->
  exists s0,
    (s0 = emptySection [] \/
     exists d config loga logb, generateSectionContent d config backend loga = (Ok s0, logb))
    /\ ((isEmpty s0 = true /\ s = s0) \/ (isEmpty s0 = false /\ annotates s0 s)).
Proof.
  intros Hrun Hs Hne.
  apply generateAllContent_stages in Hrun as (r1 & log1 & r2 & log2 & items & H1 & H2 & ->).
  cbn [Xai.sections] in Hs. rewrite lookup_insert_ne in Hs by done.
  destruct (annotateSections_spec backend Sections.SECTION_ORDER r1 log1)
    as (r2' & log2' & E2 & Hspec).
  rewrite E2 in H2. injection H2 as <- <-.
  specialize (Hspec sid). destruct (r1 !! sid) as [s0|] eqn:Es0; [|congruence].
  destruct Hspec as (s' & Hs' & Hor & Hin). rewrite Hs in Hs'. injection Hs' as <-.
  exists s0. split.
  - destruct (generateSections_lookup sections backend _ _ _ _ _ sid s0 H1 Es0)
      as [Hin0|(_ & [[_ ->]|(d & config & loga & logb & _ & Hgen)])].
    + by rewrite lookup_empty in Hin0.
    + by left.
    + right. by exists d, config, loga, logb.
  - destruct (isEmpty s0) eqn:Ee.
    + left. split; [done|]. destruct Hor as [->|[? _]]; [done|congruence].
    + right. split; [done|]. apply Hin; [|done].
      apply (generated_keys sections backend log r1 log1 sid H1). by eexists.
Qed.

Lemma generated_section_shape (d : SectionData) (config : Sections.SectionConfig)
    (backend : Backend) (loga logb : list ChatCall) (s0 : SectionContent) :
  generateSectionContent d config backend loga = (Ok s0, logb) ->
  (isEmpty s0 = true -> lead s0 = None /\ secondary s0 = [])
  /\ Forall (fun a : Article => _isFallback a = false) (secondary s0).
Proof.
  intros Hgen. destruct (sd_lead d) as [leadRepo|] eqn:Hlead.
  - destruct (generateSectionContent_refines d config backend loga leadRepo Hlead)
      as (la & als & log1 & log2 & _ & _ & _ & _ & Hres).
    rewrite Hres in Hgen.
    destruct (annotatedQuickHits _ backend log2) as [[annotated|e] log3]; [|discriminate].
    injection Hgen as <- _. unfold postProcess.
    pose proof (filter_isGood_spec als) as Hgood.
    destruct (if _isFallback la then firstGood als else None); cbn [isEmpty secondary];
      (split; [done|]); [by apply Forall_tail|done].
  - rewrite generateSectionContent_no_lead in Hgen by done. injection Hgen as <- _.
    split; [done|constructor].
Qed.

(** The articles of an edition. *)
Lemma edition_articles
    (sections : gmap string SectionData) (mastheadQuote : string)
    (backend : Backend) (log : list ChatCall) (content : Content) (log' : list ChatCall)
    (sid : string) (s : SectionContent) :
  generateAllContent sections mastheadQuote backend log = (Ok content, log') ->
  Xai.sections content !! sid = Some s ->
  Forall (fun a : Article =>
            exists x, xSentiment a = Some x /\ In (sentiment x) VALID_SENTIMENTS)
         (articlesOf s)
  /\ Forall (fun a : Article => _isFallback a = false) (secondary s).
Proof.
  intros Hrun Hs. destruct (decide (sid = "xPulse")) as [->|Hne].
  { apply generateAllContent_stages in Hrun as (r1 & log1 & r2 & log2 & items & _ & _ & ->).
    cbn [Xai.sections] in Hs. rewrite lookup_insert_eq in Hs. injection Hs as <-.
    split; constructor. }
  destruct (edition_section sections mastheadQuote backend log content log' sid s Hrun Hs Hne)
    as (s0 & Hfrom & Hto).
  assert ((isEmpty s0 = true -> lead s0 = None /\ secondary s0 = [])
          /\ Forall (fun a : Article => _isFallback a = false) (secondary s0)) as [Hempty Hgood].
  { destruct Hfrom as [->|(d & config & loga & logb & Hgen)].
    - split; [done|constructor].
    - by eapply generated_section_shape. }
  destruct Hto as [[He ->]|[He (Hl & Hsec & _)]].
  - destruct (Hempty He) as [Hl Hsec]. unfold articlesOf. rewrite Hl, Hsec. split; constructor.
  - split.
    + unfold articlesOf. apply Forall_app. split.
      * destruct Hl as [a a' (_ & _ & Hx)|]; [|constructor]. by repeat constructor.
      * clear -Hsec. induction Hsec as [|a a' l l' (_ & _ & Hx) _ IH]; constructor; done.
    + clear -Hsec Hgood. induction Hsec as [|a a' l l' (Hf & _ & _) _ IH]; [constructor|].
      apply Forall_cons in Hgood as [Ha Hgood]. constructor; [|by apply IH].
      change (_isFallback (fields a') = false). by rewrite Hf.
Qed.

(** X23: every article of an edition carries a well-formed X
    sentiment: in the content [generateAllContent] returns, each lead
    and each secondary article of every section has an [xSentiment]
    whose label is one of [VALID_SENTIMENTS] (a failed sentiment call
    leaves the label "unknown"), and no secondary article is a fallback. *)
Theorem every_article_of_an_edition_is_annotated
    (sections : gmap string SectionData) (mastheadQuote : string)
    (backend : Backend) (log : list ChatCall) (content : Content) (log' : list ChatCall)
    (sid : string) (s : SectionContent) :
  generateAllContent sections mastheadQuote backend log = (Ok content, log') ->
  Xai.sections content !! sid = Some s ->
  Forall (fun a : Article =>
            exists x, xSentiment a = Some x /\ In (sentiment x) VALID_SENTIMENTS)
         (articlesOf s)
  /\ Forall (fun a : Article => _isFallback a = false) (secondary s).
Proof. apply edition_articles. Qed.

Lemma every_article_of_an_edition_is_annotated_witness :
  exists content log' s,
    generateAllContent frontPageOnly "tagline" leadRoutingBackend [] = (Ok content, log')
    /\ Xai.sections content !! "frontPage" = Some s
    /\ Forall (fun a : Article =>
                 exists x, xSentiment a = Some x /\ In (sentiment x) VALID_SENTIMENTS)
              (articlesOf s)
    /\ Forall (fun a : Article => _isFallback a = false) (secondary s).
Proof.
  eexists _, _, _. split; [vm_compute; reflexivity|]. split; [vm_compute; reflexivity|].
  eapply (every_article_of_an_edition_is_annotated frontPageOnly "tagline"
            leadRoutingBackend [] _ _ "frontPage").
  - vm_compute. reflexivity.
  - vm_compute. reflexivity.
Defined.

End GenerationLaws.

(** ** The chat client *)

Module ClientProps.

Import XaiClient.

Lemma sanitizePrompt_chars (text : string) :
  list_ascii_of_string (sanitizePrompt text)
  = List.filter (fun a => negb (isControl a)) (list_ascii_of_string text).
Proof.
  induction text as [|a s IH]; simpl; [done|].
  destruct (isControl a); simpl; by rewrite IH.
Qed.

Lemma sanitizePrompt_clean (text : string) :
  Forall (fun a => isControl a = false) (list_ascii_of_string text) ->
  sanitizePrompt text = text.
Proof.
  induction text as [|a s IH]; simpl; [done|]. intros H.
  apply Forall_cons in H as [-> H]. by rewrite IH.
Qed.

(** X24: a sanitised prompt holds no control character and
    loses nothing else: [sanitizePrompt] returns the characters of the
    text that are outside the class of control characters, in their
    order (tab, line feed and carriage return are outside the class);
    none of the class remains, a text without them is returned unchanged,
    and sanitising twice changes nothing more. *)
Theorem sanitized_prompt_has_no_control_character (text : string) :
  list_ascii_of_string (sanitizePrompt text)
    = List.filter (fun a => negb (isControl a)) (list_ascii_of_string text)
  /\ Forall (fun a => isControl a = false) (list_ascii_of_string (sanitizePrompt text))
  /\ sanitizePrompt (sanitizePrompt text) = sanitizePrompt text
  /\ (Forall (fun a => isControl a = false) (list_ascii_of_string text) ->
      sanitizePrompt text = text)
  /\ isControl "009"%char = false /\ isControl "010"%char = false
  /\ isControl "013"%char = false.
Proof.
  assert (Forall (fun a => isControl a = false) (list_ascii_of_string (sanitizePrompt text)))
    as Hclean.
  { rewrite sanitizePrompt_chars. apply Forall_forall. intros a Ha.
    apply list_elem_of_In, filter_In in Ha as [_ Ha]. by destruct (isControl a). }
  split; [apply sanitizePrompt_chars|]. split; [done|].
  split; [by apply sanitizePrompt_clean|]. split; [apply sanitizePrompt_clean|].
  by repeat split.
Qed.

Lemma test_nonempty (text : string) : test ARTICLE_MARKERS text = true -> text <> "".
Proof. by intros H ->. Qed.

(** X25: the structured output of a completion: of the trimmed
    [content] and the trimmed [reasoning] of a message,
    [pickStructuredOutput] returns the content when it holds an article
    marker, else the reasoning when that holds one, else the content
    unless it is empty; the result is empty only when both are, and
    this is exactly when [_chat] raises "Empty response" for a
    completion whose first choice is the message. *)
Theorem structured_output_is_empty_only_when_both_fields_are
    (msg : Message) (client : Client) (model prompt : string) (maxTokens : Z)
    (tools : option (list string)) (rest : list Message) :
  let c := Js.trim (Js.str_or (content msg) "") in
  let r := Js.trim (Js.str_or (reasoning msg) "") in
  (pickStructuredOutput msg = c \/ pickStructuredOutput msg = r)
  /\ (test ARTICLE_MARKERS c = true -> pickStructuredOutput msg = c)
  /\ (test ARTICLE_MARKERS c = false -> test ARTICLE_MARKERS r = true ->
      pickStructuredOutput msg = r)
  /\ (pickStructuredOutput msg = "" <-> c = "" /\ r = "")
  /\ (client {| p_model := model; p_content := sanitizePrompt prompt;
                p_max_tokens := maxTokens; p_temperature := 0.7%R; p_tools := tools |}
        = Ok (msg :: rest) ->
      _chat client model prompt maxTokens tools
        = if decide (c = "" /\ r = "")
          then Err ("Empty response from " +:+ model)
          else Ok (pickStructuredOutput msg)).
Proof.
  cbv zeta. unfold pickStructuredOutput.
  set (c := Js.trim (Js.str_or (content msg) "")).
  set (r := Js.trim (Js.str_or (reasoning msg) "")).
  assert ((if test ARTICLE_MARKERS c then c
           else if test ARTICLE_MARKERS r then r
           else if String.eqb c "" then r else c) = "" <-> c = "" /\ r = "") as Hempty.
  { destruct (test ARTICLE_MARKERS c) eqn:Ec.
    - apply test_nonempty in Ec. tauto.
    - destruct (test ARTICLE_MARKERS r) eqn:Er.
      + apply test_nonempty in Er. tauto.
      + destruct (String.eqb_spec c ""); [subst c|]; tauto. }
  split; [|split; [|split; [|split]]].
  - destruct (test ARTICLE_MARKERS c); [by left|].
    destruct (test ARTICLE_MARKERS r); [by right|].
    destruct (String.eqb c ""); [by right|by left].
  - by intros ->.
  - by intros -> ->.
  - exact Hempty.
  - intros Hclient. unfold _chat. rewrite Hclient. unfold pickStructuredOutput. fold c r.
    destruct (String.eqb_spec
                (if test ARTICLE_MARKERS c then c
                 else if test ARTICLE_MARKERS r then r
                 else if String.eqb c "" then r else c) "") as [He|He].
    + rewrite decide_True by (by apply Hempty). done.
    + rewrite decide_False by (by rewrite <- Hempty). done.
Qed.

End ClientProps.

(** ** Edition history and validation *)

Module PublishProps.

Import Display Xai XaiSpec GenerationScenarios PublishScenarios.
Import AllocatorLaws GenerationProps GenerationLaws Publish.

(** *** [getRecentRepoNames] *)

Lemma names_fold (rs : list string) (names : gset string) :
  fold_left (fun (names : gset string) name => {[ name ]} ∪ names) rs names
  = names ∪ list_to_set rs.
Proof.
  revert names. induction rs as [|n rs IH]; intros names; simpl.
  - set_solver.
  - rewrite IH. set_solver.
Qed.

Lemma entries_fold (entries : list ManifestEntry) : forall (names : gset string) n,
  n ∈ fold_left
        (fun (names : gset string) entry =>
           match repos entry with
           | None => names
           | Some rs => fold_left (fun (names : gset string) name => {[ name ]} ∪ names) rs names
           end) entries names
  <-> n ∈ names \/ exists entry rs, In entry entries /\ repos entry = Some rs /\ In n rs.
Proof.
  induction entries as [|e entries IH]; intros names n; simpl.
  - split; [by left|]. intros [?|(? & ? & [] & _)]. done.
  - rewrite IH. destruct (repos e) as [rs|] eqn:Er.
    + rewrite names_fold, elem_of_union, elem_of_list_to_set, list_elem_of_In. split.
      * intros [[?|?]|(entry & rs' & ? & ? & ?)]; [by left| |].
        -- right. exists e, rs. by repeat split; [left|..].
        -- right. exists entry, rs'. by repeat split; [right|..].
      * intros [?|(entry & rs' & [<-|?] & Hr & ?)]; [by left; left| |].
        -- rewrite Er in Hr. injection Hr as <-. left. by right.
        -- right. by exists entry, rs'.
    + split.
      * intros [?|(entry & rs' & ? & ? & ?)]; [by left|].
        right. exists entry, rs'. by repeat split; [right|..].
      * intros [?|(entry & rs' & [<-|?] & Hr & ?)]; [by left|congruence|].
        right. by exists entry, rs'.
Qed.

Lemma recent_names (file : ManifestFile) (lookback : Z) (n : string) :
  0 <= lookback ->
  (n ∈ getRecentRepoNames file lookback <->
   exists i entry rs,
     Z.of_nat i < lookback /\ readManifest file !! i = Some entry /\
     repos entry = Some rs /\ In n rs).
Proof.
  intros Hl. unfold getRecentRepoNames. rewrite entries_fold, slice_0.
  unfold Js.clampIndex. replace (lookback <? 0) with false by (symmetry; apply Z.ltb_ge; lia).
  split.
  - intros [Hn|(entry & rs & Hin & Hr & Hn)]; [set_solver|].
    apply list_elem_of_In, elem_of_take in Hin as (i & Hi & Hlt).
    exists i, entry, rs. repeat split; [lia|done..].
  - intros (i & entry & rs & Hlt & Hi & Hr & Hn). right. exists entry, rs.
    split; [|done]. apply list_elem_of_In, elem_of_take. exists i. split; [done|].
    apply lookup_lt_Some in Hi. lia.
Qed.

(** X26: the history set holds the names of the latest
    editions only: for a non-negative [lookback], a name is in
    [getRecentRepoNames(outDir, lookback)] exactly when it is listed in
    the [repos] of one of the first [lookback] entries of the manifest;
    entries without [repos] contribute nothing, and a missing or corrupt
    manifest gives the empty set. *)
Theorem recent_names_come_from_the_latest_editions
    (file : ManifestFile) (lookback : Z) (n : string) :
  0 <= lookback ->
  (n ∈ getRecentRepoNames file lookback <->
   exists i entry rs,
     Z.of_nat i < lookback /\ readManifest file !! i = Some entry /\
     repos entry = Some rs /\ In n rs)
  /\ getRecentRepoNames None lookback = ∅.
Proof.
  intros Hl. split; [by apply recent_names|].
  apply set_eq. intros x. rewrite recent_names by done. split; [|set_solver].
  by intros (i & entry & rs & _ & Hi & _).
Qed.

Lemma recent_names_come_from_the_latest_editions_witness :
  ("d/four" ∈ getRecentRepoNames olderManifest 3 <->
   exists i entry rs,
     Z.of_nat i < 3 /\ readManifest olderManifest !! i = Some entry /\
     repos entry = Some rs /\ In "d/four" rs)
  /\ getRecentRepoNames None 3 = ∅.
Proof. apply recent_names_come_from_the_latest_editions. lia. Defined.

(** *** [publish] *)

Lemma pushName_In (n x : string) : In n (pushName x) <-> n = x /\ n <> "".
Proof.
  unfold pushName. destruct (String.eqb_spec x ""); simpl; split.
  - done.
  - intros [-> ?]. done.
  - intros [<-|[]]. done.
  - intros [-> _]. by left.
Qed.

Lemma pushNames_In {A} (f : A -> string) (l : list A) (n : string) :
  In n (concat (map (fun x => pushName (f x)) l)) <-> n <> "" /\ In n (map f l).
Proof.
  rewrite in_concat. split.
  - intros (names & Hnames & Hn). apply in_map_iff in Hnames as (x & <- & Hx).
    apply pushName_In in Hn as [-> ?]. split; [done|]. by apply in_map.
  - intros [Hne Hn]. apply in_map_iff in Hn as (x & <- & Hx).
    exists (pushName (f x)). split; [by apply (in_map (fun x => pushName (f x)))|].
    by apply pushName_In.
Qed.

Lemma sectionRepos_In (s : SectionContent) (n : string) :
  In n (sectionRepos s) <-> n <> "" /\ In n (map name (shownRepos s)).
Proof.
  unfold sectionRepos, shownRepos, articlesOf.
  rewrite !map_app, !in_app_iff, !map_map.
  rewrite (pushNames_In (fun item : Article => name (repo item))).
  rewrite (pushNames_In (fun item : QuickHit => name (qh_repo item))).
  destruct (lead s) as [a|]; simpl.
  - rewrite pushName_In. intuition congruence.
  - tauto.
Qed.

Lemma published_repos (content : Content) (n : string) :
  In n (concat (map (fun kv : string * SectionContent => sectionRepos kv.2)
                    (map_to_list (sections content))))
  <-> n <> "" /\ exists sid s, sections content !! sid = Some s /\
                                In n (map name (shownRepos s)).
Proof.
  rewrite in_concat. split.
  - intros (names & Hnames & Hn). apply in_map_iff in Hnames as ([sid s] & <- & Hs).
    apply list_elem_of_In, elem_of_map_to_list in Hs.
    apply sectionRepos_In in Hn as [? ?]. split; [done|]. by exists sid, s.
  - intros (Hne & sid & s & Hs & Hn). exists (sectionRepos s). split.
    + apply (in_map (fun kv : string * SectionContent => sectionRepos kv.2) _ (sid, s)).
      by apply list_elem_of_In, elem_of_map_to_list.
    + by apply sectionRepos_In.
Qed.

(** X27: what an edition shows is history for the next
    run: after [publish] the names [getRecentRepoNames] reads back with
    lookback 1 are exactly the non-empty names of the repositories the
    published sections show (as lead, secondary article or quick-hit);
    they are in the history set for every lookback of at least 1, so in
    the next run [scoreRepo] lowers the score of each of them by 0.5. *)
Theorem published_names_are_read_back
    (content : Content) (dateStr basePath : string) (file : ManifestFile) (n : string) :
  (n ∈ getRecentRepoNames (publish content dateStr basePath file) 1 <->
   n <> "" /\ exists sid s, sections content !! sid = Some s /\
                             In n (map name (shownRepos s)))
  /\ (forall lookback, 1 <= lookback ->
        n <> "" ->
        (exists sid s, sections content !! sid = Some s /\ In n (map name (shownRepos s))) ->
        n ∈ getRecentRepoNames (publish content dateStr basePath file) lookback
        /\ forall (dateNow : Z) (candidate : Github.Repo) (now : option Z),
             Github.full_name candidate = n ->
             Github.scoreRepo dateNow candidate
               {| Github.recentRepoNames :=
                    Some (getRecentRepoNames (publish content dateStr basePath file) lookback);
                  Github.now := now |}
             = (Github.scoreRepo dateNow candidate
                  {| Github.recentRepoNames := Some ∅; Github.now := now |} - 0.5)%R).
Proof.
  split.
  - rewrite recent_names by lia. unfold publish. cbn [readManifest default]. split.
    + intros (i & entry & rs & Hi & Hentry & Hrs & Hn).
      assert (i = 0%nat) as -> by lia. cbn in Hentry. injection Hentry as <-.
      cbn [repos] in Hrs. injection Hrs as <-. by apply published_repos.
    + intros Hn. eexists 0%nat, _, _. split; [lia|]. split; [reflexivity|].
      split; [reflexivity|]. by apply published_repos.
  - intros lookback Hl Hne Hn.
    assert (n ∈ getRecentRepoNames (publish content dateStr basePath file) lookback) as Hin.
    { apply recent_names; [lia|].
      eexists 0%nat, _, _. split; [lia|]. split; [reflexivity|].
      split; [reflexivity|]. by apply published_repos. }
    split; [done|]. intros dateNow candidate now Hname. subst n.
    unfold Github.scoreRepo. cbn [Github.recentRepoNames Github.now default].
    unfold Datatypes.id. rewrite (decide_True _ _ Hin).
    by rewrite decide_False by set_solver.
Qed.

Lemma removeExisting_others (dateStr : string) (manifest : list ManifestEntry) :
  filter (fun e => date e <> dateStr) (removeExisting dateStr manifest)
  = filter (fun e => date e <> dateStr) manifest.
Proof.
  induction manifest as [|e rest IH]; simpl; [done|].
  destruct (String.eqb_spec (date e) dateStr) as [Heq|Hne].
  - by rewrite filter_cons_False by (intros H; by apply H).
  - by rewrite !filter_cons_True, IH by done.
Qed.

Lemma removeExisting_sublist (dateStr : string) (manifest : list ManifestEntry) :
  sublist (removeExisting dateStr manifest) manifest.
Proof.
  induction manifest as [|e rest IH]; simpl; [done|].
  destruct (String.eqb (date e) dateStr); [by apply sublist_cons|by apply sublist_skip].
Qed.

Lemma removeExisting_fresh (dateStr : string) (manifest : list ManifestEntry) :
  NoDup (map date manifest) -> dateStr ∉ map date (removeExisting dateStr manifest).
Proof.
  induction manifest as [|e rest IH]; simpl; intros Hnd.
  - apply not_elem_of_nil.
  - apply NoDup_cons in Hnd as [He Hrest].
    destruct (String.eqb_spec (date e) dateStr) as [<-|Hne]; [done|].
    simpl. apply not_elem_of_cons. split; [done|]. by apply IH.
Qed.

(** X28: publishing keeps one manifest entry per date:
    [publish] writes a manifest whose first entry is the new edition
    (its date, its URL under [basePath]); the entries of other dates
    follow unchanged and in their order, an earlier entry of the same
    date is replaced, and a manifest with one entry per date stays so. *)
Theorem publishing_keeps_one_entry_per_date
    (content : Content) (dateStr basePath : string) (file : ManifestFile) :
  exists entry rest,
    publish content dateStr basePath file = Some (entry :: rest)
    /\ date entry = dateStr
    /\ entry_url entry = Some (basePath +:+ "/editions/" +:+ dateStr +:+ "/")
    /\ filter (fun e => date e <> dateStr) rest
       = filter (fun e => date e <> dateStr) (readManifest file)
    /\ sublist rest (readManifest file)
    /\ (NoDup (map date (readManifest file)) -> NoDup (map date (entry :: rest))).
Proof.
  unfold publish. eexists _, _. split; [reflexivity|]. cbn [date entry_url].
  split; [done|]. split; [done|]. split; [apply removeExisting_others|].
  split; [apply removeExisting_sublist|].
  intros Hnd. cbn [map date]. apply NoDup_cons. split; [by apply removeExisting_fresh|].
  eapply sublist_NoDup; [exact Hnd|]. apply fmap_sublist, removeExisting_sublist.
Qed.

(** *** [validateContent] *)

Lemma secondary_tally (l : list Article) : forall articles fallbacks : Z,
  exists fallbacks',
    fold_left
      (fun '(articles, fallbacks) (s : Article) =>
         (articles + 1, if _isFallback s then fallbacks + 1 else fallbacks))
      l (articles, fallbacks)
    = (articles + Z.of_nat (length l), fallbacks')
    /\ fallbacks <= fallbacks'
    /\ (Forall (fun a : Article => _isFallback a = false) l -> fallbacks' = fallbacks).
Proof.
  induction l as [|a l IH]; intros articles fallbacks; simpl.
  - exists fallbacks. rewrite Z.add_0_r. by repeat split.
  - destruct (IH (articles + 1) (if _isFallback a then fallbacks + 1 else fallbacks))
      as (f' & -> & Hle & Hreal).
    exists f'. split; [f_equal; lia|]. split.
    + destruct (_isFallback a); lia.
    + intros Hall. apply Forall_cons in Hall as [Ha Hl]. rewrite Ha in Hreal. by apply Hreal.
Qed.

Lemma tallyStep_spec (t : Tally) (s : SectionContent) :
  t_sections (tallyStep t s) = t_sections t + 1
  /\ hasNonFallbackLead (tallyStep t s) = hasNonFallbackLead t || hasRealLead s
  /\ t_emptyCount t <= t_emptyCount (tallyStep t s)
  /\ t_fallbacks t <= t_fallbacks (tallyStep t s)
  /\ (Forall (fun a : Article => _isFallback a = false) (secondary s) ->
      t_fallbacks (tallyStep t s) + t_emptyCount (tallyStep t s)
        <= t_fallbacks t + t_emptyCount t + 1).
Proof.
  unfold tallyStep, hasRealLead.
  destruct (isEmpty s); cbn [negb andb].
  { cbn. rewrite orb_false_r. repeat split; lia. }
  destruct (lead s) as [l|]; [destruct (_isFallback l)|]; cbn [negb];
    match goal with
    | |- context [fold_left ?f (secondary s) (?a, ?b)] =>
        destruct (secondary_tally (secondary s) a b) as (f' & -> & Hle & Hreal)
    end; cbn; rewrite ?orb_false_r, ?orb_true_r;
    (repeat split; [lia..|]); intros Hall; rewrite (Hreal Hall); lia.
Qed.

Lemma tally_spec (l : list SectionContent) : forall t,
  t_sections (fold_left tallyStep l t) = t_sections t + Z.of_nat (length l)
  /\ hasNonFallbackLead (fold_left tallyStep l t) = hasNonFallbackLead t || existsb hasRealLead l
  /\ t_emptyCount t <= t_emptyCount (fold_left tallyStep l t)
  /\ t_fallbacks t <= t_fallbacks (fold_left tallyStep l t)
  /\ (Forall (fun s => Forall (fun a : Article => _isFallback a = false) (secondary s)) l ->
      t_fallbacks (fold_left tallyStep l t) + t_emptyCount (fold_left tallyStep l t)
        <= t_fallbacks t + t_emptyCount t + Z.of_nat (length l)).
Proof.
  induction l as [|s l IH]; intros t; simpl fold_left.
  - simpl. rewrite orb_false_r. repeat split; lia.
  - destruct (IH (tallyStep t s)) as (H1 & H2 & H3 & H4 & H5).
    destruct (tallyStep_spec t s) as (S1 & S2 & S3 & S4 & S5).
    rewrite H1, H2, S1, S2. cbn [existsb length]. rewrite orb_assoc.
    repeat split; [lia|lia|lia|].
    intros Hall. apply Forall_cons in Hall as [Hs Hl].
    specialize (H5 Hl). specialize (S5 Hs). lia.
Qed.

(** X29: what validation accepts: [validateContent] rejects
    [null] content, and accepts a content exactly when some non-empty
    section has a lead that is not a fallback and the front page, if it
    is present and not empty, has at least one secondary article. *)
Theorem content_is_valid_exactly_when (content : Content) :
  (valid (validateContent (Some content)) = true <->
   (exists sid s a, sections content !! sid = Some s /\ isEmpty s = false /\
                    lead s = Some a /\ _isFallback a = false)
   /\ (forall fp, sections content !! "frontPage" = Some fp -> isEmpty fp = false ->
                  secondary fp <> []))
  /\ (valid (validateContent (Some content)) = true <->
      errors (validateContent (Some content)) = [])
  /\ valid (validateContent None) = false.
Proof.
  assert (hasNonFallbackLead
            (fold_left tallyStep
               (map (fun kv : string * SectionContent => kv.2) (map_to_list (sections content)))
               {| t_sections := 0; t_articles := 0; t_fallbacks := 0; t_emptyCount := 0;
                  hasNonFallbackLead := false |}) = true
          <-> exists sid s a, sections content !! sid = Some s /\ isEmpty s = false /\
                              lead s = Some a /\ _isFallback a = false) as Hhas.
  { destruct (tally_spec (map (fun kv : string * SectionContent => kv.2)
                            (map_to_list (sections content)))
                {| t_sections := 0; t_articles := 0; t_fallbacks := 0; t_emptyCount := 0;
                   hasNonFallbackLead := false |}) as (_ & -> & _).
    cbn [hasNonFallbackLead orb]. rewrite existsb_exists. split.
    - intros (s & Hs & Hreal). apply in_map_iff in Hs as ([sid s'] & <- & Hs).
      apply list_elem_of_In, elem_of_map_to_list in Hs. unfold hasRealLead in Hreal.
      cbn [snd] in *. destruct (isEmpty s') eqn:Ee; [done|].
      destruct (lead s') as [a|] eqn:El; [|done]. destruct (_isFallback a) eqn:Ef; [done|].
      by exists sid, s', a.
    - intros (sid & s & a & Hs & Ee & El & Ef). exists s. split.
      + apply (in_map (fun kv : string * SectionContent => kv.2) _ (sid, s)).
        by apply list_elem_of_In, elem_of_map_to_list.
      + unfold hasRealLead. by rewrite Ee, El, Ef. }
  split; [|split; [|done]].
  - unfold validateContent. cbn [valid]. rewrite Nat.eqb_eq, length_zero_iff_nil.
    rewrite <- Hhas.
    destruct (hasNonFallbackLead _) eqn:E; cbn [app].
    + destruct (sections content !! "frontPage") as [fp|]; [|by intuition].
      destruct (isEmpty fp) eqn:Ee; cbn [negb andb]; [by intuition congruence|].
      destruct (secondary fp) as [|a l] eqn:Es; cbn [length Nat.eqb].
      * split; [done|]. intros [_ H]. by destruct (H fp eq_refl Ee).
      * split; [|done]. intros _. split; [done|]. intros fp' [= <-] _. by rewrite Es.
    + split; [done|]. by intros [[=] _].
  - unfold validateContent. cbn [valid errors]. by rewrite Nat.eqb_eq, length_zero_iff_nil.
Qed.

(** X30: the summary of a generated edition: for the
    content [generateAllContent] returns, [validateContent] counts 7
    sections, and fallbacks and empty sections together never exceed 7:
    since fallback secondaries are demoted before, only a lead can count
    as a fallback, at most one for each section that is not empty. *)
Theorem summary_of_a_generated_edition
    (sections : gmap string SectionData) (mastheadQuote : string)
    (backend : Backend) (log : list ChatCall) (content : Content) (log' : list ChatCall) :
  generateAllContent sections mastheadQuote backend log = (Ok content, log') ->
  sum_sections (summary (validateContent (Some content))) = 7
  /\ 0 <= sum_emptyCount (summary (validateContent (Some content)))
  /\ 0 <= sum_fallbacks (summary (validateContent (Some content)))
  /\ sum_fallbacks (summary (validateContent (Some content)))
     + sum_emptyCount (summary (validateContent (Some content))) <= 7.
Proof.
  intros Hrun. unfold validateContent. cbn [summary sum_sections sum_emptyCount sum_fallbacks].
  destruct (tally_spec (map (fun kv : string * SectionContent => kv.2)
                          (map_to_list (Xai.sections content)))
              {| t_sections := 0; t_articles := 0; t_fallbacks := 0; t_emptyCount := 0;
                 hasNonFallbackLead := false |}) as (H1 & _ & H3 & H4 & H5).
  cbn [t_sections t_emptyCount t_fallbacks] in *.
  assert (length (map (fun kv : string * SectionContent => kv.2)
                      (map_to_list (Xai.sections content))) = 7%nat) as Hlen.
  { rewrite length_map, length_map_to_list, <- (size_dom (D := gset string)).
    destruct (edition_sections sections mastheadQuote backend log content log' Hrun)
      as (_ & Hkeys & _).
    assert (dom (Xai.sections content) = list_to_set Sections.SECTION_ORDER) as ->.
    { apply set_eq. intros sid. rewrite elem_of_dom, Hkeys, elem_of_list_to_set.
      by rewrite list_elem_of_In. }
    rewrite size_list_to_set; [done|]. apply (bool_decide_unpack _). vm_compute. exact I. }
  rewrite Hlen in *.
  assert (Forall (fun s => Forall (fun a : Article => _isFallback a = false) (secondary s))
                 (map (fun kv : string * SectionContent => kv.2)
                      (map_to_list (Xai.sections content)))) as Hreal.
  { apply Forall_forall. intros s Hs. apply list_elem_of_In, in_map_iff in Hs as ([sid s'] & <- & Hs).
    apply list_elem_of_In, elem_of_map_to_list in Hs.
    by destruct (edition_articles sections mastheadQuote backend log content log' sid s' Hrun Hs). }
  specialize (H5 Hreal). lia.
Qed.

Lemma summary_of_a_generated_edition_witness :
  sum_sections (summary (validateContent (Some demoContent))) = 7
  /\ 0 <= sum_emptyCount (summary (validateContent (Some demoContent)))
  /\ 0 <= sum_fallbacks (summary (validateContent (Some demoContent)))
  /\ sum_fallbacks (summary (validateContent (Some demoContent)))
     + sum_emptyCount (summary (validateContent (Some demoContent))) <= 7.
Proof.
  apply (summary_of_a_generated_edition frontPageOnly "tagline" leadRoutingBackend []
           demoContent (snd demoEdition)).
  vm_compute. reflexivity.
Defined.

End PublishProps.
